(** * Candidate nearest neighbours: random projection trees and
      neighbourhood exploration (src/neighbors.cpp)

    A shallow embedding of [searchTree] and [searchTrees].

    Conventions of the embedding.
    - Point indices and matrix entries are [Z] (the source stores them in
      [int] and in [arma::vec] / [arma::mat] cells; the sentinel is [-1]).
    - The control parameters [threshold], [n_trees], [K],
      [max_recursion_degree], [maxIter] and the number of points [N] are
      [nat]: the interface contract has all of them non-negative.
    - Distances and projections are [Q]: every finite double is a rational
      and the source only compares them ([d == 0], [d < top.d],
      [direction > middle]); NaN and infinities are not modelled.
    - The OpenMP loops are run in index order by one thread; what the
      trees do to the pools under the other schedules is the subject of the
      section on schedules.
    - The progress sink of progress.hpp is modelled from its description
      (section Progress).
    - A computation ends in [Ok], in [Stop msg] (Rcpp's [stop]) or in
      [Undefined] (an access C++ leaves undefined: a pool or a column out
      of range, [top()] of an empty queue).  The read one past the end of
      the visited vector (line 217) is the exception: the statements are
      made for every value it may yield (parameter [stale]). *)

From Stdlib Require Import ZArith QArith Lia.
From stdpp Require Import base tactics option list sorting strings.

Local Open Scope nat_scope.

(** ** Outcomes *)

Inductive result (A : Type) : Type :=
| Ok (a : A)
| Stop (msg : string)
| Undefined.
Arguments Ok {A} a.
Arguments Stop {A} msg.
Arguments Undefined {A}.

#[global] Instance result_ret : MRet result := λ A a, Ok a.
#[global] Instance result_bind : MBind result := λ A B f m,
  match m with
  | Ok a => f a
  | Stop msg => Stop msg
  | Undefined => Undefined
  end.

(** [for (x : l) body], threading the state and leaving at the first
    [Stop] or [Undefined]. *)
Fixpoint for_each {A S : Type} (l : list A) (body : A → S → result S) (s : S)
  : result S :=
  match l with
  | [] => Ok s
  | x :: l' => s' ← body x s; for_each l' body s'
  end.

(** ** heapObject and std::priority_queue<heapObject> *)

Record heapObject : Type := mkHeapObject { d : Q; n : Z }.

(** [operator<] of [heapObject]: [d < other.d]. *)
Definition Qltb (x y : Q) : bool := negb (Qle_bool y x).
Definition heapObject_lt (a b : heapObject) : bool := Qltb (d a) (d b).

(** The queue is kept as the list of its elements, largest [d] first; which
    of several entries of equal [d] is on top is not fixed by C++
    ([std::priority_queue] is a binary heap), here a new entry goes below
    the older ones of the same distance.  The general statements about
    queues and columns hold for every order among entries of equal [d];
    the runs that are evaluated are on data where the choice makes no
    difference. *)
Definition priority_queue : Type := list heapObject.

Fixpoint pq_push (x : heapObject) (q : priority_queue) : priority_queue :=
  match q with
  | [] => [x]
  | y :: q' => if heapObject_lt y x then x :: y :: q' else y :: pq_push x q'
  end.

Definition pq_top (q : priority_queue) : option heapObject := head q.
Definition pq_pop (q : priority_queue) : priority_queue := tail q.
Definition pq_size (q : priority_queue) : nat := length q.
Definition pq_empty (q : priority_queue) : bool :=
  match q with [] => true | _ => false end.

(** ** Progress (progress.hpp) *)

(** Modelled from the spec: the progress sink declared in progress.hpp,
    which is not among the sources.  It holds the counter and the abort
    flag; the flag is raised by the caller's interrupt surface and never
    lowered.  [check_abort] and [increment] are the two probes through which
    the workers see it: each probe made while the flag is down looks
    whether the caller has raised it since.  [polls] counts these looks. *)
Record Progress : Type := mkProgress {
  current : nat;
  aborted : bool;
  polls : nat
}.

Section Progress.
(** [interrupt k]: the caller has raised the flag by the time of look [k]. *)
Variable interrupt : nat → bool.

(** [check_abort()]: whether the computation is aborted. *)
Definition check_abort (p : Progress) : bool * Progress :=
  if aborted p then (true, p)
  else let a := interrupt (polls p) in
       (a, mkProgress (current p) a (S (polls p))).

(** [increment(amount)]: advances the counter unless the computation is
    aborted, and tells whether it is still live. *)
Definition increment (amount : nat) (p : Progress) : bool * Progress :=
  if aborted p then (false, p)
  else if interrupt (polls p)
       then (false, mkProgress (current p) true (S (polls p)))
       else (true, mkProgress (current p + amount) false (S (polls p))).
End Progress.

(** ** Armadillo and libstdc++ helpers used by the source *)

(** [v[i]] of an [arma::vec] holding indices. *)
Definition at_ (v : list Z) (i : nat) : Z := nth i v 0%Z.

(** [arma::regspace<arma::vec>(0, N - 1)]: ascending [0 .. N-1]; for
    [N = 0] the end point [-1] is below the start and Armadillo counts
    down, giving [0, -1]. *)
Definition regspace (N : nat) : list Z :=
  match N with
  | 0 => [0; -1]%Z
  | _ => map Z.of_nat (seq 0 N)
  end.

(** [arma::find(cond)]: the positions at which the condition holds, in
    increasing order. *)
Fixpoint find_from (pos : nat) (p : Q → bool) (v : list Q) : list nat :=
  match v with
  | [] => []
  | x :: v' =>
      if p x then pos :: find_from (S pos) p v' else find_from (S pos) p v'
  end.
Definition find (p : Q → bool) (v : list Q) : list nat := find_from 0 p v.

(** [indices(positions)]: the elements at the given positions. *)
Definition elem (indices : list Z) (positions : list nat) : list Z :=
  map (at_ indices) positions.

(** [v.subvec(first, last)]: both ends included. *)
Definition subvec (v : list Z) (first last : nat) : list Z :=
  take (S last - first) (drop first v).

#[global] Instance Qle_dec : RelDecision Qle.
Proof.
  intros x y. destruct (Qle_bool x y) eqn:E.
  - left. by apply Qle_bool_iff.
  - right. intros H. apply Qle_bool_iff in H. congruence.
Defined.

(** [arma::median]: the middle value of the sorted data; when their number
    is even, the mean of the two middle values as Armadillo computes it in
    doubles ([robust_mean], a rounded value).  [mid lower upper] stands for
    that rounded mean: whatever the rounding, it lies between the two. *)
Definition median (mid : Q → Q → Q) (v : list Q) : Q :=
  let s := merge_sort Qle v in
  let m := length v / 2 in
  if Nat.even (length v)
  then mid (nth (m - 1) s 0%Q) (nth m s 0%Q)
  else nth m s 0%Q.

(** The mean of two values without rounding. *)
Definition mean (a b : Q) : Q := ((a + b) / 2)%Q.


(** [std::sort] on a [std::vector<int>]. *)
Definition sort_int (v : list Z) : list Z := merge_sort Z.le v.

(** [std::unique] followed by [erase]: of every run of equal neighbours
    the first is kept. *)
Fixpoint unique (v : list Z) : list Z :=
  match v with
  | [] => []
  | x :: v' =>
      match v' with
      | [] => [x]
      | y :: _ => if (x =? y)%Z then unique v' else x :: unique v'
      end
  end.

(** ** The tree neighbourhoods and [searchTree] *)

Record state : Type := mkState {
  heap : list (list Z);
  progress : Progress
}.

(** [heap[i] -> push_back(v)]. *)
Definition push_back (i v : Z) (h : list (list Z)) : result (list (list Z)) :=
  if bool_decide (0 ≤ i < Z.of_nat (length h))%Z
  then Ok (alter (λ l, l ++ [v]) (Z.to_nat i) h)
  else Undefined.

(** Lines 44-50: the two points record each other. *)
Definition pair_leaf (indices : list Z) (h : list (list Z))
  : result (list (list Z)) :=
  h1 ← push_back (at_ indices 0) (at_ indices 1) h;
  push_back (at_ indices 1) (at_ indices 0) h1.

(** Lines 55-58: every point of the leaf records all the others. *)
Definition co_leaf (indices : list Z) (h : list (list Z))
  : result (list (list Z)) :=
  let I := length indices in
  for_each (seq 0 I) (λ i,
    for_each (seq 0 I) (λ j h',
      if i =? j then Ok h'
      else push_back (at_ indices i) (at_ indices j) h')) h.

Section Trees.
Variable interrupt : nat → bool.

(** Lines 63-86.  [project t path indices x] is [direction] at point [x]:
    the projection of [data.col(x)] on the unit normal of the hyperplane
    drawn at the node reached by [path] in tree [t].  The random draw, the
    data and the floating-point arithmetic are folded into it.  The draw is
    repeated until the two points differ (lines 68-79); on an index vector
    without repetition they differ after the first draw, and [searchTrees]
    only calls [searchTree] on such vectors.  On a vector whose entries are
    all equal the source does not leave that loop: a statement that
    [searchTree] returns is made for vectors without repetition only. *)
Variable project : nat → list bool → list Z → Z → Q.
Variable mid : Q → Q → Q.

Definition leaf_node (indices : list Z) (s : state) : result state :=
  h ← co_leaf indices (heap s);
  Ok (mkState h (increment interrupt (length indices) (progress s)).2).

Fixpoint searchTree (threshold : nat) (indices : list Z) (iterations : nat)
    (t : nat) (path : list bool) (s : state) : result state :=
  let I := length indices in
  let '(ab, p) := check_abort interrupt (progress s) in
  if ab then Ok (mkState (heap s) p)
  else if I <? 2 then Stop "Tree split failure."
  else if I =? 2 then
    h ← pair_leaf indices (heap s); Ok (mkState h p)
  else
    match iterations with
    | 0 => leaf_node indices (mkState (heap s) p)
    | S iterations' =>
        if I <? threshold then leaf_node indices (mkState (heap s) p)
        else
          let direction := map (project t path indices) indices in
          let middle := median mid direction in
          let left := find (λ x, Qltb middle x) direction in
          let right := find (λ x, Qle_bool x middle) direction in
          if (2 <=? length left) && (2 <=? length right) then
            s1 ← searchTree threshold (elem indices left) iterations'
                   t (path ++ [false]) (mkState (heap s) p);
            searchTree threshold (elem indices right) iterations'
              t (path ++ [true]) s1
          else
            s1 ← searchTree threshold (subvec indices 0 (I / 2)) iterations'
                   t (path ++ [false]) (mkState (heap s) p);
            searchTree threshold (subvec indices (I / 2) (I - 1)) iterations'
              t (path ++ [true]) s1
    end.
End Trees.

(** ** Matrices of neighbours *)

(** An [arma::mat] holding indices, by columns; [n_rows] is kept apart so
    that a matrix without columns still has a height. *)
Record mat : Type := mkMat {
  n_rows : nat;
  cols : list (list Z)
}.

Definition n_cols (m : mat) : nat := length (cols m).

(** [arma::mat(0)]. *)
Definition empty_mat : mat := mkMat 0 [].

(** [arma::mat(rows, columns)] followed by [fill(v)]. *)
Definition filled (rows columns : nat) (v : Z) : mat :=
  mkMat rows (replicate columns (replicate rows v)).

(** [m.col(j)]. *)
Definition col (m : mat) (j : Z) : result (list Z) :=
  if bool_decide (0 ≤ j)%Z
  then match cols m !! Z.to_nat j with
       | Some c => Ok c
       | None => Undefined
       end
  else Undefined.

(** [column[j] = v]. *)
Definition write (j : nat) (v : Z) (column : list Z) : result (list Z) :=
  if j <? length column then Ok (<[j:=v]> column) else Undefined.

Definition set_col (m : mat) (i : nat) (column : list Z) : mat :=
  mkMat (n_rows m) (<[i:=column]> (cols m)).

(** ** Binary search in the visited vector (libstdc++) *)

Fixpoint lower_bound_aux (fuel : nat) (v : list Z) (first len : nat) (val : Z)
  : nat :=
  match fuel with
  | 0 => first
  | S fuel' =>
      if len =? 0 then first
      else
        let half := len / 2 in
        let middle := first + half in
        if (at_ v middle <? val)%Z
        then lower_bound_aux fuel' v (S middle) (len - half - 1) val
        else lower_bound_aux fuel' v first half val
  end.

Definition lower_bound (v : list Z) (first last : nat) (val : Z) : nat :=
  lower_bound_aux (last - first) v first (last - first) val.

Fixpoint upper_bound_aux (fuel : nat) (v : list Z) (first len : nat) (val : Z)
  : nat :=
  match fuel with
  | 0 => first
  | S fuel' =>
      if len =? 0 then first
      else
        let half := len / 2 in
        let middle := first + half in
        if (val <? at_ v middle)%Z
        then upper_bound_aux fuel' v first half val
        else upper_bound_aux fuel' v (S middle) (len - half - 1) val
  end.

Definition upper_bound (v : list Z) (first last : nat) (val : Z) : nat :=
  upper_bound_aux (last - first) v first (last - first) val.

(** [std::equal_range(v.begin(), v.end(), val)], as positions. *)
Fixpoint equal_range_aux (fuel : nat) (v : list Z) (first len : nat) (val : Z)
  : nat * nat :=
  match fuel with
  | 0 => (first, first)
  | S fuel' =>
      if len =? 0 then (first, first)
      else
        let half := len / 2 in
        let middle := first + half in
        if (at_ v middle <? val)%Z
        then equal_range_aux fuel' v (S middle) (len - half - 1) val
        else if (val <? at_ v middle)%Z
        then equal_range_aux fuel' v first half val
        else (lower_bound v first middle val,
              upper_bound v (S middle) (first + len) val)
  end.

Definition equal_range (v : list Z) (val : Z) : nat * nat :=
  equal_range_aux (length v) v 0 (length v) val.

(** [v.insert(v.begin() + pos, x)]. *)
Definition insert_at (pos : nat) (x : Z) (v : list Z) : list Z :=
  take pos v ++ x :: drop pos v.

(** ** [searchTrees] *)

Section Neighbors.
Variable interrupt : nat → bool.
Variable project : nat → list bool → list Z → Z → Q.
Variable mid : Q → Q → Q.

(** [dist i j] is [distanceFunction(data.col(i), data.col(j))]. *)
Variable dist : Z → Z → Q.

(** What [*it] yields when [it] is [pastVisitors.end()]: C++ leaves the
    read undefined, the embedding takes the value from this parameter. *)
Variable stale : list Z → Z.

Definition deref (v : list Z) (pos : nat) : Z :=
  match v !! pos with
  | Some x => x
  | None => stale v
  end.

(** Lines 144-150: sort, unique, erase and the size test, pool by pool. *)
Fixpoint normalize (h : list (list Z)) : result (list (list Z)) :=
  match h with
  | [] => Ok []
  | neighbors :: h' =>
      let neighbors' := unique (sort_int neighbors) in
      if length neighbors' <? 3 then Stop "Tree failure."
      else h'' ← normalize h'; Ok (neighbors' :: h'')
  end.

(** Lines 132-152: the body of the loop over the trees. *)
Definition grow_tree (threshold max_recursion_degree N t : nat) (s : state)
  : result state :=
  let '(ab, p) := check_abort interrupt (progress s) in
  if ab then Ok (mkState (heap s) p)
  else
    s1 ← searchTree interrupt project mid threshold (regspace N)
           max_recursion_degree t [] (mkState (heap s) p);
    if 0 <? t then
      let '(ab1, p1) := check_abort interrupt (progress s1) in
      if ab1 then Ok (mkState (heap s1) p1)
      else h ← normalize (heap s1); Ok (mkState h p1)
    else Ok s1.

(** Lines 167-171: the [threshold] nearest candidates of the pool. *)
Definition nearest (threshold : nat) (i : Z) (stack : list Z)
  : priority_queue :=
  fold_left (λ maxHeap it,
    let maxHeap' := pq_push (mkHeapObject (dist i it) it) maxHeap in
    if threshold <? pq_size maxHeap' then pq_pop maxHeap' else maxHeap')
    stack [].

(** Lines 172-177: [do { knns(j,i) = top().n; pop(); j++; }
    while (j < bound && !empty())].  The head of the list is [top()] and
    its tail the queue after [pop()]. *)
Fixpoint drain_do (bound : nat) (q : priority_queue) (j : nat)
    (column : list Z) : result (nat * list Z) :=
  match q with
  | [] => Undefined
  | top :: q' =>
      column' ← write j (n top) column;
      if (S j <? bound) && negb (pq_empty q')
      then drain_do bound q' (S j) column'
      else Ok (S j, column')
  end.

(** Lines 163-179: column [i] of the first matrix. *)
Definition reduce_column (threshold : nat) (h : list (list Z)) (i : nat)
    (kp : mat * Progress) : result (mat * Progress) :=
  let '(knns, p) := kp in
  let '(live, p') := increment interrupt 1 p in
  if live then
    match h !! i with
    | None => Undefined
    | Some stack =>
        let maxHeap := nearest threshold (Z.of_nat i) stack in
        column ← col knns (Z.of_nat i);
        '(j, column') ← drain_do threshold maxHeap 0 column;
        if (j =? 1) && (at_ column' 0 =? -1)%Z
        then Stop "Bad neighbor matrix."
        else Ok (set_col knns i column', p')
    end
  else Ok (knns, p').

(** Lines 208-229: the neighbours [k] of one neighbour [j]. *)
Fixpoint explore_locality (i : Z) (K : nat) (locality : list Z)
    (hp : priority_queue) (pastVisitors : list Z)
  : result (priority_queue * list Z) :=
  match locality with
  | [] => Ok (hp, pastVisitors)
  | k :: rest =>
      if (k =? -1)%Z then Ok (hp, pastVisitors)
      else if (k =? i)%Z then explore_locality i K rest hp pastVisitors
      else
        let '(first, second) := equal_range pastVisitors k in
        if (deref pastVisitors first =? k)%Z
        then explore_locality i K rest hp pastVisitors
        else
          let pastVisitors' :=
            if second =? length pastVisitors then pastVisitors ++ [k]
            else insert_at second k pastVisitors in
          let dk := dist i k in
          if Qeq_bool dk 0 then explore_locality i K rest hp pastVisitors'
          else if pq_size hp <? K
          then explore_locality i K rest
                 (pq_push (mkHeapObject dk k) hp) pastVisitors'
          else
            match pq_top hp with
            | None => Undefined
            | Some top =>
                if Qltb dk (d top) then
                  let hp' := pq_push (mkHeapObject dk k) hp in
                  explore_locality i K rest
                    (if K <? pq_size hp' then pq_pop hp' else hp')
                    pastVisitors'
                else explore_locality i K rest hp pastVisitors'
            end
  end.

(** Lines 197-230: the neighbours [j] of [i], each followed by its own. *)
Fixpoint explore_neighborhood (old_knns : mat) (i : Z) (K : nat)
    (neighborhood : list Z) (hp : priority_queue) (pastVisitors : list Z)
  : result (priority_queue * list Z) :=
  match neighborhood with
  | [] => Ok (hp, pastVisitors)
  | j :: rest =>
      if (j =? -1)%Z then Ok (hp, pastVisitors)
      else if (j =? i)%Z
      then explore_neighborhood old_knns i K rest hp pastVisitors
      else
        let dj := dist i j in
        if Qeq_bool dj 0
        then explore_neighborhood old_knns i K rest hp pastVisitors
        else
          let hp1 := pq_push (mkHeapObject dj j) hp in
          let hp2 := if K <? pq_size hp1 then pq_pop hp1 else hp1 in
          locality ← col old_knns j;
          '(hp3, pastVisitors3) ←
            explore_locality i K locality hp2 pastVisitors;
          explore_neighborhood old_knns i K rest hp3 pastVisitors3
  end.

(** Lines 231-236: [while (j < bound && !empty()) { knns(j,i) = top().n;
    pop(); j++; }]. *)
Fixpoint drain_while (bound : nat) (q : priority_queue) (j : nat)
    (column : list Z) : result (nat * list Z) :=
  match q with
  | [] => Ok (j, column)
  | top :: q' =>
      if j <? bound then
        column' ← write j (n top) column;
        drain_while bound q' (S j) column'
      else Ok (j, column)
  end.

(** Lines 187-239: column [i] of the next matrix. *)
Definition refine_column (h : list (list Z)) (old_knns : mat) (K i : nat)
    (kp : mat * Progress) : result (mat * Progress) :=
  let '(knns, p) := kp in
  let '(live, p') := increment interrupt 1 p in
  if live then
    neighborhood ← col old_knns (Z.of_nat i);
    match h !! i with
    | None => Undefined
    | Some pastVisitors =>
        '(hp, _) ← explore_neighborhood old_knns (Z.of_nat i) K
                     neighborhood [] pastVisitors;
        column ← col knns (Z.of_nat i);
        '(j, column') ← drain_while K hp 0 column;
        if j =? 0
        then Stop "Failure in neighborhood exploration - this should never happen."
        else Ok (set_col knns i column', p')
    end
  else Ok (knns, p').

(** Lines 182-240: one pass of neighbourhood exploration. *)
Definition refine (h : list (list Z)) (K N : nat) (kp : mat * Progress)
  : result (mat * Progress) :=
  let '(old_knns, p) := kp in
  for_each (seq 0 N) (refine_column h old_knns K) (filled K N (-1), p).

(** Lines 122-153: the seeded pools and the forest, the trees grown one
    after the other in index order. *)
Definition forest (threshold n_trees max_recursion_degree N : nat)
  : result state :=
  let treeNeighborhoods := map (λ i, [Z.of_nat i]) (seq 0 N) in
  for_each (seq 0 n_trees) (grow_tree threshold max_recursion_degree N)
    (mkState treeNeighborhoods (mkProgress 0 false 0)).

(** Lines 160-179: the first matrix, [threshold] rows. *)
Definition reduce (threshold N : nat) (h : list (list Z)) (p : Progress)
  : result (mat * Progress) :=
  for_each (seq 0 N) (reduce_column threshold h)
    (filled threshold N (-1), p).

Definition searchTrees (threshold n_trees K max_recursion_degree maxIter
    N : nat) : result (mat * Progress) :=
  s ← forest threshold n_trees max_recursion_degree N;
  let '(ab, p1) := check_abort interrupt (progress s) in
  if ab then Ok (empty_mat, p1)
  else
    '(knns, p2) ← reduce threshold N (heap s) p1;
    let '(ab2, p3) := check_abort interrupt p2 in
    if ab2 then Ok (empty_mat, p3)
    else
      for_each (seq 0 maxIter) (λ _ kp, refine (heap s) K N kp) (knns, p3).
End Neighbors.

(** ** Data for the examples *)

(** No user interrupt, and one pending from the start. *)
Definition no_interrupt : nat → bool := λ _, false.
Definition interrupted : nat → bool := λ _, true.

(** All projections equal: every split is degenerate. *)
Definition flat : nat → list bool → list Z → Z → Q := λ _ _ _ _, 0%Q.

(** Projections read from a table, one table for tree 0 and one for the
    later trees. *)
Definition table (l : list Z) (x : Z) : Q := inject_Z (nth (Z.to_nat x) l 0%Z).
Definition two_tables (a b : list Z) : nat → list bool → list Z → Z → Q :=
  λ t _ _ x, if t =? 0 then table a x else table b x.

(** Points on a line at the given coordinates, squared distance. *)
Definition on_line (pos : list Z) (a b : Z) : Q :=
  let pa := nth (Z.to_nat a) pos 0%Z in
  let pb := nth (Z.to_nat b) pos 0%Z in
  inject_Z ((pa - pb) * (pa - pb)).

Definition stale_const (v : Z) : list Z → Z := λ _, v.

(** Points on a line at the given coordinates and the hyperplane drawn
    from the points [x1] and [x2] (lines 70-85): base point [(x1 + x2) / 2],
    unit normal the sign of [x1 - x2]. *)
Definition along (pos : list Z) (x1 x2 : Z)
  : nat → list bool → list Z → Z → Q :=
  λ _ _ _ x,
    let c := λ a, inject_Z (nth (Z.to_nat a) pos 0%Z) in
    let normal :=
      Z.sgn (nth (Z.to_nat x1) pos 0%Z - nth (Z.to_nat x2) pos 0%Z) in
    (inject_Z normal * (c x - (c x1 + c x2) / 2))%Q.


(** ** Predicates of the statements *)

(** [h'] is [h] with values satisfying [R] appended to some of its pools. *)
Definition grows (R : Z → Prop) (h h' : list (list Z)) : Prop :=
  length h' = length h ∧
  ∀ i l, h !! i = Some l → ∃ l', h' !! i = Some (l ++ l') ∧ Forall R l'.

(** Pool [i] holds [i] and only indices below [N]. *)
Definition in_range (N : nat) (e : Z) : Prop := (0 ≤ e < Z.of_nat N)%Z.

Definition pools_ok (N : nat) (h : list (list Z)) : Prop :=
  length h = N ∧
  ∀ i l, h !! i = Some l → Z.of_nat i ∈ l ∧ Forall (in_range N) l.

(** A pool after a completed normalization pass. *)
Definition normalized (i : nat) (l : list Z) : Prop :=
  StronglySorted Z.lt l ∧ Z.of_nat i ∈ l ∧ 3 ≤ length l.

(** Six points, two trees: tree 0 separates [{3,4,5}] from [{0,1,2}], tree 1
    the odd from the even points. *)
Definition six_split : nat → list bool → list Z → Z → Q :=
  two_tables [0; 0; 0; 1; 1; 1]%Z [0; 1; 0; 1; 0; 1]%Z.
Definition six_seeds : state :=
  mkState (map (λ i, [Z.of_nat i]) (seq 0 6)) (mkProgress 0 false 0).

(** The six points of [six_points] cut by the hyperplane drawn from points
    4 and 0: it separates [{3,4,5}] from [{0,1,2}]. *)
Definition six_cut : nat → list bool → list Z → Z → Q :=
  along [0; 1; 3; 7; 15; 31]%Z 4 0.


(** Height, width and column lengths of a matrix. *)
Definition shape (rows columns : nat) (m : mat) : Prop :=
  n_rows m = rows ∧ n_cols m = columns ∧
  Forall (λ c, length c = rows) (cols m).

(** Every entry [e] of every column [i] satisfies [P i e]. *)
Definition entries (P : nat → Z → Prop) (m : mat) : Prop :=
  ∀ i c, cols m !! i = Some c → Forall (P i) c.

(** An entry is the sentinel or the index of a point. *)
Definition index_or_none (N : nat) (i : nat) (e : Z) : Prop :=
  e = (-1)%Z ∨ in_range N e.

(** An entry left by neighbourhood exploration in column [i]: the sentinel,
    or a point other than [i] whose distance to [i] is not zero. *)
Definition explored (dist : Z → Z → Q) (N : nat) (i : nat) (e : Z) : Prop :=
  e = (-1)%Z ∨
  (in_range N e ∧ e ≠ Z.of_nat i ∧ ¬ (dist (Z.of_nat i) e == 0)%Q).

(** A queue entry the exploration of point [i] may hold. *)
Definition candidate (dist : Z → Z → Q) (N : nat) (i : Z) (x : heapObject)
  : Prop :=
  in_range N (n x) ∧ n x ≠ i ∧ ¬ (dist i (n x) == 0)%Q.

(** Three points on a line at 0, 1 and 3. *)
Definition three_points : Z → Z → Q := on_line [0; 1; 3]%Z.

(** Six points on a line, far enough apart for all distances to differ. *)
Definition six_points : Z → Z → Q := on_line [0; 1; 3; 7; 15; 31]%Z.

(** Six points on a line with point 5 between points 1 and 2. *)
Definition six_folded : Z → Z → Q := on_line [0; 4; 12; 28; 60; 5]%Z.

(** The caller raises the flag between look [k0 - 1] and look [k0]. *)
Definition interrupt_from (k0 : nat) : nat → bool := λ k, k0 <=? k.

(** A queue listed from the farthest entry to the nearest. *)
Definition farthest_first (q : priority_queue) : Prop :=
  StronglySorted (λ a b, (d b <= d a)%Q) q.

(** Candidate [c] of point [i] is in the queue, or the queue is full of
    entries that are no farther from [i] than [c]. *)
Definition kept (dist : Z → Z → Q) (threshold : nat) (i : Z)
    (q : priority_queue) (c : Z) : Prop :=
  mkHeapObject (dist i c) c ∈ q ∨
  (length q = threshold ∧ Forall (λ x, (d x <= dist i c)%Q) q).

(** Lines 219-220: [k] put into the visited vector at the position the
    search returned. *)
Definition visit (pastVisitors : list Z) (second : nat) (k : Z) : list Z :=
  if second =? length pastVisitors then pastVisitors ++ [k]
  else insert_at second k pastVisitors.

(** Whenever [j] is a candidate of [i], [i] is a candidate of [j]. *)
Definition symmetric_pools (h : list (list Z)) : Prop :=
  ∀ i j li lj, h !! i = Some li → h !! j = Some lj →
    Z.of_nat j ∈ li → Z.of_nat i ∈ lj.


(** All points at the same place: every distance is zero. *)
Definition coincident : Z → Z → Q := λ _ _, 0%Q.

(** Below a sentinel a column holds nothing but sentinels. *)
Definition sentinel_terminated (c : list Z) : Prop :=
  ∀ a b, a ≤ b → b < length c → c !! a = Some (-1)%Z → c !! b = Some (-1)%Z.

(** The first [j] rows of a column exist and hold no sentinel. *)
Definition starts_real (j : nat) (c : list Z) : Prop :=
  ∀ a, a < j → ∃ x, c !! a = Some x ∧ x ≠ (-1)%Z.

(** What the body of a loop over the columns does to the matrix when it
    returns: the number of columns stays, sentinel-terminated columns stay
    so, and unless the flag is up column [i] has been given a first row. *)
Definition column_done (i : nat) (kp kp' : mat * Progress) : Prop :=
  n_cols kp'.1 = n_cols kp.1 ∧
  (Forall sentinel_terminated (cols kp.1) →
   Forall sentinel_terminated (cols kp'.1) ∧
   (aborted kp'.2 = false →
    aborted kp.2 = false ∧
    ∃ c, kp'.1 = set_col kp.1 i c ∧ starts_real 1 c)).

(** ** The distance of line 30 *)

(** Armadillo's [i - j], [square] and [sum] on vectors of one length, which
    is what the columns of one data matrix are; coordinates are rationals. *)
Definition minus (i j : list Q) : list Q := zip_with Qminus i j.
Definition square (v : list Q) : list Q := map (λ x, x * x)%Q v.
Definition sum_ (v : list Q) : Q := fold_right Qplus 0%Q v.

(** Lines 30-32. *)
Definition relDist (i j : list Q) : Q := sum_ (square (minus i j)).

(** ** The order of a column *)

(** A queue listed from the farthest entry to the nearest, its entries
    carrying their distance to point [i]. *)
Definition heap_ok (dist : Z → Z → Q) (i : Z) (q : priority_queue) : Prop :=
  farthest_first q ∧ Forall (λ e, d e = dist i (n e)) q.

(** The neighbours of point [i] in a column, read downwards, come nearer. *)
Definition farthest_first_column (dist : Z → Z → Q) (i : Z) (c : list Z)
  : Prop :=
  ∀ a b x y, a ≤ b → c !! a = Some x → c !! b = Some y →
    x ≠ (-1)%Z → y ≠ (-1)%Z → (dist i y <= dist i x)%Q.

(** A column while queue [q] is drained into it, [j] rows written: the rows
    from [j] on are untouched, the rows above come nearer downwards and none
    of them is nearer than an entry still in the queue. *)
Definition drained (dist : Z → Z → Q) (i : Z) (q : priority_queue) (j : nat)
    (column : list Z) : Prop :=
  (∀ a, j ≤ a → a < length column → column !! a = Some (-1)%Z) ∧
  (∀ a b x y, a ≤ b → b < j → column !! a = Some x → column !! b = Some y →
     (dist i y <= dist i x)%Q) ∧
  (∀ a x e, a < j → column !! a = Some x → e ∈ q → (d e <= dist i x)%Q).

(** What the body of a loop over the columns of a matrix of [rows] rows
    does when it returns: nothing, or it replaces column [i], by an ordered
    column if column [i] was still unwritten. *)
Definition column_sorted_step (dist : Z → Z → Q) (rows i : nat)
    (kp kp' : mat * Progress) : Prop :=
  kp'.1 = kp.1 ∨
  ∃ c', kp'.1 = set_col kp.1 i c' ∧
    (cols kp.1 !! i = Some (replicate rows (-1)%Z) →
     farthest_first_column dist (Z.of_nat i) c').

(** ** What a tree gives every point *)

(** From [h] to [h'] the pool of [x] has been extended, and among what was
    appended is a point of [R] other than [x]. *)
Definition paired (R : Z → Prop) (h h' : list (list Z)) (x : Z) : Prop :=
  ∃ l l' y, h !! Z.to_nat x = Some l ∧ h' !! Z.to_nat x = Some (l ++ l') ∧
    y ∈ l' ∧ R y ∧ y ≠ x.

(** ** The forest under any schedule *)

(** Lines 131-152 are an [omp parallel for]: the trees are grown by several
    threads, and the pools are touched only inside the unnamed critical
    sections, which exclude one another.  When no abort is seen, a tree is
    the sequence of the critical sections it enters: the appends of a leaf
    of two (lines 45-49), those of a larger leaf (lines 53-60), and, for
    [t > 0], the pass over the pools (lines 142-151).  [Failure] is the
    [stop] of line 43. *)
Inductive event : Type :=
| Pair (indices : list Z)
| Leaf (indices : list Z)
| Pass
| Failure.

Definition apply_event (e : event) (h : list (list Z))
  : result (list (list Z)) :=
  match e with
  | Pair indices => pair_leaf indices h
  | Leaf indices => co_leaf indices h
  | Pass => normalize h
  | Failure => Stop "Tree split failure."
  end.

(** The pools after the critical sections [events], in this order. *)
Definition run_events (events : list event) (h : list (list Z))
  : result (list (list Z)) :=
  for_each events apply_event h.

Section Schedules.
Variable project : nat → list bool → list Z → Z → Q.
Variable mid : Q → Q → Q.

(** Lines 34-99 with no abort seen: the critical sections of one call of
    [searchTree], in the order the call enters them. *)
Fixpoint leaves (threshold : nat) (indices : list Z) (iterations : nat)
    (t : nat) (path : list bool) : list event :=
  let I := length indices in
  if I <? 2 then [Failure]
  else if I =? 2 then [Pair indices]
  else
    match iterations with
    | 0 => [Leaf indices]
    | S iterations' =>
        if I <? threshold then [Leaf indices]
        else
          let direction := map (project t path indices) indices in
          let middle := median mid direction in
          let left := find (λ x, Qltb middle x) direction in
          let right := find (λ x, Qle_bool x middle) direction in
          if (2 <=? length left) && (2 <=? length right) then
            leaves threshold (elem indices left) iterations'
              t (path ++ [false])
            ++ leaves threshold (elem indices right) iterations'
                 t (path ++ [true])
          else
            leaves threshold (subvec indices 0 (I / 2)) iterations'
              t (path ++ [false])
            ++ leaves threshold (subvec indices (I / 2) (I - 1)) iterations'
                 t (path ++ [true])
    end.

(** Lines 132-152 with no abort seen: tree [t], then the pass if [t > 0]. *)
Definition tree_events (threshold max_recursion_degree N t : nat)
  : list event :=
  leaves threshold (regspace N) max_recursion_degree t []
  ++ (if 0 <? t then [Pass] else []).
End Schedules.

(** [interleaving ls l]: [l] takes the elements of the lists [ls], each list
    in its own order.  With one list per thread, these are the orders in
    which mutually exclusive sections can be executed. *)
Inductive interleaving {A : Type} : list (list A) → list A → Prop :=
| interleaving_done ls : Forall (λ l, l = []) ls → interleaving ls []
| interleaving_step ls k x l rest :
    ls !! k = Some (x :: l) → interleaving (<[k:=l]> ls) rest →
    interleaving ls (x :: rest).


(** The caller never raises the flag. *)
Definition quiet (interrupt : nat → bool) : Prop := ∀ k, interrupt k = false.
(** * Properties *)

(** ** The outcome monad and loops *)

Lemma bind_Ok {A B} (m : result A) (f : A → result B) (b : B) :
  m ≫= f = Ok b → ∃ a, m = Ok a ∧ f a = Ok b.
Proof. destruct m; simpl; eauto; discriminate. Qed.

Lemma for_each_app {A S} (l1 l2 : list A) (body : A → S → result S) (s : S) :
  for_each (l1 ++ l2) body s = for_each l1 body s ≫= for_each l2 body.
Proof.
  revert s. induction l1 as [|x l1 IH]; intros s; simpl; [done|].
  destruct (body x s) as [s'| |]; simpl; auto.
Qed.

Lemma for_each_inv {A S} (P : S → Prop) (l : list A)
    (body : A → S → result S) (s s' : S) :
  (∀ x a b, x ∈ l → P a → body x a = Ok b → P b) →
  P s → for_each l body s = Ok s' → P s'.
Proof.
  revert s. induction l as [|x l IH]; intros s Hb Hs H; simpl in H.
  - by inversion H; subst.
  - apply bind_Ok in H as (s1 & H1 & H2).
    apply (IH s1); [|eauto using list_elem_of_here|done].
    intros y a b Hy. apply Hb. by apply list_elem_of_further.
Qed.

Lemma for_each_last {A S} (l : list A) (x : A) (body : A → S → result S)
    (s s' : S) :
  for_each (l ++ [x]) body s = Ok s' →
  ∃ s1, for_each l body s = Ok s1 ∧ body x s1 = Ok s'.
Proof.
  rewrite for_each_app. intros H. apply bind_Ok in H as (s1 & H1 & H2).
  exists s1. split; [done|]. simpl in H2.
  apply bind_Ok in H2 as (s2 & H2 & H3). by inversion H3; subst.
Qed.

(** ** Progress *)

Lemma check_abort_flag interrupt p ab p' :
  check_abort interrupt p = (ab, p') → aborted p' = ab.
Proof.
  unfold check_abort. destruct (aborted p) eqn:E; intros H; by inversion H; subst.
Qed.

Lemma check_abort_sticky interrupt p :
  aborted p = true → check_abort interrupt p = (true, p).
Proof. intros Ha. unfold check_abort. by rewrite Ha. Qed.

Lemma increment_live interrupt amount p live p' :
  increment interrupt amount p = (live, p') → aborted p' = negb live.
Proof.
  unfold increment. destruct (aborted p) eqn:E;
    [|destruct (interrupt (polls p))]; intros H; by inversion H; subst.
Qed.

Lemma increment_quiet interrupt amount p :
  aborted p = false → interrupt (polls p) = false →
  increment interrupt amount p
  = (true, mkProgress (current p + amount) false (S (polls p))).
Proof. intros Ha Hi. unfold increment. by rewrite Ha, Hi. Qed.

(** ** The pools only grow *)

Lemma grows_refl R h : grows R h h.
Proof.
  split; [done|]. intros i l Hl. exists []. by rewrite app_nil_r.
Qed.

Lemma grows_trans R h1 h2 h3 : grows R h1 h2 → grows R h2 h3 → grows R h1 h3.
Proof.
  intros [L1 G1] [L2 G2]. split; [congruence|].
  intros i l Hl. destruct (G1 i l Hl) as (l1 & H1 & F1).
  destruct (G2 i _ H1) as (l2 & H2 & F2).
  exists (l1 ++ l2). rewrite app_assoc. split; [done|].
  by apply Forall_app.
Qed.

Lemma grows_mono (R R' : Z → Prop) h h' :
  (∀ x, R x → R' x) → grows R h h' → grows R' h h'.
Proof.
  intros HR [L G]. split; [done|]. intros i l Hl.
  destruct (G i l Hl) as (l' & H1 & F1). exists l'. split; [done|].
  eapply Forall_impl; eauto.
Qed.

Lemma push_back_Ok i v h h' :
  push_back i v h = Ok h' →
  (0 ≤ i < Z.of_nat (length h))%Z ∧ h' = alter (λ l, l ++ [v]) (Z.to_nat i) h.
Proof.
  unfold push_back. case_bool_decide as Hr; intros Heq; inversion Heq; auto.
Qed.

Lemma push_back_grows (R : Z → Prop) i v h h' :
  R v → push_back i v h = Ok h' → grows R h h'.
Proof.
  intros Hv H. apply push_back_Ok in H as [Hi ->]. split.
  - by rewrite length_alter.
  - intros j l Hl. destruct (decide (Z.to_nat i = j)) as [<-|Hne].
    + exists [v]. rewrite list_lookup_alter_eq, Hl. simpl.
      split; [done|]. by constructor.
    + exists []. rewrite list_lookup_alter_ne by done.
      rewrite app_nil_r. by split.
Qed.

Lemma at_elem_of (v : list Z) (i : nat) : i < length v → at_ v i ∈ v.
Proof.
  intros Hi. unfold at_. apply list_elem_of_lookup. exists i.
  destruct (nth_lookup_or_length v i 0%Z); [done|lia].
Qed.

Lemma pair_leaf_grows indices h h' :
  length indices = 2 → pair_leaf indices h = Ok h' →
  grows (λ x, x ∈ indices) h h'.
Proof.
  intros HI H. unfold pair_leaf in H. apply bind_Ok in H as (h1 & H1 & H2).
  eapply grows_trans; eapply push_back_grows; eauto;
    apply at_elem_of; lia.
Qed.

Lemma co_leaf_grows indices h h' :
  co_leaf indices h = Ok h' → grows (λ x, x ∈ indices) h h'.
Proof.
  unfold co_leaf. intros H.
  eapply (for_each_inv (grows (λ x, x ∈ indices) h)); [|apply grows_refl|exact H].
  intros i a b Hi Ha Hb.
  eapply (for_each_inv (grows (λ x, x ∈ indices) h)); [|exact Ha|exact Hb].
  intros j a' b' Hj Ha' Hb'. simpl in Hb'.
  destruct (i =? j); [by inversion Hb'; subst|].
  eapply grows_trans; [exact Ha'|]. eapply push_back_grows; [|exact Hb'].
  apply at_elem_of. apply elem_of_seq in Hj. lia.
Qed.

(** ** Sub-vectors handed to the recursive calls *)

Lemma find_from_bound pos p v x :
  x ∈ find_from pos p v → pos ≤ x < pos + length v.
Proof.
  revert pos. induction v as [|y v IH]; intros pos; simpl.
  - by intros ?%elem_of_nil.
  - destruct (p y); [rewrite elem_of_cons; intros [->|H]|intros H];
      try apply IH in H; lia.
Qed.

Lemma elem_find_subseteq (f : Z → Q) p indices x :
  x ∈ elem indices (find p (map f indices)) → x ∈ indices.
Proof.
  unfold elem, find. intros (i & -> & Hi)%list_elem_of_fmap.
  apply find_from_bound in Hi. rewrite length_map in Hi.
  apply at_elem_of. lia.
Qed.

Lemma subvec_subseteq indices first last x :
  x ∈ subvec indices first last → x ∈ indices.
Proof.
  unfold subvec. intros H.
  apply (subseteq_drop first indices), (subseteq_take _ _ _ H).
Qed.

(** ** [searchTree] appends members of its index vector and keeps the flag *)

Lemma leaf_node_Ok interrupt indices s s' :
  leaf_node interrupt indices s = Ok s' →
  co_leaf indices (heap s) = Ok (heap s') ∧
  progress s' = (increment interrupt (length indices) (progress s)).2.
Proof.
  unfold leaf_node. intros H. apply bind_Ok in H as (h & H1 & H2).
  by inversion H2; subst.
Qed.

Lemma searchTree_grows interrupt project mid threshold iterations :
  ∀ indices t path s s',
    searchTree interrupt project mid threshold indices iterations t path s = Ok s' →
    grows (λ x, x ∈ indices) (heap s) (heap s') ∧
    (aborted (progress s) = true → aborted (progress s') = true).
Proof.
  induction iterations as [|it IH]; intros indices t path s s' H; simpl in H;
    destruct (check_abort interrupt (progress s)) as [ab p] eqn:Hc;
    pose proof (check_abort_flag _ _ _ _ Hc) as Hf;
    assert (Hst : aborted (progress s) = true → ab = true)
      by (intros Ha; rewrite check_abort_sticky in Hc by done; congruence);
    (destruct ab; [inversion H; subst; simpl; split; [apply grows_refl|done]|]);
    (split; [|intros Ha; apply Hst in Ha; discriminate]);
    (destruct (length indices <? 2) eqn:E2; [discriminate|]);
    (destruct (length indices =? 2) eqn:E3;
     [apply bind_Ok in H as (h & H1 & H2); inversion H2; subst; simpl;
      apply Nat.eqb_eq in E3; by eapply pair_leaf_grows|]).
  - apply leaf_node_Ok in H as [H1 _]. by apply co_leaf_grows.
  - destruct (length indices <? threshold).
    { apply leaf_node_Ok in H as [H1 _]. by apply co_leaf_grows. }
    match type of H with
    | (if ?c then _ else _) = _ => destruct c
    end; apply bind_Ok in H as (s1 & H1 & H2);
      apply IH in H1 as [G1 _]; apply IH in H2 as [G2 _]; simpl in G1;
      (eapply grows_trans;
       [eapply grows_mono; [|exact G1]|eapply grows_mono; [|exact G2]]);
      simpl; intros x Hx;
      eauto using elem_find_subseteq, subvec_subseteq.
Qed.

(** ** Sorting and removing repetitions *)

Lemma elem_of_sort_int x l : x ∈ sort_int l ↔ x ∈ l.
Proof. unfold sort_int. by rewrite merge_sort_Permutation. Qed.

Lemma unique_cons_cons x y l :
  unique (x :: y :: l) = if (x =? y)%Z then unique (y :: l) else x :: unique (y :: l).
Proof. done. Qed.

Lemma elem_of_unique x l : x ∈ unique l ↔ x ∈ l.
Proof.
  induction l as [|a [|b l] IH]; [done|done|].
  rewrite unique_cons_cons. destruct (a =? b)%Z eqn:E.
  - apply Z.eqb_eq in E as ->. rewrite IH, !elem_of_cons. tauto.
  - rewrite (elem_of_cons (unique _)), IH, !elem_of_cons. tauto.
Qed.

Lemma unique_sorted l : StronglySorted Z.le l → StronglySorted Z.lt (unique l).
Proof.
  induction l as [|a [|b l] IH]; intros Hs.
  - constructor.
  - simpl. repeat constructor.
  - rewrite unique_cons_cons. apply StronglySorted_inv in Hs as [Hs Ha].
    destruct (a =? b)%Z eqn:E; [by apply IH|].
    apply Z.eqb_neq in E. constructor; [by apply IH|].
    apply Forall_forall. intros x Hx. rewrite elem_of_unique in Hx.
    apply StronglySorted_inv in Hs as [_ Hb].
    rewrite Forall_forall in Ha, Hb.
    pose proof (Ha b (list_elem_of_here _ _)).
    apply elem_of_cons in Hx as [->|Hx]; [lia|].
    specialize (Hb x Hx). lia.
Qed.

Lemma unique_sort_sorted l : StronglySorted Z.lt (unique (sort_int l)).
Proof. apply unique_sorted. unfold sort_int. apply StronglySorted_merge_sort; apply _. Qed.

(** Sorting and uniquing a pool that is already strictly ascending changes
    nothing. *)
Lemma unique_id l : StronglySorted Z.lt l → unique l = l.
Proof.
  induction l as [|a [|b l] IH]; intros Hs; [done|done|].
  rewrite unique_cons_cons. apply StronglySorted_inv in Hs as [Hs Ha].
  rewrite Forall_forall in Ha. pose proof (Ha b (list_elem_of_here _ _)).
  destruct (a =? b)%Z eqn:E; [apply Z.eqb_eq in E; lia|].
  by rewrite IH.
Qed.

(** ** The normalization pass *)

Lemma normalize_Ok h h' :
  normalize h = Ok h' →
  h' = map (λ l, unique (sort_int l)) h ∧ Forall (λ l, 3 ≤ length l) h'.
Proof.
  revert h'. induction h as [|l h IH]; intros h' H; simpl in H.
  - inversion H; subst. by split.
  - destruct (length (unique (sort_int l)) <? 3) eqn:E; [discriminate|].
    apply bind_Ok in H as (h2 & H1 & H2). inversion H2; subst.
    destruct (IH _ H1) as [-> HF]. split; [done|].
    constructor; [|done]. apply Nat.ltb_ge in E. lia.
Qed.


(** ** Pools through the forest *)

Lemma regspace_in_range N x : N ≠ 0 → x ∈ regspace N → in_range N x.
Proof.
  intros HN. unfold regspace. destruct N as [|N']; [done|].
  intros (i & -> & Hi)%list_elem_of_fmap. apply elem_of_seq in Hi.
  unfold in_range. lia.
Qed.

Lemma seeds_pools_ok N : pools_ok N (map (λ i, [Z.of_nat i]) (seq 0 N)).
Proof.
  split; [by rewrite length_map, length_seq|].
  intros i l Hl. change (((λ i, [Z.of_nat i]) <$> seq 0 N) !! i = Some l) in Hl.
  rewrite list_lookup_fmap in Hl.
  destruct (seq 0 N !! i) as [j|] eqn:Hj; [|done].
  apply lookup_seq in Hj as [-> Hi]. inversion Hl; subst. simpl. split.
  - apply list_elem_of_here.
  - repeat constructor; lia.
Qed.

Lemma grows_pools_ok N (R : Z → Prop) h h' :
  (N ≠ 0 → ∀ x, R x → in_range N x) →
  pools_ok N h → grows R h h' → pools_ok N h'.
Proof.
  intros HR [HL HP] [GL G]. split; [congruence|].
  intros i l' Hl'.
  assert (Hi : i < length h) by (rewrite <- GL; by eapply lookup_lt_Some).
  destruct (lookup_lt_is_Some_2 h i Hi) as [l Hl].
  destruct (G i l Hl) as (a & Ha & Fa). rewrite Hl' in Ha. inversion Ha; subst.
  destruct (HP i l Hl) as [Hin Hr]. split.
  - apply elem_of_app. by left.
  - apply Forall_app. split; [done|].
    eapply Forall_impl; [exact Fa|]. apply HR. lia.
Qed.

Lemma normalize_pools_ok N h h' :
  pools_ok N h → normalize h = Ok h' →
  pools_ok N h' ∧ ∀ i l, h' !! i = Some l → normalized i l.
Proof.
  intros [HL HP] H. apply normalize_Ok in H as [-> HF].
  assert (Hk : ∀ i l', map (λ l, unique (sort_int l)) h !! i = Some l' →
            ∃ l, h !! i = Some l ∧ l' = unique (sort_int l)).
  { intros i l' Hl'.
    change (((λ l, unique (sort_int l)) <$> h) !! i = Some l') in Hl'.
    rewrite list_lookup_fmap in Hl'. destruct (h !! i) as [l|]; [|done].
    inversion Hl'. eauto. }
  split; [split|].
  - by rewrite length_map.
  - intros i l' Hl'. destruct (Hk i l' Hl') as (l & Hl & ->).
    destruct (HP i l Hl) as [Hin Hr]. split.
    + by rewrite elem_of_unique, elem_of_sort_int.
    + apply Forall_forall. intros x Hx.
      rewrite elem_of_unique, elem_of_sort_int in Hx.
      rewrite Forall_forall in Hr. auto.
  - intros i l' Hl'. destruct (Hk i l' Hl') as (l & Hl & ->).
    destruct (HP i l Hl) as [Hin Hr]. split; [apply unique_sort_sorted|]. split.
    + by rewrite elem_of_unique, elem_of_sort_int.
    + rewrite Forall_lookup in HF. eapply HF, Hl'.
Qed.

Lemma searchTree_pools_ok interrupt project mid threshold iterations N t s s' :
  pools_ok N (heap s) →
  searchTree interrupt project mid threshold (regspace N) iterations t [] s = Ok s' →
  pools_ok N (heap s').
Proof.
  intros HP H. apply searchTree_grows in H as [G _].
  eapply grows_pools_ok; [|exact HP|exact G].
  intros HN x. by apply regspace_in_range.
Qed.

Lemma grow_tree_pools_ok interrupt project mid threshold depth N t s s' :
  pools_ok N (heap s) →
  grow_tree interrupt project mid threshold depth N t s = Ok s' →
  pools_ok N (heap s').
Proof.
  intros HP H. unfold grow_tree in H.
  destruct (check_abort interrupt (progress s)) as [[] p] eqn:Hc.
  { by inversion H; subst. }
  apply bind_Ok in H as (s1 & H1 & H2).
  apply searchTree_pools_ok in H1; [|done].
  destruct (0 <? t); [|by inversion H2; subst].
  destruct (check_abort interrupt (progress s1)) as [[] p1] eqn:Hc1.
  { by inversion H2; subst. }
  apply bind_Ok in H2 as (h & H2 & H3). inversion H3; subst. simpl.
  by apply (normalize_pools_ok N) in H2 as [? _].
Qed.


Lemma forest_pools_ok interrupt project mid threshold n_trees depth N s :
  forest interrupt project mid threshold n_trees depth N = Ok s →
  pools_ok N (heap s).
Proof.
  unfold forest. intros H.
  eapply (for_each_inv (λ s, pools_ok N (heap s))); [| |exact H].
  - intros t a b _ Ha Hb. by eapply grow_tree_pools_ok.
  - apply seeds_pools_ok.
Qed.


(** ** The forest under any schedule *)


(** The trees one after the other are one of the schedules. *)
Lemma interleaving_concat {A} (ls : list (list A)) :
  interleaving ls (concat ls).
Proof.
  assert (G : ∀ (rest : list (list A)) k,
            interleaving (replicate k [] ++ rest) (concat rest)).
  { induction rest as [|l rest IH]; intros k.
    - simpl. rewrite app_nil_r. constructor. by apply Forall_replicate.
    - induction l as [|x l IHl].
      + simpl. specialize (IH (S k)).
        by rewrite replicate_S_end, <- app_assoc in IH.
      + simpl. apply (interleaving_step _ k x l).
        * apply list_lookup_middle. by rewrite length_replicate.
        * rewrite insert_app_r_alt by (rewrite length_replicate; lia).
          rewrite length_replicate, Nat.sub_diag. exact IHl. }
  apply (G ls 0).
Qed.






(** With two trees, the leaf of tree 0 entered after the pass of tree 1 is
    a schedule too, and it leaves pool 0 as [0, 1, 2, 1, 2]. *)
Lemma forest_tree_zero_last project mid :
  interleaving (map (tree_events project mid 4 1 3) (seq 0 2))
    [Leaf [0; 1; 2]%Z; Pass; Leaf [0; 1; 2]%Z] ∧
  run_events [Leaf [0; 1; 2]%Z; Pass; Leaf [0; 1; 2]%Z]
    (map (λ i, [Z.of_nat i]) (seq 0 3))
  = Ok [[0; 1; 2; 1; 2]; [0; 1; 2; 0; 2]; [0; 1; 2; 0; 1]]%Z ∧
  ¬ StronglySorted Z.lt [0; 1; 2; 1; 2]%Z.
Proof.
  split; [|split].
  - apply (interleaving_step _ 1 (Leaf [0; 1; 2]%Z) [Pass]); [reflexivity|].
    apply (interleaving_step _ 1 Pass []); [reflexivity|].
    apply (interleaving_step _ 0 (Leaf [0; 1; 2]%Z) []); [reflexivity|].
    apply interleaving_done. repeat constructor.
  - vm_compute. reflexivity.
  - intros H. apply StronglySorted_inv in H as [H _].
    apply StronglySorted_inv in H as [H _].
    apply StronglySorted_inv in H as [_ H].
    apply Forall_inv in H. lia.
Qed.

(** *** The trees in index order are the schedule that takes them whole *)

Lemma check_abort_quiet interrupt p :
  quiet interrupt → aborted p = false →
  check_abort interrupt p
  = (false, mkProgress (current p) false (S (polls p))).
Proof. intros Hq Ha. unfold check_abort. by rewrite Ha, Hq. Qed.

Lemma searchTree_run interrupt project mid threshold iterations :
  quiet interrupt →
  ∀ indices t path s,
    aborted (progress s) = false →
    match run_events (leaves project mid threshold indices iterations t path)
            (heap s) with
    | Ok h =>
        ∃ p, searchTree interrupt project mid threshold indices iterations
               t path s = Ok (mkState h p) ∧ aborted p = false
    | Stop msg =>
        searchTree interrupt project mid threshold indices iterations
          t path s = Stop msg
    | Undefined =>
        searchTree interrupt project mid threshold indices iterations
          t path s = Undefined
    end.
Proof.
  intros Hq. unfold run_events.
  assert (Hleaf : ∀ indices p h,
    aborted p = false →
    match for_each [Leaf indices] apply_event h with
    | Ok h' => ∃ p', leaf_node interrupt indices (mkState h p)
                     = Ok (mkState h' p') ∧ aborted p' = false
    | Stop msg => leaf_node interrupt indices (mkState h p) = Stop msg
    | Undefined => leaf_node interrupt indices (mkState h p) = Undefined
    end).
  { intros indices p h Hp. cbn [for_each apply_event]. unfold leaf_node.
    cbn [heap progress]. destruct (co_leaf indices h); cbn [mbind result_bind];
      [|done|done].
    eexists. split; [done|]. by rewrite increment_quiet. }
  induction iterations as [|it IH]; intros indices t path s Ha;
    cbn [searchTree leaves]; rewrite (check_abort_quiet _ _ Hq Ha);
    set (p1 := mkProgress (current (progress s)) false (S (polls (progress s))));
    (destruct (length indices <? 2); [done|]);
    (destruct (length indices =? 2);
     [cbn [for_each apply_event];
      destruct (pair_leaf indices (heap s)); cbn [mbind result_bind];
      [by exists p1|done|done]|]).
  - by apply Hleaf.
  - destruct (length indices <? threshold); [by apply Hleaf|].
    assert (Hsub : ∀ A B pa pb,
      match for_each (leaves project mid threshold A it t pa
                      ++ leaves project mid threshold B it t pb)
              apply_event (heap s) with
      | Ok h =>
          ∃ p, (searchTree interrupt project mid threshold A it t pa
                  (mkState (heap s) p1)
                ≫= searchTree interrupt project mid threshold B it t pb)
               = Ok (mkState h p) ∧ aborted p = false
      | Stop msg =>
          (searchTree interrupt project mid threshold A it t pa
             (mkState (heap s) p1)
           ≫= searchTree interrupt project mid threshold B it t pb)
          = Stop msg
      | Undefined =>
          (searchTree interrupt project mid threshold A it t pa
             (mkState (heap s) p1)
           ≫= searchTree interrupt project mid threshold B it t pb)
          = Undefined
      end).
    { intros A B pa pb. rewrite for_each_app.
      pose proof (IH A t pa (mkState (heap s) p1) eq_refl) as HA.
      cbn [heap] in HA.
      destruct (for_each (leaves project mid threshold A it t pa)
                  apply_event (heap s)) as [h1| |]; cbn [mbind result_bind].
      - destruct HA as (pA & -> & HpA). cbn [mbind result_bind].
        exact (IH B t pb (mkState h1 pA) HpA).
      - by rewrite HA.
      - by rewrite HA. }
    match goal with
    | |- context [if ?c then _ else _] => destruct c
    end; apply Hsub.
Qed.

Lemma grow_tree_run interrupt project mid threshold depth N t s :
  quiet interrupt → aborted (progress s) = false →
  match run_events (tree_events project mid threshold depth N t) (heap s) with
  | Ok h =>
      ∃ p, grow_tree interrupt project mid threshold depth N t s
           = Ok (mkState h p) ∧ aborted p = false
  | Stop msg =>
      grow_tree interrupt project mid threshold depth N t s = Stop msg
  | Undefined =>
      grow_tree interrupt project mid threshold depth N t s = Undefined
  end.
Proof.
  intros Hq Ha. unfold run_events, tree_events, grow_tree.
  rewrite for_each_app, (check_abort_quiet _ _ Hq Ha).
  set (p1 := mkProgress (current (progress s)) false (S (polls (progress s)))).
  pose proof (searchTree_run interrupt project mid threshold depth Hq
                (regspace N) t [] (mkState (heap s) p1) eq_refl) as HT.
  unfold run_events in HT. cbn [heap] in HT.
  destruct (for_each (leaves project mid threshold (regspace N) depth t [])
              apply_event (heap s)) as [h1| |]; cbn [mbind result_bind].
  - destruct HT as (pT & -> & HpT). cbn [mbind result_bind].
    destruct (0 <? t).
    + cbn [for_each apply_event heap progress].
      rewrite (check_abort_quiet _ _ Hq HpT).
      destruct (normalize h1); cbn [mbind result_bind]; [|done|done].
      eexists. by split.
    + cbn [for_each]. by exists pT.
  - by rewrite HT.
  - by rewrite HT.
Qed.

Lemma forest_loop_run interrupt project mid threshold depth N ts :
  quiet interrupt →
  ∀ s, aborted (progress s) = false →
    match run_events
            (concat (map (tree_events project mid threshold depth N) ts))
            (heap s) with
    | Ok h =>
        ∃ p, for_each ts (grow_tree interrupt project mid threshold depth N) s
             = Ok (mkState h p) ∧ aborted p = false
    | Stop msg =>
        for_each ts (grow_tree interrupt project mid threshold depth N) s
        = Stop msg
    | Undefined =>
        for_each ts (grow_tree interrupt project mid threshold depth N) s
        = Undefined
    end.
Proof.
  intros Hq. induction ts as [|t ts IH]; intros s Ha.
  - cbn. exists (progress s). by destruct s.
  - cbn [map concat for_each]. unfold run_events in *. rewrite for_each_app.
    pose proof (grow_tree_run interrupt project mid threshold depth N t s
                  Hq Ha) as HT.
    unfold run_events in HT.
    destruct (for_each (tree_events project mid threshold depth N t)
                apply_event (heap s)) as [h1| |]; cbn [mbind result_bind].
    + destruct HT as (pT & -> & HpT). cbn [mbind result_bind].
      exact (IH (mkState h1 pT) HpT).
    + by rewrite HT.
    + by rewrite HT.
Qed.

(** With a caller that never raises the flag, the forest of the one-thread
    embedding is the schedule that takes the trees whole, in index order. *)
Lemma forest_run interrupt project mid threshold n_trees depth N :
  quiet interrupt →
  interleaving
    (map (tree_events project mid threshold depth N) (seq 0 n_trees))
    (concat (map (tree_events project mid threshold depth N)
               (seq 0 n_trees))) ∧
  match run_events
          (concat (map (tree_events project mid threshold depth N)
                     (seq 0 n_trees)))
          (map (λ i, [Z.of_nat i]) (seq 0 N)) with
  | Ok h =>
      ∃ p, forest interrupt project mid threshold n_trees depth N
           = Ok (mkState h p) ∧ aborted p = false
  | Stop msg =>
      forest interrupt project mid threshold n_trees depth N = Stop msg
  | Undefined =>
      forest interrupt project mid threshold n_trees depth N = Undefined
  end.
Proof.
  intros Hq. split; [apply interleaving_concat|].
  apply (forest_loop_run interrupt project mid threshold depth N
           (seq 0 n_trees) Hq
           (mkState (map (λ i, [Z.of_nat i]) (seq 0 N))
              (mkProgress 0 false 0)) eq_refl).
Qed.


(** ** The leaves *)

Lemma at_lookup (v : list Z) (i : nat) : i < length v → v !! i = Some (at_ v i).
Proof.
  intros Hi. unfold at_. destruct (nth_lookup_or_length v i 0%Z); [done|lia].
Qed.

Lemma map_at_seq (v : list Z) (a m : nat) :
  a + m ≤ length v → map (at_ v) (seq a m) = take m (drop a v).
Proof.
  revert a. induction m as [|m IH]; intros a Hm; [done|].
  change (seq a (S m)) with (a :: seq (S a) m). cbn [map].
  rewrite IH by lia.
  rewrite (drop_S v (at_ v a) a) by (apply at_lookup; lia). done.
Qed.

Lemma push_back_in_range i v h :
  in_range (length h) i →
  push_back i v h = Ok (alter (λ l, l ++ [v]) (Z.to_nat i) h).
Proof. intros Hr. unfold push_back. by rewrite bool_decide_eq_true_2. Qed.

(** The inner loop at a row [i] over positions that all differ from [i]. *)
Lemma push_loop indices i js h :
  (∀ j, j ∈ js → i ≠ j) →
  in_range (length h) (at_ indices i) →
  for_each js (λ j h',
      if i =? j then Ok h'
      else push_back (at_ indices i) (at_ indices j) h') h
  = Ok (alter (λ l, l ++ map (at_ indices) js) (Z.to_nat (at_ indices i)) h).
Proof.
  revert h. induction js as [|j js IH]; intros h Hne Hr.
  - simpl. f_equal. symmetry. apply list_alter_id. intros l. apply app_nil_r.
  - cbn [for_each]. destruct (i =? j) eqn:E.
    { apply Nat.eqb_eq in E. destruct (Hne j); [apply list_elem_of_here|done]. }
    rewrite push_back_in_range by exact Hr. cbn [mbind result_bind].
    rewrite IH.
    + f_equal. rewrite list_alter_alter_eq. apply list_alter_ext; [|done].
      intros l _ . simpl. by rewrite <- app_assoc.
    + intros j' Hj'. apply Hne. by apply list_elem_of_further.
    + unfold in_range. rewrite length_alter. exact Hr.
Qed.

Lemma leaf_row indices i h :
  i < length indices →
  in_range (length h) (at_ indices i) →
  for_each (seq 0 (length indices)) (λ j h',
      if i =? j then Ok h'
      else push_back (at_ indices i) (at_ indices j) h') h
  = Ok (alter (λ l, l ++ delete i indices) (Z.to_nat (at_ indices i)) h).
Proof.
  intros Hi Hr.
  assert (Hs : seq 0 (length indices)
               = seq 0 i ++ [i] ++ seq (S i) (length indices - S i)).
  { replace (length indices) with (i + (1 + (length indices - S i))) at 1 by lia.
    rewrite seq_app. done. }
  rewrite Hs, !for_each_app.
  rewrite push_loop; [|intros j Hj%elem_of_seq; lia|done]. simpl.
  rewrite Nat.eqb_refl. simpl.
  rewrite push_loop;
    [|intros j Hj%elem_of_seq; lia|unfold in_range; by rewrite length_alter].
  f_equal. rewrite list_alter_alter_eq. apply list_alter_ext; [|done].
  intros l _. simpl. rewrite <- app_assoc. f_equal.
  rewrite !map_at_seq by lia. rewrite drop_0, delete_take_drop.
  f_equal. apply take_ge. rewrite length_drop. lia.
Qed.

Lemma co_leaf_spec indices h :
  Forall (in_range (length h)) indices → NoDup indices →
  ∃ h', co_leaf indices h = Ok h' ∧ length h' = length h ∧
    (∀ k, k < length indices →
       h' !! Z.to_nat (at_ indices k)
       = (λ l, l ++ delete k indices) <$> h !! Z.to_nat (at_ indices k)) ∧
    (∀ x, Z.of_nat x ∉ indices → h' !! x = h !! x).
Proof.
  intros Hr Hnd. unfold co_leaf.
  set (body := λ i : nat, for_each (seq 0 (length indices)) _).
  assert (Hat : ∀ k, k < length indices → in_range (length h) (at_ indices k)).
  { intros k Hk. rewrite Forall_forall in Hr. by apply Hr, at_elem_of. }
  assert (Hinj : ∀ j k, j < length indices → k < length indices →
            Z.to_nat (at_ indices j) = Z.to_nat (at_ indices k) → j = k).
  { intros j k Hj Hk E. pose proof (Hat j Hj) as [? _].
    pose proof (Hat k Hk) as [? _].
    eapply (NoDup_lookup indices j k (at_ indices j)); [done|by apply at_lookup|].
    rewrite at_lookup by done. f_equal. lia. }
  assert (G : ∀ m, m ≤ length indices →
    ∃ h', for_each (seq 0 m) body h = Ok h' ∧ length h' = length h ∧
      (∀ k, k < m →
         h' !! Z.to_nat (at_ indices k)
         = (λ l, l ++ delete k indices) <$> h !! Z.to_nat (at_ indices k)) ∧
      (∀ x, (∀ k, k < m → x ≠ Z.to_nat (at_ indices k)) → h' !! x = h !! x)).
  { induction m as [|m IH]; intros Hm.
    - exists h. split; [done|]. split; [done|]. split; [intros; lia|done].
    - destruct IH as (h1 & H1 & L1 & A1 & B1); [lia|].
      rewrite seq_S, for_each_app, H1. simpl. unfold body at 1.
      rewrite leaf_row; [|lia|rewrite L1; apply Hat; lia]. simpl.
      eexists. split; [done|]. split; [by rewrite length_alter|]. split.
      + intros k Hk. destruct (decide (k = m)) as [->|Hne].
        * rewrite list_lookup_alter_eq.
          rewrite B1; [done|]. intros k Hk' E. apply Hinj in E; lia.
        * rewrite list_lookup_alter_ne; [apply A1; lia|].
          intros E. apply Hinj in E; lia.
      + intros x Hx. rewrite list_lookup_alter_ne; [apply B1; intros; apply Hx; lia|].
        intros E. by apply (Hx m); [lia|]. }
  destruct (G (length indices)) as (h' & H1 & L1 & A1 & B1); [done|].
  exists h'. repeat split; [done|done|done|].
  intros x Hx. apply B1. intros k Hk ->. apply Hx.
  destruct (Hat k Hk) as [? _]. rewrite Z2Nat.id by done. by apply at_elem_of.
Qed.

(** C7: the base cases of [searchTree], in the order of the source.  After
    the abort check (which leaves the pools alone when it fires), fewer than
    two indices stop with "Tree split failure."; exactly two indices make
    each point record the other; and fewer than [threshold] indices, or no
    recursion budget, append to the pool of every member of the index vector
    all the other members (in their order), and report as many progress
    units as there are indices. *)
Theorem searchTree_base_cases interrupt project mid threshold indices iterations
    t path s :
  let ab := (check_abort interrupt (progress s)).1 in
  let p := (check_abort interrupt (progress s)).2 in
  let run := searchTree interrupt project mid threshold indices iterations t path s in
  (ab = true → run = Ok (mkState (heap s) p)) ∧
  (ab = false → length indices < 2 → run = Stop "Tree split failure.") ∧
  (ab = false → ∀ a b, indices = [a; b] →
     in_range (length (heap s)) a → in_range (length (heap s)) b →
     run = Ok (mkState
                 (alter (λ l, l ++ [a]) (Z.to_nat b)
                    (alter (λ l, l ++ [b]) (Z.to_nat a) (heap s))) p)) ∧
  (ab = false → 2 < length indices →
     length indices < threshold ∨ iterations = 0 →
     Forall (in_range (length (heap s))) indices → NoDup indices →
     ∃ h', run = Ok (mkState h' (increment interrupt (length indices) p).2) ∧
       (interrupt (polls p) = false →
        current (increment interrupt (length indices) p).2
        = current p + length indices) ∧
       length h' = length (heap s) ∧
       (∀ k, k < length indices →
          h' !! Z.to_nat (at_ indices k)
          = (λ l, l ++ delete k indices) <$> heap s !! Z.to_nat (at_ indices k)) ∧
       (∀ x, Z.of_nat x ∉ indices → h' !! x = heap s !! x)).
Proof.
  intros ab p run. subst ab p run.
  destruct (check_abort interrupt (progress s)) as [ab p] eqn:Hc.
  pose proof (check_abort_flag _ _ _ _ Hc) as Hf. simpl.
  split; [|split; [|split]].
  - intros ->. destruct iterations; simpl; by rewrite Hc.
  - intros -> HI. apply Nat.ltb_lt in HI.
    destruct iterations; simpl; by rewrite Hc, HI.
  - intros -> a b -> Ha Hb.
    assert (E : pair_leaf [a; b] (heap s)
                = Ok (alter (λ l, l ++ [a]) (Z.to_nat b)
                        (alter (λ l, l ++ [b]) (Z.to_nat a) (heap s)))).
    { unfold pair_leaf. change (at_ [a; b] 0) with a. change (at_ [a; b] 1) with b.
      rewrite push_back_in_range by done. cbn [mbind result_bind].
      rewrite push_back_in_range; [done|].
      unfold in_range. by rewrite length_alter. }
    destruct iterations; simpl; rewrite Hc; simpl; by rewrite E.
  - intros -> HI Hleaf Hr Hnd.
    destruct (co_leaf_spec indices (heap s) Hr Hnd) as (h' & H1 & L1 & A1 & B1).
    exists h'. split; [|split; [|done]].
    2:{ intros Hq. by rewrite increment_quiet. }
    assert (E2 : (length indices <? 2) = false) by (apply Nat.ltb_ge; lia).
    assert (E3 : (length indices =? 2) = false) by (apply Nat.eqb_neq; lia).
    assert (EL : leaf_node interrupt indices (mkState (heap s) p)
                 = Ok (mkState h' (increment interrupt (length indices) p).2)).
    { unfold leaf_node. simpl. by rewrite H1. }
    destruct iterations as [|it]; simpl; rewrite Hc, E2, E3; [done|].
    destruct Hleaf as [Hlt|]; [|done].
    apply Nat.ltb_lt in Hlt. by rewrite Hlt.
Qed.

Lemma searchTree_base_cases_witness :
  ∃ h', searchTree no_interrupt flat mean 4 [2; 0; 1]%Z 3 0 []
          (mkState [[0]; [1]; [2]]%Z (mkProgress 0 false 0))
        = Ok (mkState h' (mkProgress 3 false 2)) ∧
    (no_interrupt 1 = false → 3 = 0 + 3) ∧
    length h' = 3 ∧
    (∀ k, k < 3 →
       h' !! Z.to_nat (at_ [2; 0; 1]%Z k)
       = (λ l, l ++ delete k [2; 0; 1]%Z)
           <$> [[0]; [1]; [2]]%Z !! Z.to_nat (at_ [2; 0; 1]%Z k)) ∧
    (∀ x, Z.of_nat x ∉ [2; 0; 1]%Z → h' !! x = [[0]; [1]; [2]]%Z !! x).
Proof.
  apply (searchTree_base_cases no_interrupt flat mean 4 [2; 0; 1]%Z 3 0 []
           (mkState [[0]; [1]; [2]]%Z (mkProgress 0 false 0))).
  - reflexivity.
  - simpl. lia.
  - left. simpl. lia.
  - repeat constructor; unfold in_range; simpl; lia.
  - apply (bool_decide_unpack _). vm_compute. reflexivity.
Defined.

(** ** The hyperplane split *)

Lemma Qltb_lt x y : Qltb x y = true ↔ (x < y)%Q.
Proof.
  unfold Qltb. rewrite negb_true_iff. split.
  - intros H. apply Qnot_le_lt. intros Hle. apply Qle_bool_iff in Hle. congruence.
  - intros H. destruct (Qle_bool y x) eqn:E; [|done].
    apply Qle_bool_iff in E. by apply Qlt_not_le in H.
Qed.

Lemma elem_find_from (f : Z → Q) p pre l :
  map (at_ (pre ++ l)) (find_from (length pre) p (map f l))
  = List.filter (λ x, p (f x)) l.
Proof.
  revert pre. induction l as [|x l IH]; intros pre; simpl; [done|].
  specialize (IH (pre ++ [x])). rewrite <- app_assoc, length_app in IH.
  simpl in IH. rewrite Nat.add_1_r in IH.
  destruct (p (f x)); simpl; rewrite IH; [|done].
  f_equal. unfold at_. by rewrite app_nth2, Nat.sub_diag by lia.
Qed.

Lemma elem_find (f : Z → Q) p indices :
  elem indices (find p (map f indices)) = List.filter (λ x, p (f x)) indices.
Proof. apply (elem_find_from f p [] indices). Qed.

Lemma elem_of_filter_bool (p : Z → bool) x l :
  x ∈ List.filter p l ↔ x ∈ l ∧ p x = true.
Proof. rewrite !list_elem_of_In. apply filter_In. Qed.

(** ** The median *)















(** ** Queues, columns and matrices *)

Lemma pq_push_Forall (P : heapObject → Prop) x q :
  P x → Forall P q → Forall P (pq_push x q).
Proof.
  intros Hx. induction q as [|y q IH]; intros Hq; simpl.
  - by constructor.
  - apply Forall_cons in Hq as [Hy Hq].
    destruct (heapObject_lt y x); repeat constructor; auto.
Qed.

Lemma pq_pop_Forall (P : heapObject → Prop) q :
  Forall P q → Forall P (pq_pop q).
Proof. destruct q; simpl; [done|]. by intros [_ ?]%Forall_cons. Qed.

Lemma pq_bounded_Forall (P : heapObject → Prop) (bound : nat) x q :
  P x → Forall P q →
  Forall P (if bound <? pq_size (pq_push x q)
            then pq_pop (pq_push x q) else pq_push x q).
Proof.
  intros Hx Hq. destruct (bound <? _); [apply pq_pop_Forall|];
    by apply pq_push_Forall.
Qed.

Lemma write_Ok j v column column' :
  write j v column = Ok column' → j < length column ∧ column' = <[j:=v]> column.
Proof.
  unfold write. destruct (j <? length column) eqn:E; [|done].
  apply Nat.ltb_lt in E. intros H. by inversion H.
Qed.

Lemma col_Ok m j c :
  col m j = Ok c → (0 ≤ j)%Z ∧ cols m !! Z.to_nat j = Some c.
Proof.
  unfold col. case_bool_decide as Hj; [|done].
  destruct (cols m !! Z.to_nat j); [|done]. intros H. by inversion H.
Qed.

Lemma col_of_nat m (i : nat) c :
  col m (Z.of_nat i) = Ok c → cols m !! i = Some c.
Proof. intros [_ H]%col_Ok. by rewrite Nat2Z.id in H. Qed.

Lemma drain_do_spec (P : Z → Prop) bound q :
  ∀ j column j' column',
    drain_do bound q j column = Ok (j', column') →
    Forall (λ x, P (n x)) q → Forall P column →
    length column' = length column ∧ Forall P column'.
Proof.
  induction q as [|top q IH]; intros j column j' column' H Hq Hc; simpl in H;
    [done|].
  apply bind_Ok in H as (c1 & H1 & H2). apply write_Ok in H1 as [Hj ->].
  apply Forall_cons in Hq as [Ht Hq].
  assert (Forall P (<[j:=n top]> column)) by by apply Forall_insert.
  destruct ((S j <? bound) && negb (pq_empty q)).
  - apply IH in H2 as [L F]; [|done|done]. by rewrite length_insert in L.
  - inversion H2; subst. by rewrite length_insert.
Qed.

Lemma drain_while_spec (P : Z → Prop) bound q :
  ∀ j column j' column',
    drain_while bound q j column = Ok (j', column') →
    Forall (λ x, P (n x)) q → Forall P column →
    length column' = length column ∧ Forall P column'.
Proof.
  induction q as [|top q IH]; intros j column j' column' H Hq Hc; simpl in H.
  { by inversion H; subst. }
  destruct (j <? bound); [|by inversion H; subst].
  apply bind_Ok in H as (c1 & H1 & H2). apply write_Ok in H1 as [Hj ->].
  apply Forall_cons in Hq as [Ht Hq].
  apply IH in H2 as [L F]; [|done|by apply Forall_insert].
  by rewrite length_insert in L.
Qed.

Lemma filled_shape rows columns v : shape rows columns (filled rows columns v).
Proof.
  unfold shape, filled, n_cols. simpl. rewrite length_replicate.
  split; [done|]. split; [done|].
  apply Forall_replicate. apply length_replicate.
Qed.

Lemma filled_entries (P : nat → Z → Prop) rows columns v :
  (∀ i, P i v) → entries P (filled rows columns v).
Proof.
  intros HP i c Hc. simpl in Hc. apply lookup_replicate in Hc as [-> _].
  by apply Forall_replicate.
Qed.

Lemma set_col_shape rows columns m i c :
  shape rows columns m → length c = rows → shape rows columns (set_col m i c).
Proof.
  intros (Hr & Hc & Hl) Hlen. unfold shape, set_col, n_cols in *. simpl.
  rewrite length_insert. split; [done|]. split; [done|].
  by apply Forall_insert.
Qed.

Lemma set_col_entries (P : nat → Z → Prop) m i c :
  entries P m → Forall (P i) c → entries P (set_col m i c).
Proof.
  intros He Hc j c' Hj. unfold set_col in Hj. simpl in Hj.
  destruct (decide (i = j)) as [<-|Hne].
  - destruct (decide (i < length (cols m))) as [Hlt|Hge].
    + rewrite list_lookup_insert_eq in Hj by done. by inversion Hj; subst.
    + rewrite list_insert_ge in Hj by lia. by apply (He i).
  - rewrite list_lookup_insert_ne in Hj by done. by apply (He j).
Qed.

Lemma shape_col rows columns m i c :
  shape rows columns m → cols m !! i = Some c → length c = rows.
Proof.
  intros (_ & _ & Hl) Hc. rewrite Forall_lookup in Hl. by eapply Hl.
Qed.

(** ** The first matrix *)

Lemma nearest_Forall dist (P : Z → Prop) threshold i stack :
  Forall P stack → Forall (λ x, P (n x)) (nearest dist threshold i stack).
Proof.
  unfold nearest. intros Hs.
  assert (G : ∀ q : priority_queue, Forall (λ x, P (n x)) q →
    Forall (λ x, P (n x))
      (fold_left (λ maxHeap it,
         let maxHeap' := pq_push (mkHeapObject (dist i it) it) maxHeap in
         if threshold <? pq_size maxHeap' then pq_pop maxHeap' else maxHeap')
         stack q)).
  { induction Hs as [|x stack Hx Hs IH]; intros q Hq; simpl; [done|].
    apply IH. by apply pq_bounded_Forall. }
  apply G. constructor.
Qed.

Lemma reduce_column_inv interrupt dist threshold N (P : nat → Z → Prop) h i
    kp kp' :
  (∀ l, h !! i = Some l → Forall (P i) l) →
  reduce_column interrupt dist threshold h i kp = Ok kp' →
  shape threshold N kp.1 → entries P kp.1 →
  shape threshold N kp'.1 ∧ entries P kp'.1.
Proof.
  intros Hh H Hs He. destruct kp as [knns p]. unfold reduce_column in H.
  destruct (increment interrupt 1 p) as [live p'] eqn:Hi. simpl in *.
  destruct live; [|by inversion H; subst].
  destruct (h !! i) as [stack|] eqn:Hst; [|done].
  apply bind_Ok in H as (column & H1 & H2). apply col_of_nat in H1.
  apply bind_Ok in H2 as ([j column'] & H2 & H3).
  apply (drain_do_spec (P i)) in H2 as [L F];
    [|apply nearest_Forall; auto|by apply (He i)].
  destruct ((j =? 1) && (at_ column' 0 =? -1)%Z); [done|].
  inversion H3; subst; simpl. split.
  - apply set_col_shape; [done|]. rewrite L. by eapply shape_col.
  - by apply set_col_entries.
Qed.

Lemma reduce_inv interrupt dist threshold N h p knns p' :
  pools_ok N h →
  reduce interrupt dist threshold N h p = Ok (knns, p') →
  shape threshold N knns ∧ entries (index_or_none N) knns.
Proof.
  intros [HL HP] H. unfold reduce in H.
  apply (for_each_inv (λ kp, shape threshold N kp.1 ∧
           entries (index_or_none N) kp.1)) in H; [done| |].
  - intros i a b _ (Hs & He) Hb.
    eapply (reduce_column_inv _ _ _ N (index_or_none N)) in Hb;
      [done| |done|done].
    intros l Hl. destruct (HP i l Hl) as [_ Hr].
    eapply Forall_impl; [exact Hr|]. intros x Hx. by right.
  - simpl. split; [apply filled_shape|].
    apply filled_entries. intros i. by left.
Qed.

(** ** Neighbourhood exploration *)

Lemma entries_mono (P P' : nat → Z → Prop) m :
  (∀ i e, P i e → P' i e) → entries P m → entries P' m.
Proof.
  intros HP He i c Hc. eapply Forall_impl; [by apply (He i)|]. apply HP.
Qed.

Lemma explore_locality_inv dist stale N i K locality :
  Forall (λ e, e = (-1)%Z ∨ in_range N e) locality →
  ∀ hp pv hp' pv',
    explore_locality dist stale i K locality hp pv = Ok (hp', pv') →
    Forall (candidate dist N i) hp → Forall (candidate dist N i) hp'.
Proof.
  induction 1 as [|k rest Hk Hrest IH]; intros hp pv hp' pv' H Hhp; simpl in H.
  { by inversion H; subst. }
  destruct (k =? -1)%Z eqn:E1; [by inversion H; subst|].
  destruct (k =? i)%Z eqn:E2; [by eapply IH|].
  apply Z.eqb_neq in E1, E2. destruct Hk as [?|Hk]; [done|].
  destruct (equal_range pv k) as [first second].
  destruct (deref stale pv first =? k)%Z; [by eapply IH|].
  destruct (Qeq_bool (dist i k) 0) eqn:E3; [by eapply IH|].
  assert (Hc : candidate dist N i (mkHeapObject (dist i k) k)).
  { split; [done|]. split; [done|]. simpl. intros Hq.
    apply Qeq_bool_iff in Hq. congruence. }
  destruct (pq_size hp <? K).
  { eapply IH; [exact H|]. by apply pq_push_Forall. }
  destruct (pq_top hp) as [top|]; [|done].
  destruct (Qltb (dist i k) (d top)); [|by eapply IH].
  eapply IH; [exact H|]. by apply pq_bounded_Forall.
Qed.

Lemma explore_neighborhood_inv dist stale N old_knns i K neighborhood :
  entries (index_or_none N) old_knns →
  Forall (λ e, e = (-1)%Z ∨ in_range N e) neighborhood →
  ∀ hp pv hp' pv',
    explore_neighborhood dist stale old_knns i K neighborhood hp pv
      = Ok (hp', pv') →
    Forall (candidate dist N i) hp → Forall (candidate dist N i) hp'.
Proof.
  intros Hold. induction 1 as [|j rest Hj Hrest IH];
    intros hp pv hp' pv' H Hhp; simpl in H.
  { by inversion H; subst. }
  destruct (j =? -1)%Z eqn:E1; [by inversion H; subst|].
  destruct (j =? i)%Z eqn:E2; [by eapply IH|].
  apply Z.eqb_neq in E1, E2. destruct Hj as [?|Hj]; [done|].
  destruct (Qeq_bool (dist i j) 0) eqn:E3; [by eapply IH|].
  assert (Hc : candidate dist N i (mkHeapObject (dist i j) j)).
  { split; [done|]. split; [done|]. simpl. intros Hq.
    apply Qeq_bool_iff in Hq. congruence. }
  apply bind_Ok in H as (locality & H1 & H2).
  apply col_Ok in H1 as [_ H1]. apply Hold in H1.
  apply bind_Ok in H2 as ([hp3 pv3] & H2 & H3).
  eapply IH; [exact H3|].
  eapply explore_locality_inv; [exact H1|exact H2|].
  by apply pq_bounded_Forall.
Qed.

Lemma refine_column_inv interrupt dist stale N h old_knns K i kp kp' :
  entries (index_or_none N) old_knns →
  refine_column interrupt dist stale h old_knns K i kp = Ok kp' →
  shape K N kp.1 → entries (explored dist N) kp.1 →
  shape K N kp'.1 ∧ entries (explored dist N) kp'.1.
Proof.
  intros Hold H Hs He. destruct kp as [knns p]. unfold refine_column in H.
  destruct (increment interrupt 1 p) as [live p'] eqn:Hi. simpl in *.
  destruct live; [|by inversion H; subst].
  apply bind_Ok in H as (neighborhood & H1 & H2). apply col_of_nat in H1.
  destruct (h !! i) as [pastVisitors|]; [|done].
  apply bind_Ok in H2 as ([hp pv] & H2 & H3).
  eapply explore_neighborhood_inv in H2; [|exact Hold|by apply (Hold i)|constructor].
  apply bind_Ok in H3 as (column & H3 & H4). apply col_of_nat in H3.
  apply bind_Ok in H4 as ([j column'] & H4 & H5).
  apply (drain_while_spec (explored dist N i)) in H4 as [L F];
    [| |by apply (He i)].
  - destruct (j =? 0); [done|]. inversion H5; subst; simpl.
    split.
    + apply set_col_shape; [done|]. rewrite L. by eapply shape_col.
    + by apply set_col_entries.
  - eapply Forall_impl; [exact H2|]. intros x Hx. by right.
Qed.

Lemma refine_inv interrupt dist stale N h K old_knns p knns p' :
  entries (index_or_none N) old_knns →
  refine interrupt dist stale h K N (old_knns, p) = Ok (knns, p') →
  shape K N knns ∧ entries (explored dist N) knns.
Proof.
  intros Hold H. unfold refine in H.
  apply (for_each_inv (λ kp, shape K N kp.1 ∧
           entries (explored dist N) kp.1)) in H; [done| |].
  - intros i a b _ (Hs & He) Hb.
    by eapply refine_column_inv in Hb.
  - simpl. split; [apply filled_shape|].
    apply filled_entries. intros i. by left.
Qed.

Lemma explored_index_or_none dist N i e :
  explored dist N i e → index_or_none N i e.
Proof. intros [?|(? & _)]; [by left|by right]. Qed.

(** ** The pipeline *)

Lemma refine_loop_inv interrupt dist stale N h K maxIter knns p3 m p :
  entries (index_or_none N) knns →
  for_each (seq 0 maxIter) (λ _ kp, refine interrupt dist stale h K N kp)
    (knns, p3) = Ok (m, p) →
  entries (index_or_none N) m.
Proof.
  intros He H.
  apply (for_each_inv (λ kp, entries (index_or_none N) kp.1)) in H;
    [done| |done].
  intros T [a pa] [b pb] _ Ha Hb. simpl in *.
  apply refine_inv in Hb as (_ & Hb); [|done].
  eapply entries_mono; [|exact Hb]. apply explored_index_or_none.
Qed.

Lemma refine_loop_last interrupt dist stale N h K maxIter knns p3 m p :
  1 ≤ maxIter →
  entries (index_or_none N) knns →
  for_each (seq 0 maxIter) (λ _ kp, refine interrupt dist stale h K N kp)
    (knns, p3) = Ok (m, p) →
  shape K N m ∧ entries (explored dist N) m.
Proof.
  intros HM He H. destruct maxIter as [|M]; [lia|].
  rewrite seq_S in H. apply for_each_last in H as ([old po] & H1 & H2).
  apply refine_loop_inv in H1; [|done].
  by apply refine_inv in H2.
Qed.

(** What a run that returns has gone through: either a check between the
    phases saw the flag, or the last of these checks found it down, the first
    matrix was built and [maxIter] passes were made over it. *)
Lemma searchTrees_Ok interrupt project mid dist stale threshold n_trees K depth
    maxIter N m p :
  searchTrees interrupt project mid dist stale threshold n_trees K depth maxIter N
    = Ok (m, p) →
  (m = empty_mat ∧ aborted p = true) ∨
  (∃ s knns p3,
     forest interrupt project mid threshold n_trees depth N = Ok s ∧
     aborted p3 = false ∧
     shape threshold N knns ∧ entries (index_or_none N) knns ∧
     for_each (seq 0 maxIter)
       (λ _ kp, refine interrupt dist stale (heap s) K N kp) (knns, p3)
     = Ok (m, p)).
Proof.
  unfold searchTrees. intros H. apply bind_Ok in H as (s & Hs & H).
  destruct (check_abort interrupt (progress s)) as [ab p1] eqn:Hc1.
  apply check_abort_flag in Hc1. destruct ab.
  { inversion H; subst. by left. }
  apply bind_Ok in H as ([knns p2] & Hr & H).
  apply reduce_inv in Hr as (Hshape & Hent); [|by eapply forest_pools_ok].
  destruct (check_abort interrupt p2) as [ab2 p3] eqn:Hc2.
  apply check_abort_flag in Hc2. destruct ab2.
  { inversion H; subst. by left. }
  right. exists s, knns, p3. auto.
Qed.

(** X19: a run that returns without the abort flag raised yields a matrix
    with [N] columns, all of the same height, which is [K] when at least one
    pass of exploration was asked for and [threshold] when [maxIter] is
    zero. *)
Theorem searchTrees_shape interrupt project mid dist stale threshold n_trees K
    depth maxIter N m p :
  searchTrees interrupt project mid dist stale threshold n_trees K depth maxIter N
    = Ok (m, p) →
  aborted p = false →
  n_cols m = N ∧
  n_rows m = (if maxIter =? 0 then threshold else K) ∧
  Forall (λ c, length c = n_rows m) (cols m).
Proof.
  intros H Hp. apply searchTrees_Ok in H as [[_ ?]|(s & knns & p3 & H)];
    [congruence|].
  destruct H as (_ & _ & Hs & He & H).
  assert (G : shape (if maxIter =? 0 then threshold else K) N m).
  { destruct maxIter as [|M]; simpl.
    - simpl in H. by inversion H; subst.
    - by apply refine_loop_last in H as [? _]; [|lia|]. }
  destruct G as (G1 & G2 & G3). by rewrite G1.
Qed.

Lemma searchTrees_shape_witness :
  n_cols (mkMat 2 [[2; 1]; [2; 0]; [0; 1]]%Z) = 3 ∧
  n_rows (mkMat 2 [[2; 1]; [2; 0]; [0; 1]]%Z) = 2 ∧
  Forall (λ c, length c = 2) [[2; 1]; [2; 0]; [0; 1]]%Z.
Proof.
  apply (searchTrees_shape no_interrupt flat mean three_points (stale_const (-7))
           4 2 2 1 1 3 (mkMat 2 [[2; 1]; [2; 0]; [0; 1]]%Z)
           (mkProgress 12 false 15)).
  - vm_compute. reflexivity.
  - reflexivity.
Defined.

(** C1, the source against the claim: when no pass of exploration is asked
    for the matrix returned is the first one, which line 160 creates with
    [threshold] rows although the comment above it announces a reduction to
    [K]; with [threshold = 4] and [K = 1] it has four rows. *)
Lemma searchTrees_unrefined_height :
  searchTrees no_interrupt flat mean three_points (stale_const (-7)) 4 1 1 1 0 3
    = Ok (mkMat 4 [[2; 1; 0; -1]; [2; 0; 1; -1]; [0; 1; 2; -1]]%Z,
          mkProgress 6 false 8) ∧
  n_rows (mkMat 4 [[2; 1; 0; -1]; [2; 0; 1; -1]; [0; 1; 2; -1]]%Z) ≠ 1.
Proof. split; [vm_compute; reflexivity|simpl; lia]. Qed.

(** X20: every entry of the matrix returned is [-1] or an index in [0, N),
    and when at least one pass of exploration was asked for no entry of
    column [i] is [i]. *)
Theorem searchTrees_entries interrupt project mid dist stale threshold n_trees K
    depth maxIter N m p i c e :
  searchTrees interrupt project mid dist stale threshold n_trees K depth maxIter N
    = Ok (m, p) →
  cols m !! i = Some c → e ∈ c →
  (e = (-1)%Z ∨ (0 ≤ e < Z.of_nat N)%Z) ∧
  (1 ≤ maxIter → e ≠ Z.of_nat i).
Proof.
  intros H Hc He.
  apply searchTrees_Ok in H as [[-> _]|(s & knns & p3 & H)]; [done|].
  destruct H as (_ & _ & Hs & Hk & H). split.
  - apply refine_loop_inv in H as Hm; [|done].
    specialize (Hm i c Hc). rewrite Forall_forall in Hm. by apply Hm.
  - intros HM. apply refine_loop_last in H as [_ Hm]; [|done|done].
    specialize (Hm i c Hc). rewrite Forall_forall in Hm.
    destruct (Hm e He) as [->|(_ & Hne & _)]; [lia|done].
Qed.

Lemma searchTrees_entries_witness :
  (2 = (-1) ∨ 0 ≤ 2 < Z.of_nat 3)%Z ∧ (1 ≤ 1 → 2%Z ≠ Z.of_nat 1).
Proof.
  apply (searchTrees_entries no_interrupt flat mean three_points (stale_const (-7))
           4 2 2 1 1 3 (mkMat 2 [[2; 1]; [2; 0]; [0; 1]]%Z)
           (mkProgress 12 false 15) 1 [2; 0]%Z 2%Z).
  - vm_compute. reflexivity.
  - reflexivity.
  - apply list_elem_of_here.
Defined.

(** C2, the source against the claim: the first matrix is filled from the
    pools, which are seeded with [i], by a loop that has no test against
    [i]; when no pass of exploration is asked for it is returned as it is,
    here with [0] in column 0. *)
Lemma searchTrees_unrefined_self :
  searchTrees no_interrupt flat mean three_points (stale_const (-7)) 4 2 2 1 0 3
    = Ok (mkMat 4 [[2; 1; 0; -1]; [2; 0; 1; -1]; [0; 1; 2; -1]]%Z,
          mkProgress 9 false 12) ∧
  [[2; 1; 0; -1]; [2; 0; 1; -1]; [0; 1; 2; -1]]%Z !! 0
    = Some [2; 1; 0; -1]%Z ∧
  Z.of_nat 0 ∈ [2; 1; 0; -1]%Z.
Proof.
  split; [vm_compute; reflexivity|]. split; [done|].
  simpl. apply list_elem_of_In. simpl. auto.
Qed.

(** ** Cancellation *)

Lemma grow_tree_aborted interrupt project mid threshold depth N t s :
  aborted (progress s) = true →
  grow_tree interrupt project mid threshold depth N t s = Ok s.
Proof.
  intros Ha. unfold grow_tree, check_abort. rewrite Ha. by destruct s.
Qed.

Lemma grow_tree_interrupted interrupt project mid threshold depth N t s :
  aborted (progress s) = false → interrupt (polls (progress s)) = true →
  grow_tree interrupt project mid threshold depth N t s
  = Ok (mkState (heap s)
          (mkProgress (current (progress s)) true (S (polls (progress s))))).
Proof.
  intros Ha Hi. unfold grow_tree, check_abort. by rewrite Ha, Hi.
Qed.

Lemma forest_loop_aborted interrupt project mid threshold depth N ts s :
  aborted (progress s) = true →
  for_each ts (grow_tree interrupt project mid threshold depth N) s = Ok s.
Proof.
  intros Ha. induction ts as [|t ts IH]; simpl; [done|].
  by rewrite grow_tree_aborted.
Qed.

(** A flag already raised at the first look: the empty matrix, whatever the
    other inputs. *)
Lemma searchTrees_interrupted_at_start interrupt project mid dist stale threshold
    n_trees K depth maxIter N :
  interrupt 0 = true →
  searchTrees interrupt project mid dist stale threshold n_trees K depth maxIter N
  = Ok (empty_mat, mkProgress 0 true 1).
Proof.
  intros Hi. unfold searchTrees, forest.
  destruct n_trees as [|n_trees].
  - simpl. unfold check_abort. simpl. by rewrite Hi.
  - change (seq 0 (S n_trees)) with (0 :: seq 1 n_trees).
    cbn [for_each]. rewrite grow_tree_interrupted by done.
    cbn [mbind result_bind]. rewrite forest_loop_aborted by done. by simpl.
Qed.

(** Scenario S4: the flag set before the call. *)
Example searchTrees_cancelled :
  searchTrees interrupted six_cut mean six_points (stale_const 0) 3 2 2 1 2 6
  = Ok (empty_mat, mkProgress 0 true 1).
Proof. by apply searchTrees_interrupted_at_start. Qed.

(** A matrix other than the empty one is returned only when both checks
    between the phases found the flag down. *)
Lemma searchTrees_checks_between_phases interrupt project mid dist stale threshold
    n_trees K depth maxIter N m p :
  searchTrees interrupt project mid dist stale threshold n_trees K depth maxIter N
    = Ok (m, p) →
  m ≠ empty_mat →
  ∃ s p1 knns p2 p3,
    forest interrupt project mid threshold n_trees depth N = Ok s ∧
    check_abort interrupt (progress s) = (false, p1) ∧
    reduce interrupt dist threshold N (heap s) p1 = Ok (knns, p2) ∧
    check_abort interrupt p2 = (false, p3) ∧
    for_each (seq 0 maxIter)
      (λ _ kp, refine interrupt dist stale (heap s) K N kp) (knns, p3)
    = Ok (m, p).
Proof.
  unfold searchTrees. intros H Hm. apply bind_Ok in H as (s & Hs & H).
  destruct (check_abort interrupt (progress s)) as [[] p1] eqn:Hc1.
  { inversion H; subst. done. }
  apply bind_Ok in H as ([knns p2] & Hr & H).
  destruct (check_abort interrupt p2) as [[] p3] eqn:Hc2.
  { inversion H; subst. done. }
  exists s, p1, knns, p2, p3. auto.
Qed.

(** C5, the source against the claim: the flag raised while the first pass
    of exploration is at column 1 is seen by [increment], the columns 1 and
    2 are skipped, and the matrix is returned with them at [-1]: no check
    follows the last loop. *)
Theorem abort_during_exploration :
  searchTrees (interrupt_from 13) flat mean three_points (stale_const (-7))
    4 2 2 1 1 3
  = Ok (mkMat 2 [[2; 1]; [-1; -1]; [-1; -1]]%Z, mkProgress 10 true 14) ∧
  mkMat 2 [[2; 1]; [-1; -1]; [-1; -1]]%Z ≠ empty_mat.
Proof. split; [vm_compute; reflexivity|discriminate]. Qed.

(** C6: with a distance that is never negative and at least one pass of
    exploration, every entry [e ≠ -1] of column [i] of the matrix returned
    is at a distance from [i] above zero. *)
Theorem searchTrees_positive_distance interrupt project mid dist stale threshold
    n_trees K depth maxIter N m p i c e :
  (∀ a b, (0 <= dist a b)%Q) →
  1 ≤ maxIter →
  searchTrees interrupt project mid dist stale threshold n_trees K depth maxIter N
    = Ok (m, p) →
  cols m !! i = Some c → e ∈ c → e ≠ (-1)%Z →
  (0 < dist (Z.of_nat i) e)%Q.
Proof.
  intros Hd HM H Hc He Hne.
  apply searchTrees_Ok in H as [[-> _]|(s & knns & p3 & H)]; [done|].
  destruct H as (_ & _ & Hs & Hk & H).
  apply refine_loop_last in H as [_ Hm]; [|done|done].
  specialize (Hm i c Hc). rewrite Forall_forall in Hm.
  destruct (Hm e He) as [->|(_ & _ & Hz)]; [done|].
  destruct (Qle_lt_or_eq _ _ (Hd (Z.of_nat i) e)) as [Hlt|Heq]; [exact Hlt|].
  destruct Hz. symmetry. exact Heq.
Qed.

Lemma three_points_nonneg a b : (0 <= three_points a b)%Q.
Proof.
  unfold three_points, on_line. cbv zeta.
  change 0%Q with (inject_Z 0). rewrite <- Zle_Qle. apply Z.square_nonneg.
Qed.

Lemma searchTrees_positive_distance_witness :
  (0 < three_points (Z.of_nat 1) 2)%Q.
Proof.
  apply (searchTrees_positive_distance no_interrupt flat mean three_points
           (stale_const (-7)) 4 2 2 1 1 3
           (mkMat 2 [[2; 1]; [2; 0]; [0; 1]]%Z) (mkProgress 12 false 15)
           1 [2; 0]%Z 2%Z).
  - exact three_points_nonneg.
  - lia.
  - vm_compute. reflexivity.
  - reflexivity.
  - apply list_elem_of_here.
  - lia.
Defined.

(** ** Positional bisection *)



Lemma subvec_cover indices x :
  x ∈ indices →
  x ∈ subvec indices 0 (length indices / 2) ∨
  x ∈ subvec indices (length indices / 2) (length indices - 1).
Proof.
  intros Hx. unfold subvec. rewrite drop_0, Nat.sub_0_r.
  assert (Hl : 0 < length indices) by (destruct indices; [by inversion Hx|simpl; lia]).
  assert (Hh : length indices / 2 < length indices)
    by (apply Nat.div_lt; lia).
  rewrite (take_ge (drop _ _)) by (rewrite length_drop; lia).
  rewrite <- (take_drop (length indices / 2) indices) in Hx at 1.
  apply elem_of_app in Hx as [Hx|Hx]; [left|by right].
  apply list_elem_of_lookup in Hx as [k Hk].
  apply lookup_take_Some in Hk as [Hk Hlt].
  apply list_elem_of_lookup. exists k. apply lookup_take_Some. split; [done|lia].
Qed.




(** ** The lookup in the visited vector *)

Lemma equal_range_aux_all_less v k fuel :
  ∀ first len,
    len ≤ fuel →
    (∀ pos, first ≤ pos < first + len → (at_ v pos < k)%Z) →
    equal_range_aux fuel v first len k = (first + len, first + len).
Proof.
  induction fuel as [|fuel IH]; intros first len Hlen Hlt; cbn [equal_range_aux].
  - replace len with 0 by lia. by rewrite Nat.add_0_r.
  - destruct (len =? 0) eqn:E0.
    { apply Nat.eqb_eq in E0 as ->. by rewrite Nat.add_0_r. }
    apply Nat.eqb_neq in E0.
    assert (Hhalf : len / 2 < len) by (apply Nat.div_lt; lia).
    assert (Hm : (at_ v (first + len / 2) <? k)%Z = true).
    { apply Z.ltb_lt. apply Hlt. lia. }
    rewrite Hm. rewrite IH.
    + f_equal; lia.
    + lia.
    + intros pos Hpos. apply Hlt. lia.
Qed.

(** A candidate above everything visited so far: the position the source
    dereferences is the end of the vector. *)
Lemma equal_range_past_end v k :
  Forall (λ x, (x < k)%Z) v →
  equal_range v k = (length v, length v) ∧ v !! length v = None.
Proof.
  intros Hv. split; [|by apply lookup_ge_None].
  unfold equal_range. apply (equal_range_aux_all_less v k (length v) 0 (length v)).
  - done.
  - intros pos Hpos. rewrite Forall_forall in Hv. apply Hv, at_elem_of. lia.
Qed.

(** C10, the source against the claim: for a candidate [k] above every
    element of the visited vector, [std::equal_range] returns the end of the
    vector, and that is the position line 217 dereferences: the position
    read is the size of the vector, where the vector holds nothing. *)
Theorem visited_lookup_past_the_end v k :
  Forall (λ x, (x < k)%Z) v →
  equal_range v k = (length v, length v) ∧
  v !! (equal_range v k).1 = None.
Proof.
  intros Hv. destruct (equal_range_past_end v k Hv) as [E N].
  rewrite E. by split.
Qed.

Lemma visited_lookup_past_the_end_witness :
  equal_range [0; 1; 2; 4]%Z 5
  = (length [0; 1; 2; 4]%Z, length [0; 1; 2; 4]%Z) ∧
  [0; 1; 2; 4]%Z !! (equal_range [0; 1; 2; 4]%Z 5).1 = None.
Proof.
  apply (visited_lookup_past_the_end [0; 1; 2; 4]%Z 5).
  repeat constructor; lia.
Defined.

(** ** Repeated neighbours *)

(** C3, the source against the claim: with a single tree, whose pools are
    never sorted, one pass over three points on a line leaves column 1 as
    [0, 0]: point 0 is pushed as a neighbour of neighbour 2 and again as a
    direct neighbour.  The three points form one leaf, so no hyperplane is
    drawn, and the run is the same whatever the rounding of a median and
    whatever is read past the end of a vector. *)
Theorem exploration_repeats_neighbor :
  ∀ project mid stale,
    searchTrees no_interrupt project mid three_points stale 4 1 2 1 1 3
    = Ok (mkMat 2 [[2; 1]; [0; 0]; [0; 1]]%Z, mkProgress 9 false 11).
Proof. intros project mid stale. vm_compute. reflexivity. Qed.

(** * Further properties of the source *)

(** ** Loops that cannot fail *)

Lemma for_each_total {A S} (P : S → Prop) (l : list A)
    (body : A → S → result S) (s : S) :
  (∀ x a, x ∈ l → P a → ∃ b, body x a = Ok b ∧ P b) →
  P s → ∃ s', for_each l body s = Ok s' ∧ P s'.
Proof.
  revert s. induction l as [|x l IH]; intros s Hb Hs; simpl.
  - by exists s.
  - destruct (Hb x s) as (s1 & H1 & P1); [apply list_elem_of_here|done|].
    rewrite H1. simpl. apply IH; [|done].
    intros y a Hy. apply Hb. by apply list_elem_of_further.
Qed.

Lemma for_each_seq_inv {S} (P : nat → S → Prop) (n : nat)
    (body : nat → S → result S) (s s' : S) :
  (∀ m a b, m < n → P m a → body m a = Ok b → P (Datatypes.S m) b) →
  P 0 s → for_each (seq 0 n) body s = Ok s' → P n s'.
Proof.
  revert s'. induction n as [|n IH]; intros s' Hb Hs H.
  - simpl in H. by inversion H; subst.
  - rewrite seq_S in H. apply for_each_last in H as (s1 & H1 & H2).
    simpl in H2. eapply (Hb n); [lia| |exact H2].
    apply IH; [|done|done]. intros m a b Hm. apply Hb. lia.
Qed.

(** ** [searchTree] on two or more valid indices *)

Lemma co_leaf_total indices h :
  Forall (in_range (length h)) indices →
  ∃ h', co_leaf indices h = Ok h' ∧ length h' = length h.
Proof.
  intros Hr. unfold co_leaf.
  apply (for_each_total (λ a, length a = length h)); [|done].
  intros i a Hi Ha. apply elem_of_seq in Hi.
  rewrite leaf_row; [| lia |].
  - eexists. split; [done|]. by rewrite length_alter.
  - rewrite Ha. rewrite Forall_forall in Hr. apply Hr, at_elem_of. lia.
Qed.

Lemma pair_leaf_total indices h :
  length indices = 2 → Forall (in_range (length h)) indices →
  ∃ h', pair_leaf indices h = Ok h' ∧ length h' = length h.
Proof.
  intros HI Hr. rewrite Forall_forall in Hr. unfold pair_leaf.
  rewrite push_back_in_range by (apply Hr, at_elem_of; lia).
  cbn [mbind result_bind]. rewrite push_back_in_range.
  - eexists. split; [done|]. by rewrite !length_alter.
  - unfold in_range. rewrite length_alter. apply Hr, at_elem_of. lia.
Qed.

Lemma subvec_length v first last :
  last < length v → first ≤ last →
  length (subvec v first last) = S last - first.
Proof.
  intros Hl Hf. unfold subvec. rewrite length_take, length_drop. lia.
Qed.

Lemma searchTree_total interrupt project mid threshold iterations :
  ∀ indices t path s,
    2 ≤ length indices →
    Forall (in_range (length (heap s))) indices →
    ∃ s', searchTree interrupt project mid threshold indices iterations t path s
          = Ok s' ∧ length (heap s') = length (heap s).
Proof.
  induction iterations as [|it IH]; intros indices t path s HI Hr;
    cbn [searchTree];
    destruct (check_abort interrupt (progress s)) as [[] p] eqn:Hc;
    try (by eexists);
    (destruct (length indices <? 2) eqn:E2; [apply Nat.ltb_lt in E2; lia|]);
    (destruct (length indices =? 2) eqn:E3;
     [apply Nat.eqb_eq in E3;
      destruct (pair_leaf_total indices (heap s) E3 Hr) as (h' & -> & L);
      by eexists|]).
  - destruct (co_leaf_total indices (heap s) Hr) as (h' & Hh & L).
    unfold leaf_node. simpl. rewrite Hh. by eexists.
  - apply Nat.eqb_neq in E3.
    assert (Hleaf : ∃ s', leaf_node interrupt indices (mkState (heap s) p)
                          = Ok s' ∧ length (heap s') = length (heap s)).
    { destruct (co_leaf_total indices (heap s) Hr) as (h' & Hh & L).
      unfold leaf_node. simpl. rewrite Hh. by eexists. }
    destruct (length indices <? threshold); [done|].
    set (direction := map (project t path indices) indices).
    set (left := find _ direction). set (right := find _ direction).
    assert (Hsub : ∀ a b : list Z,
      2 ≤ length a → 2 ≤ length b →
      (∀ x, x ∈ a → x ∈ indices) → (∀ x, x ∈ b → x ∈ indices) →
      ∃ s', (searchTree interrupt project mid threshold a it t (path ++ [false])
               (mkState (heap s) p)
             ≫= searchTree interrupt project mid threshold b it t (path ++ [true]))
            = Ok s' ∧ length (heap s') = length (heap s)).
    { intros a b La Lb Ha Hb. rewrite Forall_forall in Hr.
      destruct (IH a t (path ++ [false]) (mkState (heap s) p)) as (s1 & H1 & L1);
        [done|apply Forall_forall; intros x Hx; apply Hr; auto|].
      rewrite H1. simpl. simpl in L1.
      destruct (IH b t (path ++ [true]) s1) as (s2 & H2 & L2);
        [done|apply Forall_forall; intros x Hx; rewrite L1; apply Hr; auto|].
      exists s2. split; [done|congruence]. }
    destruct ((2 <=? length left) && (2 <=? length right)) eqn:Es.
    + apply andb_true_iff in Es as [El Er]. apply Nat.leb_le in El, Er.
      apply Hsub.
      * unfold elem. by rewrite length_map.
      * unfold elem. by rewrite length_map.
      * intros x. apply elem_find_subseteq.
      * intros x. apply elem_find_subseteq.
    + assert (Hhalf : length indices / 2 < length indices)
        by (apply Nat.div_lt; lia).
      assert (1 ≤ length indices / 2)
        by (apply (Nat.div_le_lower_bound _ 2 1); lia).
      assert (length indices / 2 * 2 ≤ length indices).
      { rewrite Nat.mul_comm. apply Nat.Div0.mul_div_le. }
      apply Hsub.
      * rewrite subvec_length; lia.
      * rewrite subvec_length; lia.
      * intros x. apply subvec_subseteq.
      * intros x. apply subvec_subseteq.
Qed.

(** X1: called with at least two indices, no two of them equal, that all
    name a pool, [searchTree] always returns: "Tree split failure." and an
    access out of range can only come from the index vector given to the
    outermost call.  (Without repetition the two points of line 71 differ
    after one draw, and every part handed down is again without
    repetition.)  The pools keep their number, none loses or reorders an
    entry, and what is appended are members of the index vector. *)
Theorem searchTree_returns interrupt project mid threshold indices iterations
    t path s :
  NoDup indices →
  2 ≤ length indices →
  Forall (in_range (length (heap s))) indices →
  ∃ s', searchTree interrupt project mid threshold indices iterations t path s
        = Ok s' ∧
    length (heap s') = length (heap s) ∧
    ∀ i l, heap s !! i = Some l →
      ∃ l', heap s' !! i = Some (l ++ l') ∧ Forall (λ x, x ∈ indices) l'.
Proof.
  intros _ HI Hr.
  destruct (searchTree_total interrupt project mid threshold iterations
              indices t path s HI Hr) as (s' & H & L).
  exists s'. split; [done|]. split; [done|].
  by apply searchTree_grows in H as [[_ G] _].
Qed.

Lemma searchTree_returns_witness :
  ∃ s', searchTree no_interrupt six_cut mean 3 (regspace 6) 1 0 [] six_seeds
        = Ok s' ∧
    length (heap s') = length (heap six_seeds) ∧
    ∀ i l, heap six_seeds !! i = Some l →
      ∃ l', heap s' !! i = Some (l ++ l') ∧
            Forall (λ x, x ∈ regspace 6) l'.
Proof.
  apply (searchTree_returns no_interrupt six_cut mean 3 (regspace 6) 1 0 []
           six_seeds).
  - apply (bool_decide_unpack _). vm_compute. reflexivity.
  - simpl. lia.
  - apply Forall_forall. intros x Hx. apply regspace_in_range in Hx; [|lia].
    exact Hx.
Defined.

(** ** What can stop the forest *)

Lemma regspace_length N : N ≠ 0 → length (regspace N) = N.
Proof.
  intros HN. unfold regspace. destruct N; [done|].
  by rewrite length_map, length_seq.
Qed.

Lemma normalize_cases h :
  (∃ h', normalize h = Ok h') ∨ normalize h = Stop "Tree failure.".
Proof.
  induction h as [|l h IH]; simpl; [left; by eexists|].
  destruct (length (unique (sort_int l)) <? 3); [by right|].
  destruct IH as [[h' H]|H]; rewrite H; [left; by eexists|by right].
Qed.

Lemma grow_tree_cases interrupt project mid threshold depth N t s :
  2 ≤ N → pools_ok N (heap s) →
  (∃ s', grow_tree interrupt project mid threshold depth N t s = Ok s' ∧
         pools_ok N (heap s')) ∨
  grow_tree interrupt project mid threshold depth N t s = Stop "Tree failure.".
Proof.
  intros HN HP. unfold grow_tree.
  destruct (check_abort interrupt (progress s)) as [[] p] eqn:Hc.
  { left. eexists. split; [done|]. done. }
  destruct (searchTree_total interrupt project mid threshold depth (regspace N)
              t [] (mkState (heap s) p)) as (s1 & H1 & L1).
  { rewrite regspace_length; lia. }
  { apply Forall_forall. intros x Hx. simpl. destruct HP as [-> _].
    apply regspace_in_range; [lia|done]. }
  rewrite H1. simpl.
  assert (P1 : pools_ok N (heap s1))
    by (eapply searchTree_pools_ok; [|exact H1]; done).
  destruct (0 <? t); [|left; by exists s1].
  destruct (check_abort interrupt (progress s1)) as [[] p1].
  { left. eexists. split; [done|]. done. }
  destruct (normalize_cases (heap s1)) as [[h' Hn]|Hn]; rewrite Hn; simpl.
  - left. eexists. split; [done|]. simpl.
    by apply (normalize_pools_ok N) in Hn as [? _].
  - by right.
Qed.

Lemma forest_loop_cases interrupt project mid threshold depth N ts :
  2 ≤ N → ∀ s, pools_ok N (heap s) →
  (∃ s', for_each ts (grow_tree interrupt project mid threshold depth N) s = Ok s' ∧
         pools_ok N (heap s')) ∨
  for_each ts (grow_tree interrupt project mid threshold depth N) s
  = Stop "Tree failure.".
Proof.
  intros HN. induction ts as [|t ts IH]; intros s HP; simpl.
  - left. by exists s.
  - destruct (grow_tree_cases interrupt project mid threshold depth N t s HN HP)
      as [(s1 & H1 & P1)|H1]; rewrite H1; [|by right].
    simpl. by apply IH.
Qed.

(** X2: with two points or more, the only way the forest phase can end
    without returning is the size test of the normalization pass: it stops
    with "Tree failure." or returns [N] pools, pool [i] holding [i] and
    nothing but indices below [N].  No call of [searchTree] stops and no
    pool is accessed out of range. *)
Theorem forest_failure_modes interrupt project mid threshold n_trees depth N :
  2 ≤ N →
  (∃ s, forest interrupt project mid threshold n_trees depth N = Ok s ∧
        length (heap s) = N ∧
        ∀ i l, heap s !! i = Some l →
          Z.of_nat i ∈ l ∧ Forall (λ e, (0 ≤ e < Z.of_nat N)%Z) l) ∨
  forest interrupt project mid threshold n_trees depth N = Stop "Tree failure.".
Proof.
  intros HN. unfold forest.
  destruct (forest_loop_cases interrupt project mid threshold depth N
              (seq 0 n_trees) HN
              (mkState (map (λ i, [Z.of_nat i]) (seq 0 N)) (mkProgress 0 false 0)))
    as [(s & H & [L P])|H]; [apply seeds_pools_ok| |by right].
  left. exists s. done.
Qed.

Lemma forest_failure_modes_witness :
  (∃ s, forest no_interrupt flat mean 3 2 1 3 = Ok s ∧
        length (heap s) = 3 ∧
        ∀ i l, heap s !! i = Some l →
          Z.of_nat i ∈ l ∧ Forall (λ e, (0 ≤ e < Z.of_nat 3)%Z) l) ∨
  forest no_interrupt flat mean 3 2 1 3 = Stop "Tree failure.".
Proof. apply (forest_failure_modes no_interrupt flat mean 3 2 1 3). lia. Defined.

(** X3: a single point cannot be searched: when no abort is seen at the
    first two looks and at least one tree is asked for, [searchTrees] stops
    with "Tree split failure.", whatever the other parameters. *)
Theorem searchTrees_single_point interrupt project mid dist stale threshold
    n_trees K depth maxIter :
  1 ≤ n_trees → interrupt 0 = false → interrupt 1 = false →
  searchTrees interrupt project mid dist stale threshold n_trees K depth maxIter 1
  = Stop "Tree split failure.".
Proof.
  intros Hn H0 H1. unfold searchTrees, forest.
  destruct n_trees as [|n]; [lia|].
  change (seq 0 (S n)) with (0 :: seq 1 n). cbn [for_each].
  assert (E : grow_tree interrupt project mid threshold depth 1 0
                (mkState (map (λ i, [Z.of_nat i]) (seq 0 1))
                   (mkProgress 0 false 0))
              = Stop "Tree split failure.").
  { unfold grow_tree, check_abort. simpl. rewrite H0.
    destruct depth; cbn [searchTree]; unfold check_abort; simpl;
      by rewrite H1. }
  by rewrite E.
Qed.

Lemma searchTrees_single_point_witness :
  searchTrees no_interrupt flat mean three_points (stale_const 0) 3 1 1 1 1 1
  = Stop "Tree split failure.".
Proof.
  apply (searchTrees_single_point no_interrupt flat mean three_points
           (stale_const 0) 3 1 1 1 1); [lia|reflexivity|reflexivity].
Defined.

(** ** The first matrix, column by column *)

Lemma pq_push_length x q : length (pq_push x q) = S (length q).
Proof.
  induction q as [|y q IH]; simpl; [done|].
  destruct (heapObject_lt y x); simpl; by rewrite ?IH.
Qed.

Lemma nearest_length dist threshold i stack :
  length (nearest dist threshold i stack) = min threshold (length stack).
Proof.
  unfold nearest.
  assert (G : ∀ q : priority_queue, length q ≤ threshold →
    length (fold_left (λ maxHeap it,
         let maxHeap' := pq_push (mkHeapObject (dist i it) it) maxHeap in
         if threshold <? pq_size maxHeap' then pq_pop maxHeap' else maxHeap')
         stack q) = min threshold (length q + length stack)).
  { induction stack as [|x stack IH]; intros q Hq; simpl; [lia|].
    unfold pq_size. rewrite pq_push_length.
    destruct (threshold <? S (length q)) eqn:E.
    - apply Nat.ltb_lt in E. rewrite IH.
      + unfold pq_pop. destruct (pq_push _ q) eqn:Ep.
        * apply (f_equal length) in Ep. rewrite pq_push_length in Ep. done.
        * apply (f_equal length) in Ep. rewrite pq_push_length in Ep.
          simpl in *. lia.
      + unfold pq_pop. destruct (pq_push _ q) eqn:Ep; simpl; [lia|].
        apply (f_equal length) in Ep. rewrite pq_push_length in Ep.
        simpl in Ep. lia.
    - apply Nat.ltb_ge in E. rewrite IH; rewrite pq_push_length; lia. }
  rewrite G; simpl; lia.
Qed.

Lemma write_middle (pre : list Z) x m rest :
  write (length pre) x (pre ++ m :: rest) = Ok (pre ++ x :: rest).
Proof.
  unfold write. rewrite length_app. simpl.
  replace (length pre <? length pre + S (length rest)) with true
    by (symmetry; apply Nat.ltb_lt; lia).
  f_equal. rewrite insert_app_r_alt by lia. by rewrite Nat.sub_diag.
Qed.

Lemma drain_do_app bound q :
  ∀ pre mid post,
    q ≠ [] → length mid = length q → length pre + length q ≤ bound →
    drain_do bound q (length pre) (pre ++ mid ++ post)
    = Ok (length pre + length q, pre ++ map n q ++ post).
Proof.
  induction q as [|top q IH]; intros pre mid post Hq Hm Hb; [done|].
  destruct mid as [|m mid]; [done|]. simpl in Hm, Hb.
  cbn [drain_do]. change ((m :: mid) ++ post) with (m :: mid ++ post).
  rewrite write_middle. cbn [mbind result_bind].
  destruct q as [|top' q'].
  - destruct mid; [|done]. simpl. rewrite andb_false_r.
    by replace (length pre + 1) with (S (length pre)) by lia.
  - replace (S (length pre) <? bound) with true
      by (symmetry; apply Nat.ltb_lt; simpl in Hb; lia).
    cbn [pq_empty negb andb].
    assert (E : pre ++ n top :: mid ++ post = (pre ++ [n top]) ++ mid ++ post)
      by (by rewrite <- app_assoc).
    assert (EL : S (length pre) = length (pre ++ [n top]))
      by (rewrite length_app; simpl; lia).
    rewrite E, EL.
    rewrite IH; [|done|simpl in *; lia|rewrite <- EL; simpl in *; lia].
    f_equal. f_equal; [rewrite <- EL; simpl; lia|by rewrite <- app_assoc].
Qed.

Lemma drain_do_exact bound q column :
  q ≠ [] → length q ≤ bound → length q ≤ length column →
  drain_do bound q 0 column
  = Ok (length q, map n q ++ drop (length q) column).
Proof.
  intros Hq Hb Hc.
  rewrite <- (take_drop (length q) column) at 1.
  apply (drain_do_app bound q [] (take (length q) column)
           (drop (length q) column)); [done| |simpl; lia].
  rewrite length_take. lia.
Qed.

(** The column written for a pool: the candidates kept, from the farthest to
    the nearest, then [-1] down to row [threshold - 1]. *)
Lemma reduce_column_live interrupt dist threshold N h i knns p p' stack column :
  1 ≤ threshold → increment interrupt 1 p = (true, p') →
  h !! i = Some stack → stack ≠ [] → Forall (in_range N) stack →
  cols knns !! i = Some column → length column = threshold →
  reduce_column interrupt dist threshold h i (knns, p)
  = Ok (set_col knns i
          (map n (nearest dist threshold (Z.of_nat i) stack)
           ++ drop (min threshold (length stack)) column), p').
Proof.
  intros Ht Hi Hs Hne Hr Hc Hl. unfold reduce_column. rewrite Hi, Hs.
  unfold col. rewrite bool_decide_eq_true_2 by lia. rewrite Nat2Z.id, Hc.
  cbn [mbind result_bind].
  pose proof (nearest_length dist threshold (Z.of_nat i) stack) as Hlen.
  pose proof (nearest_Forall dist (in_range N) threshold (Z.of_nat i) stack Hr)
    as Hin.
  destruct (nearest dist threshold (Z.of_nat i) stack) as [|top q] eqn:Eq.
  { destruct stack; [done|]. simpl in Hlen. lia. }
  rewrite drain_do_exact; [|done|simpl in *; lia|simpl in *; lia].
  cbn [mbind result_bind].
  replace (at_ (map n (top :: q) ++ drop (length (top :: q)) column) 0)
    with (n top) by done.
  apply Forall_cons in Hin as [[Hn _] _].
  replace (n top =? -1)%Z with false by (symmetry; apply Z.eqb_neq; lia).
  rewrite andb_false_r. by rewrite Hlen.
Qed.

Lemma increment_true interrupt amount p p' :
  increment interrupt amount p = (true, p') →
  aborted p = false ∧ aborted p' = false.
Proof.
  unfold increment. destruct (aborted p); [done|].
  destruct (interrupt (polls p)); [done|]. intros H. by inversion H.
Qed.

Lemma increment_false interrupt amount p p' :
  increment interrupt amount p = (false, p') → aborted p' = true.
Proof.
  unfold increment. destruct (aborted p) eqn:E;
    [|destruct (interrupt (polls p))]; intros H; by inversion H; subst.
Qed.

Lemma pools_ok_stack N h i stack :
  pools_ok N h → h !! i = Some stack → stack ≠ [] ∧ Forall (in_range N) stack.
Proof.
  intros [_ HP] Hs. destruct (HP i stack Hs) as [Hin Hr]. split; [|done].
  intros ->. by apply elem_of_nil in Hin.
Qed.

Lemma shape_lookup rows columns m i :
  shape rows columns m → i < columns →
  ∃ c, cols m !! i = Some c ∧ length c = rows.
Proof.
  intros (Hr & Hc & Hl) Hi. unfold n_cols in Hc.
  destruct (lookup_lt_is_Some_2 (cols m) i) as [c Hlook]; [lia|].
  exists c. split; [done|]. rewrite Forall_lookup in Hl. by eapply Hl.
Qed.

Lemma reduce_total interrupt dist threshold N h p :
  1 ≤ threshold → pools_ok N h →
  ∃ knns p', reduce interrupt dist threshold N h p = Ok (knns, p') ∧
    shape threshold N knns.
Proof.
  intros Ht HP. unfold reduce.
  destruct (for_each_total (λ kp : mat * Progress, shape threshold N kp.1)
              (seq 0 N) (reduce_column interrupt dist threshold h)
              (filled threshold N (-1), p)) as ([knns p'] & H & Hs).
  - intros i [knns q] Hi Hs. apply elem_of_seq in Hi. simpl in Hs.
    destruct (increment interrupt 1 q) as [[] q'] eqn:Einc.
    + destruct (shape_lookup _ _ _ i Hs) as (c & Hc & Hl); [lia|].
      destruct (lookup_lt_is_Some_2 h i) as [stack Hst];
        [destruct HP as [-> _]; lia|].
      destruct (pools_ok_stack N h i stack HP Hst) as [Hne Hr].
      erewrite reduce_column_live; [|done..].
      eexists. split; [done|]. simpl. apply set_col_shape; [done|].
      rewrite length_app, length_map, nearest_length, length_drop. lia.
    + unfold reduce_column. rewrite Einc. by eexists.
  - apply filled_shape.
  - by exists knns, p'.
Qed.

(** X4: the reduction cannot fail.  With [threshold] at least one and pools
    as the forest leaves them, the first matrix is always built: the queue
    of a pool is never empty when it is drained, every write is inside the
    column, and "Bad neighbor matrix." is never reached. *)
Theorem reduce_returns interrupt dist threshold N h p :
  1 ≤ threshold → pools_ok N h →
  ∃ knns p', reduce interrupt dist threshold N h p = Ok (knns, p') ∧
    shape threshold N knns.
Proof. apply reduce_total. Qed.


Lemma reduce_returns_witness :
  ∃ knns p',
    reduce no_interrupt three_points 4 3
      [[0; 1; 2]; [0; 1; 2]; [0; 1; 2]]%Z (mkProgress 0 false 0)
    = Ok (knns, p') ∧ shape 4 3 knns.
Proof.
  apply (reduce_returns no_interrupt three_points 4 3
           [[0; 1; 2]; [0; 1; 2]; [0; 1; 2]]%Z (mkProgress 0 false 0)).
  - lia.
  - split; [reflexivity|]. intros i l Hl.
    destruct i as [|[|[|i]]]; simpl in Hl; inversion Hl; subst;
      (split; [apply list_elem_of_In; simpl; auto
              |repeat constructor; unfold in_range; simpl; lia]).
Defined.

(** When the reduction ends with the abort flag down, column [i] of the
    first matrix is the content of the queue built from pool [i], from its
    top downwards, followed by [-1] in the rows the pool was too small to
    fill.  The queue is that of the embedding, with its order among entries
    of equal distance. *)
Lemma reduce_columns interrupt dist threshold N h p knns p' i stack :
  1 ≤ threshold → pools_ok N h →
  reduce interrupt dist threshold N h p = Ok (knns, p') →
  aborted p' = false →
  h !! i = Some stack →
  cols knns !! i
  = Some (map n (nearest dist threshold (Z.of_nat i) stack)
          ++ replicate (threshold - length stack) (-1)%Z).
Proof.
  intros Ht HP H Hf Hst. unfold reduce in H.
  set (layout := λ (i : nat) (stack : list Z),
         map n (nearest dist threshold (Z.of_nat i) stack)
         ++ replicate (threshold - length stack) (-1)%Z).
  apply (for_each_seq_inv (λ m (kp : mat * Progress),
           shape threshold N kp.1 ∧
           (∀ j, m ≤ j → j < N →
              cols kp.1 !! j = Some (replicate threshold (-1)%Z)) ∧
           (aborted kp.2 = false →
            ∀ j st, j < m → h !! j = Some st →
              cols kp.1 !! j = Some (layout j st)))) in H.
  - destruct H as (_ & _ & H). simpl in H. apply H; [done| |done].
    destruct HP as [<- _]. by eapply lookup_lt_Some.
  - intros m [a pa] [b pb] Hm (Hs & Hfresh & Hdone) Hb. cbn [fst snd] in *.
    destruct (increment interrupt 1 pa) as [[] q'] eqn:Einc.
    + destruct (lookup_lt_is_Some_2 h m) as [st Hm'];
        [destruct HP as [-> _]; lia|].
      destruct (pools_ok_stack N h m st HP Hm') as [Hne Hr].
      erewrite reduce_column_live in Hb;
        [|done|done|done|done|done|by apply Hfresh|by rewrite length_replicate].
      inversion Hb; subst. simpl.
      apply increment_true in Einc as [Hpa Hpb].
      assert (Hcol : map n (nearest dist threshold (Z.of_nat m) st)
                     ++ drop (min threshold (length st))
                          (replicate threshold (-1)%Z) = layout m st).
      { unfold layout. f_equal. rewrite drop_replicate. f_equal. lia. }
      rewrite Hcol. split; [|split].
      * apply set_col_shape; [done|]. unfold layout.
        rewrite length_app, length_map, nearest_length, length_replicate. lia.
      * intros j Hj Hj'. rewrite list_lookup_insert_ne by lia.
        apply Hfresh; lia.
      * intros _ j st' Hj Hst'. destruct (decide (j = m)) as [->|Hne'].
        -- rewrite Hm' in Hst'. inversion Hst'; subst.
           apply list_lookup_insert_eq.
           destruct Hs as (_ & Hc & _). unfold n_cols in Hc. lia.
        -- rewrite list_lookup_insert_ne by lia.
           apply Hdone; [done|lia|done].
    + unfold reduce_column in Hb. rewrite Einc in Hb. inversion Hb; subst.
      apply increment_false in Einc. simpl. split; [done|]. split.
      * intros j Hj Hj'. apply Hfresh; lia.
      * intros Hab. congruence.
  - simpl. split; [apply filled_shape|]. split.
    + intros j _ Hj. apply lookup_replicate. done.
    + intros _ j st Hj. lia.
Qed.


(** ** The queue keeps the nearest candidates *)

Lemma heapObject_lt_spec a b : heapObject_lt a b = true ↔ (d a < d b)%Q.
Proof. apply Qltb_lt. Qed.

Lemma pq_push_perm x q : pq_push x q ≡ₚ x :: q.
Proof.
  induction q as [|y q IH]; simpl; [done|].
  destruct (heapObject_lt y x); [done|].
  rewrite IH. apply Permutation_swap.
Qed.

Lemma pq_push_sorted x q : farthest_first q → farthest_first (pq_push x q).
Proof.
  unfold farthest_first. induction q as [|y q IH]; intros Hq; simpl.
  - repeat constructor.
  - apply StronglySorted_inv in Hq as [Hq Hy].
    destruct (heapObject_lt y x) eqn:E.
    + apply heapObject_lt_spec in E. constructor.
      * by constructor.
      * constructor; [by apply Qlt_le_weak|].
        eapply Forall_impl; [exact Hy|]. intros b Hb. simpl in Hb.
        eapply Qle_trans; [exact Hb|]. by apply Qlt_le_weak.
    + constructor; [by apply IH|].
      apply pq_push_Forall; [|done]. simpl.
      apply Qnot_lt_le. intros Hlt. apply heapObject_lt_spec in Hlt. congruence.
Qed.

Lemma nearest_step dist threshold i q done x :
  farthest_first q → length q ≤ threshold →
  (∀ y, y ∈ q → n y ∈ done ∧ d y = dist i (n y)) →
  (∀ c, c ∈ done → kept dist threshold i q c) →
  let q1 := pq_push (mkHeapObject (dist i x) x) q in
  let q' := if threshold <? pq_size q1 then pq_pop q1 else q1 in
  farthest_first q' ∧ length q' ≤ threshold ∧
  (∀ y, y ∈ q' → n y ∈ done ++ [x] ∧ d y = dist i (n y)) ∧
  (∀ c, c ∈ done ++ [x] → kept dist threshold i q' c).
Proof.
  intros Hs Hl Ho Hk q1 q'.
  pose proof (pq_push_perm (mkHeapObject (dist i x) x) q) as Hp. fold q1 in Hp.
  pose proof (pq_push_sorted (mkHeapObject (dist i x) x) q Hs) as Hs1.
  fold q1 in Hs1.
  assert (Hl1 : length q1 = S (length q))
    by (unfold q1; apply pq_push_length).
  assert (Ho1 : ∀ y, y ∈ q1 → n y ∈ done ++ [x] ∧ d y = dist i (n y)).
  { intros y Hy. rewrite Hp in Hy. apply elem_of_cons in Hy as [->|Hy].
    - simpl. split; [|done]. apply elem_of_app. right. apply list_elem_of_here.
    - destruct (Ho y Hy). split; [|done]. apply elem_of_app. by left. }
  subst q'. unfold pq_size. destruct (threshold <? length q1) eqn:E.
  - apply Nat.ltb_lt in E.
    destruct q1 as [|m qt] eqn:E1; [simpl in Hl1; lia|]. simpl in Hl1.
    unfold pq_pop. cbn [tail].
    apply StronglySorted_inv in Hs1 as [Hst Hm].
    split; [done|]. split; [lia|]. split.
    { intros y Hy. apply Ho1. by apply list_elem_of_further. }
    assert (Hfull : length qt = threshold) by (simpl in E; lia).
    assert (Hhead : ∀ c, mkHeapObject (dist i c) c = m →
              kept dist threshold i qt c).
    { intros c <-. right. split; [done|]. exact Hm. }
    intros c Hc. apply elem_of_app in Hc as [Hc|Hc].
    + destruct (Hk c Hc) as [Hin|[_ Hle]].
      * assert (Hin1 : mkHeapObject (dist i c) c ∈ m :: qt)
          by (rewrite Hp; by apply list_elem_of_further).
        apply elem_of_cons in Hin1 as [Heq|Hin1]; [by apply Hhead|by left].
      * right. split; [done|]. apply Forall_forall. intros y Hy.
        rewrite Forall_forall in Hle, Hm.
        assert (Hm1 : m ∈ mkHeapObject (dist i x) x :: q)
          by (rewrite <- Hp; apply list_elem_of_here).
        apply elem_of_cons in Hm1 as [Heq|Hm1].
        -- apply Hle. subst m. apply Permutation_cons_inv in Hp.
           by rewrite <- Hp.
        -- eapply Qle_trans; [apply Hm, Hy|]. by apply Hle.
    + apply list_elem_of_singleton in Hc as ->.
      assert (Hin1 : mkHeapObject (dist i x) x ∈ m :: qt)
        by (rewrite Hp; apply list_elem_of_here).
      apply elem_of_cons in Hin1 as [Heq|Hin1]; [by apply Hhead|by left].
  - apply Nat.ltb_ge in E. split; [done|]. split; [lia|]. split; [done|].
    intros c Hc. left. rewrite Hp. apply elem_of_app in Hc as [Hc|Hc].
    + destruct (Hk c Hc) as [Hin|[Hfull _]]; [|lia].
      by apply list_elem_of_further.
    + apply list_elem_of_singleton in Hc as ->. apply list_elem_of_here.
Qed.

(** X6: the queue built from a pool holds the [threshold] nearest
    candidates.  It lists them from the farthest to the nearest, has
    [min threshold |pool|] entries, each a member of the pool with its
    distance to [i]; and a member of the pool that is not in it is at least
    as far from [i] as every entry that is. *)
Theorem nearest_keeps_nearest dist threshold i stack :
  farthest_first (nearest dist threshold i stack) ∧
  length (nearest dist threshold i stack) = min threshold (length stack) ∧
  (∀ x, x ∈ nearest dist threshold i stack →
     n x ∈ stack ∧ d x = dist i (n x)) ∧
  (∀ c, c ∈ stack →
     mkHeapObject (dist i c) c ∈ nearest dist threshold i stack ∨
     Forall (λ x, (d x <= dist i c)%Q) (nearest dist threshold i stack)).
Proof.
  split; [|split; [apply nearest_length|]].
  all: unfold nearest;
    assert (G : ∀ st (q : priority_queue) done,
      farthest_first q → length q ≤ threshold →
      (∀ y, y ∈ q → n y ∈ done ∧ d y = dist i (n y)) →
      (∀ c, c ∈ done → kept dist threshold i q c) →
      let q' := fold_left (λ maxHeap it,
         let maxHeap' := pq_push (mkHeapObject (dist i it) it) maxHeap in
         if threshold <? pq_size maxHeap' then pq_pop maxHeap' else maxHeap')
         st q in
      farthest_first q' ∧
      (∀ y, y ∈ q' → n y ∈ done ++ st ∧ d y = dist i (n y)) ∧
      (∀ c, c ∈ done ++ st → kept dist threshold i q' c))
    by (induction st as [|x st IH]; intros q done Hs Hl Ho Hk;
        [simpl; by rewrite app_nil_r
        |destruct (nearest_step dist threshold i q done x Hs Hl Ho Hk)
           as (Hs' & Hl' & Ho' & Hk');
         specialize (IH _ (done ++ [x]) Hs' Hl' Ho' Hk');
         rewrite <- app_assoc in IH; exact IH]);
    destruct (G stack [] []) as (Hs & Ho & Hk);
    [constructor|simpl; lia|by intros y ?%elem_of_nil
    |by intros c ?%elem_of_nil|].
  - exact Hs.
  - split; [exact Ho|]. intros c Hc. destruct (Hk c Hc) as [?|[_ ?]]; auto.
Qed.


(** ** What can stop a pass of exploration *)

Lemma explore_locality_total dist stale i K locality :
  1 ≤ K →
  ∀ hp pv, ∃ r, explore_locality dist stale i K locality hp pv = Ok r.
Proof.
  intros HK. induction locality as [|k rest IH]; intros hp pv; simpl.
  { by eexists. }
  destruct (k =? -1)%Z; [by eexists|].
  destruct (k =? i)%Z; [apply IH|].
  destruct (equal_range pv k) as [first second].
  destruct (deref stale pv first =? k)%Z; [apply IH|].
  destruct (Qeq_bool (dist i k) 0); [apply IH|].
  destruct (pq_size hp <? K) eqn:E; [apply IH|].
  destruct hp as [|top hp]; [apply Nat.ltb_ge in E; simpl in E; lia|].
  simpl. destruct (Qltb (dist i k) (d top)); apply IH.
Qed.

Lemma col_total rows N m j :
  shape rows N m → in_range N j → ∃ c, col m j = Ok c.
Proof.
  intros Hs [Hj0 HjN]. unfold col. rewrite bool_decide_eq_true_2 by done.
  destruct (shape_lookup _ _ _ (Z.to_nat j) Hs) as (c & -> & _); [lia|].
  by eexists.
Qed.

Lemma explore_neighborhood_total dist stale rows N old_knns i K neighborhood :
  1 ≤ K → shape rows N old_knns →
  Forall (λ e, e = (-1)%Z ∨ in_range N e) neighborhood →
  ∀ hp pv, ∃ r,
    explore_neighborhood dist stale old_knns i K neighborhood hp pv = Ok r.
Proof.
  intros HK Hs. induction 1 as [|j rest Hj Hrest IH]; intros hp pv; simpl.
  { by eexists. }
  destruct (j =? -1)%Z eqn:E1; [by eexists|].
  destruct (j =? i)%Z; [apply IH|].
  destruct (Qeq_bool (dist i j) 0); [apply IH|].
  apply Z.eqb_neq in E1. destruct Hj as [?|Hj]; [done|].
  destruct (col_total _ _ _ j Hs Hj) as (locality & ->). simpl.
  destruct (explore_locality_total dist stale i K locality HK
              (if K <? pq_size (pq_push (mkHeapObject (dist i j) j) hp)
               then pq_pop (pq_push (mkHeapObject (dist i j) j) hp)
               else pq_push (mkHeapObject (dist i j) j) hp) pv)
    as ([hp3 pv3] & ->).
  simpl. apply IH.
Qed.

Lemma col_lookup m (i : nat) c :
  cols m !! i = Some c → col m (Z.of_nat i) = Ok c.
Proof.
  intros H. unfold col. rewrite bool_decide_eq_true_2 by lia.
  by rewrite Nat2Z.id, H.
Qed.

Lemma drain_while_total bound q :
  ∀ j column, bound ≤ length column →
    ∃ r, drain_while bound q j column = Ok r.
Proof.
  induction q as [|top q IH]; intros j column Hc; simpl; [by eexists|].
  destruct (j <? bound) eqn:E; [|by eexists].
  apply Nat.ltb_lt in E. unfold write.
  replace (j <? length column) with true by (symmetry; apply Nat.ltb_lt; lia).
  simpl. apply IH. by rewrite length_insert.
Qed.

Lemma refine_column_cases interrupt dist stale rows N h old_knns K i knns p :
  1 ≤ K → i < N → length h = N →
  shape rows N old_knns → entries (index_or_none N) old_knns →
  shape K N knns →
  (∃ kp', refine_column interrupt dist stale h old_knns K i (knns, p) = Ok kp' ∧
          shape K N kp'.1) ∨
  refine_column interrupt dist stale h old_knns K i (knns, p)
  = Stop "Failure in neighborhood exploration - this should never happen.".
Proof.
  intros HK Hi Hh Hold Hent Hs. unfold refine_column.
  destruct (increment interrupt 1 p) as [[] p'].
  2:{ left. by eexists. }
  destruct (shape_lookup _ _ _ i Hold Hi) as (neighborhood & Hn & _).
  rewrite (col_lookup old_knns i neighborhood Hn). cbn [mbind result_bind].
  destruct (lookup_lt_is_Some_2 h i) as [pv ->]; [lia|].
  destruct (explore_neighborhood_total dist stale rows N old_knns
              (Z.of_nat i) K neighborhood HK Hold (Hent i _ Hn) [] pv)
    as ([hp pv'] & ->).
  cbn [mbind result_bind].
  destruct (shape_lookup _ _ _ i Hs Hi) as (column & Hc & Hl).
  rewrite (col_lookup knns i column Hc). cbn [mbind result_bind].
  destruct (drain_while_total K hp 0 column) as ([j column'] & Hd); [lia|].
  rewrite Hd. cbn [mbind result_bind].
  destruct (j =? 0); [by right|]. left. eexists. split; [done|]. simpl.
  apply set_col_shape; [done|].
  apply (drain_while_spec (λ _, True)) in Hd as [L _];
    [lia|by apply Forall_true|by apply Forall_true].
Qed.

Lemma refine_cases interrupt dist stale rows N h K old_knns p :
  1 ≤ K → length h = N →
  shape rows N old_knns → entries (index_or_none N) old_knns →
  (∃ knns p', refine interrupt dist stale h K N (old_knns, p) = Ok (knns, p') ∧
              shape K N knns ∧ entries (index_or_none N) knns) ∨
  refine interrupt dist stale h K N (old_knns, p)
  = Stop "Failure in neighborhood exploration - this should never happen.".
Proof.
  intros HK Hh Hold Hent. unfold refine.
  assert (G : ∀ l (kp : mat * Progress),
    (∀ i, i ∈ l → i < N) → shape K N kp.1 →
    (∃ kp', for_each l (refine_column interrupt dist stale h old_knns K) kp
            = Ok kp') ∨
    for_each l (refine_column interrupt dist stale h old_knns K) kp
    = Stop "Failure in neighborhood exploration - this should never happen.").
  { induction l as [|i l IH]; intros [knns q] Hl Hs; cbn [for_each].
    - left. by eexists.
    - destruct (refine_column_cases interrupt dist stale rows N h old_knns K i
                  knns q HK) as [(kp' & Hkp & Hs')|Hstop];
        [apply Hl, list_elem_of_here|done..|rewrite Hkp|rewrite Hstop; by right].
      cbn [mbind result_bind]. apply IH; [|done]. intros j Hj. apply Hl.
      by apply list_elem_of_further. }
  destruct (G (seq 0 N) (filled K N (-1), p)) as [([knns p'] & H)|H].
  - intros i Hi%elem_of_seq. lia.
  - apply filled_shape.
  - left. exists knns, p'. split; [done|].
    pose proof H as H'. fold (refine interrupt dist stale h K N (old_knns, p)) in H'.
    apply refine_inv in H' as [Hs He]; [|done]. split; [done|].
    eapply entries_mono; [|exact He]. apply explored_index_or_none.
  - by right.
Qed.

Lemma refine_loop_cases interrupt dist stale N h K :
  1 ≤ K → length h = N →
  ∀ Ts rows knns p,
    shape rows N knns → entries (index_or_none N) knns →
    (∃ r, for_each Ts (λ (_ : nat) kp, refine interrupt dist stale h K N kp)
            (knns, p) = Ok r) ∨
    for_each Ts (λ (_ : nat) kp, refine interrupt dist stale h K N kp) (knns, p)
    = Stop "Failure in neighborhood exploration - this should never happen.".
Proof.
  intros HK Hh. induction Ts as [|T Ts IH]; intros rows knns p Hs He;
    cbn [for_each].
  - left. by eexists.
  - destruct (refine_cases interrupt dist stale rows N h K knns p HK Hh Hs He)
      as [(knns' & p' & H & Hs' & He')|H]; rewrite H; [|by right].
    cbn [mbind result_bind]. by eapply IH.
Qed.

(** Once the read past the end of the visited vector is given a value, a
    run on two points or more, with [threshold] and [K] at least one,
    returns a matrix or stops with one of two messages. *)
Lemma searchTrees_cases interrupt project mid dist stale threshold
    n_trees K depth maxIter N :
  2 ≤ N → 1 ≤ threshold → 1 ≤ K →
  (∃ m p, searchTrees interrupt project mid dist stale threshold n_trees K depth
            maxIter N = Ok (m, p)) ∨
  searchTrees interrupt project mid dist stale threshold n_trees K depth maxIter N
  = Stop "Tree failure." ∨
  searchTrees interrupt project mid dist stale threshold n_trees K depth maxIter N
  = Stop "Failure in neighborhood exploration - this should never happen.".
Proof.
  intros HN Ht HK. unfold searchTrees, forest.
  destruct (forest_loop_cases interrupt project mid threshold depth N
              (seq 0 n_trees) HN
              (mkState (map (λ i, [Z.of_nat i]) (seq 0 N)) (mkProgress 0 false 0)))
    as [(s & H & HP)|H]; [apply seeds_pools_ok| |rewrite H; by right; left].
  rewrite H. cbn [mbind result_bind].
  destruct (check_abort interrupt (progress s)) as [[] p1].
  { left. by eexists _, _. }
  destruct (reduce_total interrupt dist threshold N (heap s) p1 Ht HP)
    as (knns & p2 & Hr & Hs).
  rewrite Hr. cbn [mbind result_bind].
  pose proof Hr as Hr'. apply reduce_inv in Hr' as [_ He]; [|done].
  destruct (check_abort interrupt p2) as [[] p3].
  { left. by eexists _, _. }
  destruct (refine_loop_cases interrupt dist stale N (heap s) K HK
              (proj1 HP) (seq 0 maxIter) threshold knns p3 Hs He)
    as [([m p] & Hm)|Hm]; rewrite Hm.
  - left. by exists m, p.
  - right. by right.
Qed.

(** X7: with two points or more, [threshold] and [K] at least one, the only
    messages [searchTrees] can stop with are "Tree failure." and "Failure in
    neighborhood exploration - this should never happen.": "Tree split
    failure." and "Bad neighbor matrix." cannot be reached, whatever the
    read past the end of the visited vector yields. *)
Theorem searchTrees_failure_modes interrupt project mid dist stale threshold
    n_trees K depth maxIter N msg :
  2 ≤ N → 1 ≤ threshold → 1 ≤ K →
  searchTrees interrupt project mid dist stale threshold n_trees K depth
    maxIter N = Stop msg →
  msg = "Tree failure." ∨
  msg = "Failure in neighborhood exploration - this should never happen.".
Proof.
  intros HN Ht HK H.
  destruct (searchTrees_cases interrupt project mid dist stale threshold
              n_trees K depth maxIter N HN Ht HK)
    as [(m & p & E)|[E|E]]; rewrite E in H.
  - discriminate.
  - inversion H. by left.
  - inversion H. by right.
Qed.

Lemma searchTrees_failure_modes_witness :
  "Failure in neighborhood exploration - this should never happen."
  = "Tree failure." ∨
  "Failure in neighborhood exploration - this should never happen."
  = "Failure in neighborhood exploration - this should never happen.".
Proof.
  apply (searchTrees_failure_modes no_interrupt flat mean coincident
           (stale_const 0) 4 2 2 1 1 3).
  - lia.
  - lia.
  - lia.
  - vm_compute. reflexivity.
Defined.


(** ** Normalizing twice *)

Lemma sort_int_sorted l : StronglySorted Z.le l → sort_int l = l.
Proof.
  intros Hs. unfold sort_int.
  apply (StronglySorted_unique Z.le); [|done|apply merge_sort_Permutation].
  apply StronglySorted_merge_sort; apply _.
Qed.

Lemma strictly_sorted_le l : StronglySorted Z.lt l → StronglySorted Z.le l.
Proof.
  induction 1 as [|x l Hl IH Hx]; constructor; [done|].
  eapply Forall_impl; [exact Hx|]. intros y Hy. simpl in Hy. lia.
Qed.

Lemma normalize_fixed h :
  Forall (λ l, StronglySorted Z.lt l ∧ 3 ≤ length l) h → normalize h = Ok h.
Proof.
  induction 1 as [|l h [Hs Hl] Hh IH]; simpl; [done|].
  rewrite sort_int_sorted by (by apply strictly_sorted_le).
  rewrite unique_id by done.
  replace (length l <? 3) with false by (symmetry; apply Nat.ltb_ge; lia).
  by rewrite IH.
Qed.

(** X8: the normalization pass keeps the number of pools and the members
    of every pool, and a second pass over its result changes nothing (which
    is why skipping it after the first tree is harmless once a later tree
    runs it). *)
Theorem normalize_idempotent h h' :
  normalize h = Ok h' →
  length h' = length h ∧
  (∀ i l l', h !! i = Some l → h' !! i = Some l' → ∀ x, x ∈ l' ↔ x ∈ l) ∧
  normalize h' = Ok h'.
Proof.
  intros H. apply normalize_Ok in H as [-> HF]. split; [|split].
  - by rewrite length_map.
  - intros i l l' Hl Hl'.
    change (((λ l, unique (sort_int l)) <$> h) !! i = Some l') in Hl'.
    rewrite list_lookup_fmap, Hl in Hl'. inversion Hl'; subst.
    intros x. by rewrite elem_of_unique, elem_of_sort_int.
  - apply normalize_fixed. apply Forall_forall. intros l' Hl'.
    split; [|rewrite Forall_forall in HF; by apply HF].
    change (l' ∈ (λ l, unique (sort_int l)) <$> h) in Hl'.
    apply list_elem_of_fmap in Hl' as (l & -> & _). apply unique_sort_sorted.
Qed.

Lemma normalize_idempotent_witness :
  length [[0; 1; 2]; [0; 1; 2]; [0; 1; 2]]%Z
  = length [[0; 1; 2; 1]; [1; 0; 2; 0]; [2; 0; 1; 1]]%Z ∧
  (∀ i l l', [[0; 1; 2; 1]; [1; 0; 2; 0]; [2; 0; 1; 1]]%Z !! i = Some l →
     [[0; 1; 2]; [0; 1; 2]; [0; 1; 2]]%Z !! i = Some l' →
     ∀ x, x ∈ l' ↔ x ∈ l) ∧
  normalize [[0; 1; 2]; [0; 1; 2]; [0; 1; 2]]%Z
  = Ok [[0; 1; 2]; [0; 1; 2]; [0; 1; 2]]%Z.
Proof.
  apply (normalize_idempotent [[0; 1; 2; 1]; [1; 0; 2; 0]; [2; 0; 1; 1]]%Z).
  vm_compute. reflexivity.
Defined.

(** ** The binary search on a sorted visited vector *)

Lemma sorted_at v :
  StronglySorted Z.le v →
  ∀ p q, p ≤ q → q < length v → (at_ v p ≤ at_ v q)%Z.
Proof.
  induction 1 as [|x l Hl IH Hx]; intros p q Hpq Hq; simpl in Hq; [lia|].
  destruct q as [|q].
  - replace p with 0 by lia. done.
  - destruct p as [|p].
    + unfold at_. simpl. rewrite Forall_forall in Hx.
      apply Hx. apply (at_elem_of l q). lia.
    + unfold at_. simpl. apply IH; lia.
Qed.

Lemma lower_bound_aux_spec v val :
  StronglySorted Z.le v →
  ∀ fuel first len,
    len ≤ fuel → first + len ≤ length v →
    first ≤ lower_bound_aux fuel v first len val ≤ first + len ∧
    (∀ p, first ≤ p < lower_bound_aux fuel v first len val →
          (at_ v p < val)%Z) ∧
    (∀ p, lower_bound_aux fuel v first len val ≤ p < first + len →
          (val ≤ at_ v p)%Z).
Proof.
  intros Hs. induction fuel as [|fuel IH]; intros first len Hf Hl;
    cbn [lower_bound_aux].
  { split; [lia|]. split; intros; lia. }
  destruct (len =? 0) eqn:E0.
  { apply Nat.eqb_eq in E0. subst. split; [lia|]. split; intros; lia. }
  apply Nat.eqb_neq in E0.
  assert (Hhalf : len / 2 < len) by (apply Nat.div_lt; lia).
  destruct (at_ v (first + len / 2) <? val)%Z eqn:Em.
  - apply Z.ltb_lt in Em.
    destruct (IH (S (first + len / 2)) (len - len / 2 - 1))
      as (Hr & Hlo & Hhi); [lia|lia|].
    split; [lia|]. split.
    + intros p Hp. destruct (decide (p ≤ first + len / 2)).
      * pose proof (sorted_at v Hs p (first + len / 2)). lia.
      * apply Hlo. lia.
    + intros p Hp. apply Hhi. lia.
  - apply Z.ltb_ge in Em.
    destruct (IH first (len / 2)) as (Hr & Hlo & Hhi); [lia|lia|].
    split; [lia|]. split.
    + intros p Hp. apply Hlo. lia.
    + intros p Hp. destruct (decide (p < first + len / 2)).
      * apply Hhi. lia.
      * pose proof (sorted_at v Hs (first + len / 2) p). lia.
Qed.

Lemma upper_bound_aux_spec v val :
  StronglySorted Z.le v →
  ∀ fuel first len,
    len ≤ fuel → first + len ≤ length v →
    first ≤ upper_bound_aux fuel v first len val ≤ first + len ∧
    (∀ p, first ≤ p < upper_bound_aux fuel v first len val →
          (at_ v p ≤ val)%Z) ∧
    (∀ p, upper_bound_aux fuel v first len val ≤ p < first + len →
          (val < at_ v p)%Z).
Proof.
  intros Hs. induction fuel as [|fuel IH]; intros first len Hf Hl;
    cbn [upper_bound_aux].
  { split; [lia|]. split; intros; lia. }
  destruct (len =? 0) eqn:E0.
  { apply Nat.eqb_eq in E0. subst. split; [lia|]. split; intros; lia. }
  apply Nat.eqb_neq in E0.
  assert (Hhalf : len / 2 < len) by (apply Nat.div_lt; lia).
  destruct (val <? at_ v (first + len / 2))%Z eqn:Em.
  - apply Z.ltb_lt in Em.
    destruct (IH first (len / 2)) as (Hr & Hlo & Hhi); [lia|lia|].
    split; [lia|]. split.
    + intros p Hp. apply Hlo. lia.
    + intros p Hp. destruct (decide (p < first + len / 2)).
      * apply Hhi. lia.
      * pose proof (sorted_at v Hs (first + len / 2) p). lia.
  - apply Z.ltb_ge in Em.
    destruct (IH (S (first + len / 2)) (len - len / 2 - 1))
      as (Hr & Hlo & Hhi); [lia|lia|].
    split; [lia|]. split.
    + intros p Hp. destruct (decide (p ≤ first + len / 2)).
      * pose proof (sorted_at v Hs p (first + len / 2)). lia.
      * apply Hlo. lia.
    + intros p Hp. apply Hhi. lia.
Qed.

Lemma equal_range_aux_spec v val :
  StronglySorted Z.le v →
  ∀ fuel first len,
    len ≤ fuel → first + len ≤ length v →
    let r := equal_range_aux fuel v first len val in
    first ≤ r.1 ∧ r.1 ≤ r.2 ∧ r.2 ≤ first + len ∧
    (∀ p, first ≤ p < r.1 → (at_ v p < val)%Z) ∧
    (∀ p, r.1 ≤ p < r.2 → at_ v p = val) ∧
    (∀ p, r.2 ≤ p < first + len → (val < at_ v p)%Z).
Proof.
  intros Hs. induction fuel as [|fuel IH]; intros first len Hf Hl;
    cbn [equal_range_aux].
  { simpl. repeat split; intros; lia. }
  destruct (len =? 0) eqn:E0.
  { apply Nat.eqb_eq in E0. subst. simpl. repeat split; intros; lia. }
  apply Nat.eqb_neq in E0.
  assert (Hhalf : len / 2 < len) by (apply Nat.div_lt; lia).
  destruct (at_ v (first + len / 2) <? val)%Z eqn:Em.
  - apply Z.ltb_lt in Em.
    destruct (IH (S (first + len / 2)) (len - len / 2 - 1))
      as (H1 & H2 & H3 & Hlo & Heq & Hhi); [lia|lia|].
    split; [lia|]. split; [lia|]. split; [lia|]. split; [|split].
    + intros p Hp. destruct (decide (p ≤ first + len / 2)).
      * pose proof (sorted_at v Hs p (first + len / 2)). lia.
      * apply Hlo. lia.
    + intros p Hp. by apply Heq.
    + intros p Hp. apply Hhi. lia.
  - apply Z.ltb_ge in Em.
    destruct (val <? at_ v (first + len / 2))%Z eqn:Em2.
    + apply Z.ltb_lt in Em2.
      destruct (IH first (len / 2))
        as (H1 & H2 & H3 & Hlo & Heq & Hhi); [lia|lia|].
      split; [lia|]. split; [lia|]. split; [lia|]. split; [|split].
      * intros p Hp. by apply Hlo.
      * intros p Hp. by apply Heq.
      * intros p Hp. destruct (decide (p < first + len / 2)).
        -- apply Hhi. lia.
        -- pose proof (sorted_at v Hs (first + len / 2) p). lia.
    + apply Z.ltb_ge in Em2.
      assert (Hmid : at_ v (first + len / 2) = val) by lia.
      unfold lower_bound, upper_bound.
      destruct (lower_bound_aux_spec v val Hs (first + len / 2 - first)
                  first (first + len / 2 - first))
        as (La & Llo & Lhi); [lia|lia|].
      destruct (upper_bound_aux_spec v val Hs
                  (first + len - S (first + len / 2))
                  (S (first + len / 2)) (first + len - S (first + len / 2)))
        as (Ub & Ulo & Uhi); [lia|lia|].
      cbn [fst snd].
      split; [lia|]. split; [lia|]. split; [lia|]. split; [|split].
      * intros p Hp. by apply Llo.
      * intros p Hp.
        destruct (decide (p < first + len / 2)).
        -- pose proof (Lhi p).
           pose proof (sorted_at v Hs p (first + len / 2)). lia.
        -- destruct (decide (p = first + len / 2)) as [->|]; [done|].
           pose proof (Ulo p).
           pose proof (sorted_at v Hs (first + len / 2) p). lia.
      * intros p Hp. apply Uhi. lia.
Qed.

Lemma equal_range_spec v val :
  StronglySorted Z.le v →
  (equal_range v val).1 ≤ (equal_range v val).2 ∧
  (equal_range v val).2 ≤ length v ∧
  (∀ p, p < (equal_range v val).1 → (at_ v p < val)%Z) ∧
  (∀ p, (equal_range v val).1 ≤ p < (equal_range v val).2 → at_ v p = val) ∧
  (∀ p, (equal_range v val).2 ≤ p < length v → (val < at_ v p)%Z).
Proof.
  intros Hs. unfold equal_range.
  destruct (equal_range_aux_spec v val Hs (length v) 0 (length v))
    as (H1 & H2 & H3 & Hlo & Heq & Hhi); [lia|lia|].
  simpl in *. split; [done|]. split; [done|]. split; [|split; [done|done]].
  intros p Hp. apply Hlo. lia.
Qed.

(** X9: on a visited vector that is sorted, the test of line 217 is exact
    whenever it reads inside the vector: the candidate is taken for seen if
    and only if it is a member.  When the position returned is the end of
    the vector, the candidate is not a member. *)
Theorem visited_lookup_exact stale v k :
  StronglySorted Z.le v →
  ((equal_range v k).1 < length v →
   ((deref stale v (equal_range v k).1 =? k)%Z = true ↔ k ∈ v)) ∧
  ((equal_range v k).1 = length v → k ∉ v).
Proof.
  intros Hs. destruct (equal_range_spec v k Hs) as (H1 & H2 & Hlo & Heq & Hhi).
  assert (Hmem : k ∈ v → (equal_range v k).1 < (equal_range v k).2).
  { intros (p & Hp)%list_elem_of_lookup.
    pose proof (lookup_lt_Some _ _ _ Hp) as Hlt.
    rewrite at_lookup in Hp by done.
    assert (Hp' : at_ v p = k) by congruence. clear Hp.
    destruct (decide (p < (equal_range v k).1)) as [Hc|Hc].
    { specialize (Hlo p Hc). lia. }
    destruct (decide ((equal_range v k).2 ≤ p)) as [Hc'|Hc'].
    { pose proof (Hhi p (conj Hc' Hlt)). lia. }
    lia. }
  split.
  - intros Hin. unfold deref. rewrite at_lookup by done. rewrite Z.eqb_eq.
    split.
    + intros <-. by apply at_elem_of.
    + intros Hk. apply Heq. specialize (Hmem Hk). lia.
  - intros Hend Hk. specialize (Hmem Hk). lia.
Qed.

Lemma visited_lookup_exact_witness :
  ((equal_range [0; 1; 2; 4]%Z 3).1 < length [0; 1; 2; 4]%Z →
   ((deref (stale_const 3) [0; 1; 2; 4]%Z (equal_range [0; 1; 2; 4]%Z 3).1
       =? 3)%Z = true ↔ 3%Z ∈ [0; 1; 2; 4]%Z)) ∧
  ((equal_range [0; 1; 2; 4]%Z 3).1 = length [0; 1; 2; 4]%Z →
   3%Z ∉ [0; 1; 2; 4]%Z).
Proof.
  apply (visited_lookup_exact (stale_const 3) [0; 1; 2; 4]%Z 3).
  repeat constructor; lia.
Defined.

Lemma Forall_take_at (P : Z → Prop) v b :
  (∀ p, p < b → p < length v → P (at_ v p)) → Forall P (take b v).
Proof.
  intros H. apply Forall_lookup. intros p x Hp.
  pose proof (lookup_lt_Some _ _ _ Hp) as Hlt. rewrite length_take in Hlt.
  rewrite lookup_take_lt in Hp by lia.
  rewrite at_lookup in Hp by lia. inversion Hp; subst. apply H; lia.
Qed.

Lemma Forall_drop_at (P : Z → Prop) v b :
  (∀ p, b ≤ p < length v → P (at_ v p)) → Forall P (drop b v).
Proof.
  intros H. apply Forall_lookup. intros p x Hp.
  pose proof (lookup_lt_Some _ _ _ Hp) as Hlt. rewrite length_drop in Hlt.
  rewrite lookup_drop in Hp.
  rewrite at_lookup in Hp by lia. inversion Hp; subst. apply H; lia.
Qed.

Lemma visit_insert_at v b k : b ≤ length v → visit v b k = insert_at b k v.
Proof.
  intros Hb. unfold visit, insert_at. destruct (b =? length v) eqn:E; [|done].
  apply Nat.eqb_eq in E. subst. by rewrite take_ge, drop_ge by lia.
Qed.

Lemma visit_sorted v k :
  StronglySorted Z.le v →
  StronglySorted Z.le (visit v (equal_range v k).2 k) ∧
  ∀ x, x ∈ visit v (equal_range v k).2 k ↔ x = k ∨ x ∈ v.
Proof.
  intros Hs. destruct (equal_range_spec v k Hs) as (H1 & H2 & Hlo & Heq & Hhi).
  set (b := (equal_range v k).2) in *.
  rewrite visit_insert_at by done. unfold insert_at.
  assert (Hle : Forall (λ x, (x ≤ k)%Z) (take b v)).
  { apply Forall_take_at. intros p Hp Hl.
    destruct (decide (p < (equal_range v k).1)) as [Hc|Hc].
    - specialize (Hlo p Hc). lia.
    - rewrite Heq; lia. }
  assert (Hgt : Forall (λ x, (k < x)%Z) (drop b v))
    by (apply Forall_drop_at; intros p Hp; by apply Hhi).
  pose proof Hs as Hs'. rewrite <- (take_drop b v) in Hs'.
  apply StronglySorted_app in Hs' as (_ & Hst & Hsd).
  split.
  - apply StronglySorted_app_2; [|done|].
    + intros x1 x2 Hx1 Hx2. rewrite Forall_forall in Hle, Hgt.
      specialize (Hle x1 Hx1). apply elem_of_cons in Hx2 as [->|Hx2]; [done|].
      specialize (Hgt x2 Hx2). lia.
    + constructor; [done|]. eapply Forall_impl; [exact Hgt|].
      intros x Hx. simpl in Hx. lia.
  - intros x. rewrite elem_of_app, elem_of_cons.
    rewrite <- (take_drop b v) at 3. rewrite elem_of_app. tauto.
Qed.

Lemma explore_locality_sorted dist stale i K locality :
  ∀ hp pv hp' pv',
    StronglySorted Z.le pv →
    explore_locality dist stale i K locality hp pv = Ok (hp', pv') →
    StronglySorted Z.le pv' ∧
    (∀ x, x ∈ pv → x ∈ pv') ∧
    (∀ x, x ∈ pv' → x ∈ pv ∨ x ∈ locality).
Proof.
  induction locality as [|k rest IH]; intros hp pv hp' pv' Hs H; simpl in H.
  { inversion H; subst. auto. }
  assert (Hrest : ∀ hp0, explore_locality dist stale i K rest hp0 pv
                         = Ok (hp', pv') →
            StronglySorted Z.le pv' ∧ (∀ x, x ∈ pv → x ∈ pv') ∧
            (∀ x, x ∈ pv' → x ∈ pv ∨ x ∈ k :: rest)).
  { intros hp0 H0. destruct (IH _ _ _ _ Hs H0) as (S1 & I1 & O1).
    split; [done|]. split; [done|]. intros x Hx.
    destruct (O1 x Hx); [by left|right; by apply list_elem_of_further]. }
  destruct (k =? -1)%Z; [inversion H; subst; auto|].
  destruct (k =? i)%Z; [by eapply Hrest|].
  destruct (equal_range pv k) as [first second] eqn:Er.
  destruct (deref stale pv first =? k)%Z; [by eapply Hrest|].
  fold (visit pv second k) in H.
  destruct (visit_sorted pv k Hs) as [Sv Mv]. rewrite Er in Sv, Mv. simpl in *.
  assert (Hvis : ∀ hp0, explore_locality dist stale i K rest hp0
                          (visit pv second k) = Ok (hp', pv') →
            StronglySorted Z.le pv' ∧ (∀ x, x ∈ pv → x ∈ pv') ∧
            (∀ x, x ∈ pv' → x ∈ pv ∨ x ∈ k :: rest)).
  { intros hp0 H0. destruct (IH _ _ _ _ Sv H0) as (S1 & I1 & O1).
    split; [done|]. split.
    - intros x Hx. apply I1, Mv. by right.
    - intros x Hx. destruct (O1 x Hx) as [Hv|Hr].
      + apply Mv in Hv as [->|Hv]; [right; apply list_elem_of_here|by left].
      + right. by apply list_elem_of_further. }
  destruct (Qeq_bool (dist i k) 0); [by eapply Hvis|].
  destruct (pq_size hp <? K); [by eapply Hvis|].
  destruct (pq_top hp) as [top|]; [|done].
  destruct (Qltb (dist i k) (d top)); by eapply Hvis.
Qed.

(** X10: exploring the neighbours of a point keeps its visited vector
    sorted when it starts sorted; nothing visited is forgotten, and what is
    added are entries of the columns of the neighbours. *)
Theorem explore_neighborhood_sorted dist stale old_knns i K neighborhood :
  ∀ hp pv hp' pv',
    StronglySorted Z.le pv →
    explore_neighborhood dist stale old_knns i K neighborhood hp pv
      = Ok (hp', pv') →
    StronglySorted Z.le pv' ∧
    (∀ x, x ∈ pv → x ∈ pv') ∧
    (∀ x, x ∈ pv' →
       x ∈ pv ∨ ∃ j c, j ∈ neighborhood ∧ col old_knns j = Ok c ∧ x ∈ c).
Proof.
  induction neighborhood as [|j rest IH]; intros hp pv hp' pv' Hs H;
    simpl in H.
  { inversion H; subst. auto. }
  assert (Hrest : ∀ hp0, explore_neighborhood dist stale old_knns i K rest
                           hp0 pv = Ok (hp', pv') →
            StronglySorted Z.le pv' ∧ (∀ x, x ∈ pv → x ∈ pv') ∧
            (∀ x, x ∈ pv' → x ∈ pv ∨
               ∃ j' c, j' ∈ j :: rest ∧ col old_knns j' = Ok c ∧ x ∈ c)).
  { intros hp0 H0. destruct (IH _ _ _ _ Hs H0) as (S1 & I1 & O1).
    split; [done|]. split; [done|]. intros x Hx.
    destruct (O1 x Hx) as [?|(j' & c & Hj' & Hc & Hxc)]; [by left|].
    right. exists j', c. split; [by apply list_elem_of_further|done]. }
  destruct (j =? -1)%Z; [inversion H; subst; auto|].
  destruct (j =? i)%Z; [by eapply Hrest|].
  destruct (Qeq_bool (dist i j) 0); [by eapply Hrest|].
  apply bind_Ok in H as (locality & Hc & H).
  apply bind_Ok in H as ([hp3 pv3] & Hl & H).
  apply explore_locality_sorted in Hl as (S3 & I3 & O3); [|done].
  destruct (IH _ _ _ _ S3 H) as (S1 & I1 & O1).
  split; [done|]. split; [intros x Hx; by apply I1, I3|].
  intros x Hx. destruct (O1 x Hx) as [Hx3|(j' & c & Hj' & Hc' & Hxc)].
  - destruct (O3 x Hx3) as [?|Hloc]; [by left|].
    right. exists j, locality. split; [apply list_elem_of_here|done].
  - right. exists j', c. split; [by apply list_elem_of_further|done].
Qed.

Lemma explore_neighborhood_sorted_witness :
  StronglySorted Z.le [0; 1; 2; 4; 5]%Z ∧
  (∀ x, x ∈ [0; 1; 2; 4]%Z → x ∈ [0; 1; 2; 4; 5]%Z) ∧
  (∀ x, x ∈ [0; 1; 2; 4; 5]%Z →
     x ∈ [0; 1; 2; 4]%Z ∨
     ∃ j c, j ∈ [2; 1; 0]%Z ∧
       col (mkMat 3 [[2; 1; 0]; [0; 5; 1]; [0; 1; 2]; [1; 5; 3]; [2; 3; 4];
                     [3; 1; 5]]%Z) j = Ok c ∧ x ∈ c).
Proof.
  apply (explore_neighborhood_sorted six_folded (stale_const (-7))
           (mkMat 3 [[2; 1; 0]; [0; 5; 1]; [0; 1; 2]; [1; 5; 3]; [2; 3; 4];
                     [3; 1; 5]]%Z) 0 2 [2; 1; 0]%Z [] [0; 1; 2; 4]%Z
           [mkHeapObject (25 # 1) 5; mkHeapObject (16 # 1) 1]
           [0; 1; 2; 4; 5]%Z).
  - repeat constructor; lia.
  - vm_compute. reflexivity.
Defined.

(** ** Candidates are mutual *)

Lemma elem_of_delete_at (l : list Z) k x :
  x ∈ delete k l ↔ ∃ p, p ≠ k ∧ l !! p = Some x.
Proof.
  rewrite delete_take_drop, elem_of_app, elem_of_take. split.
  - intros [(p & Hp & Hlt)|Hd].
    + exists p. split; [lia|done].
    + apply list_elem_of_lookup in Hd as (p & Hp). rewrite lookup_drop in Hp.
      exists (S k + p). split; [lia|done].
  - intros (p & Hne & Hp). destruct (decide (p < k)) as [Hlt|Hge].
    + left. by exists p.
    + right. apply list_elem_of_lookup. exists (p - S k).
      rewrite lookup_drop. by replace (S k + (p - S k)) with p by lia.
Qed.

Lemma co_leaf_lookup indices h h' :
  Forall (in_range (length h)) indices → NoDup indices →
  co_leaf indices h = Ok h' →
  ∀ x l', h' !! x = Some l' →
    ∃ l, h !! x = Some l ∧
      (((Z.of_nat x ∉ indices) ∧ l' = l) ∨
       (∃ k, k < length indices ∧ at_ indices k = Z.of_nat x ∧
             l' = l ++ delete k indices)).
Proof.
  intros Hr Hnd H x l' Hx.
  destruct (co_leaf_spec indices h Hr Hnd) as (h2 & H2 & L & A & B).
  rewrite H in H2. inversion H2; subst h2. clear H2.
  destruct (decide (Z.of_nat x ∈ indices)) as [Hin|Hnin].
  - apply list_elem_of_lookup in Hin as (k & Hk).
    pose proof (lookup_lt_Some _ _ _ Hk) as Hlt.
    rewrite at_lookup in Hk by done. inversion Hk as [Hk'].
    specialize (A k Hlt). rewrite Hk', Nat2Z.id, Hx in A.
    destruct (h !! x) as [l|]; [|done]. simpl in A. inversion A; subst.
    exists l. split; [done|]. right. by exists k.
  - rewrite (B x Hnin) in Hx. exists l'. split; [done|]. by left.
Qed.

Lemma co_leaf_symmetric indices h h' :
  Forall (in_range (length h)) indices → NoDup indices →
  symmetric_pools h → co_leaf indices h = Ok h' → symmetric_pools h'.
Proof.
  intros Hr Hnd Hsym H i j li' lj' Hi Hj Hin.
  destruct (co_leaf_lookup indices h h' Hr Hnd H i li' Hi) as (li & Hli & Ci).
  destruct (co_leaf_lookup indices h h' Hr Hnd H j lj' Hj) as (lj & Hlj & Cj).
  assert (Hold : Z.of_nat j ∈ li → Z.of_nat i ∈ lj').
  { intros Ho. pose proof (Hsym i j li lj Hli Hlj Ho) as Hs.
    destruct Cj as [[_ ->]|(k & _ & _ & ->)]; [done|].
    apply elem_of_app. by left. }
  destruct Ci as [[_ ->]|(ki & Hki & Hati & ->)]; [by apply Hold|].
  apply elem_of_app in Hin as [Ho|Hd]; [by apply Hold|].
  apply elem_of_delete_at in Hd as (p & Hp & Hlp).
  destruct Cj as [[Hnin _]|(kj & Hkj & Hatj & ->)].
  { destruct Hnin. apply list_elem_of_lookup. by exists p. }
  apply elem_of_app. right. apply elem_of_delete_at.
  exists ki. split; [|rewrite <- Hati; by apply at_lookup].
  intros ->. apply Hp.
  eapply (NoDup_lookup indices p kj (Z.of_nat j)); [done|done|].
  rewrite <- Hatj. by apply at_lookup.
Qed.

Lemma pair_leaf_co_leaf indices h :
  length indices = 2 → pair_leaf indices h = co_leaf indices h.
Proof.
  intros HI. unfold pair_leaf, co_leaf. rewrite HI. simpl.
  destruct (push_back (at_ indices 0) (at_ indices 1) h) as [h1| |]; simpl;
    [|done|done].
  by destruct (push_back (at_ indices 1) (at_ indices 0) h1).
Qed.

Lemma subvec_NoDup v first last : NoDup v → NoDup (subvec v first last).
Proof.
  intros Hnd. unfold subvec.
  apply (sublist_NoDup _ (drop first v)); [|apply sublist_take].
  by apply (sublist_NoDup _ v); [|apply sublist_drop].
Qed.

Lemma searchTree_symmetric interrupt project mid threshold iterations :
  ∀ indices t path s s',
    NoDup indices → Forall (in_range (length (heap s))) indices →
    symmetric_pools (heap s) →
    searchTree interrupt project mid threshold indices iterations t path s = Ok s' →
    symmetric_pools (heap s').
Proof.
  induction iterations as [|it IH]; intros indices t path s s' Hnd Hr Hsym H;
    cbn [searchTree] in H;
    destruct (check_abort interrupt (progress s)) as [[] p] eqn:Hc;
    try (by inversion H; subst);
    (destruct (length indices <? 2) eqn:E2; [done|]);
    (destruct (length indices =? 2) eqn:E3;
     [apply Nat.eqb_eq in E3; rewrite pair_leaf_co_leaf in H by done;
      apply bind_Ok in H as (h' & H1 & H2); inversion H2; subst; simpl;
      by eapply co_leaf_symmetric|]).
  - apply leaf_node_Ok in H as [H1 _]. by eapply co_leaf_symmetric.
  - destruct (length indices <? threshold).
    { apply leaf_node_Ok in H as [H1 _]. by eapply co_leaf_symmetric. }
    assert (Hsub : ∀ a b : list Z,
      NoDup a → NoDup b →
      (∀ x, x ∈ a → x ∈ indices) → (∀ x, x ∈ b → x ∈ indices) →
      (searchTree interrupt project mid threshold a it t (path ++ [false])
         (mkState (heap s) p)
       ≫= searchTree interrupt project mid threshold b it t (path ++ [true]))
      = Ok s' → symmetric_pools (heap s')).
    { intros a b Na Nb Ha Hb H0. rewrite Forall_forall in Hr.
      apply bind_Ok in H0 as (s1 & H1 & H2).
      pose proof H1 as G1. apply searchTree_grows in G1 as [[L1 _] _].
      simpl in L1.
      assert (S1 : symmetric_pools (heap s1)).
      { apply (IH a t (path ++ [false]) (mkState (heap s) p) s1);
          [exact Na| |exact Hsym|exact H1].
        apply Forall_forall. intros x Hx. simpl. apply Hr. auto. }
      apply (IH b t (path ++ [true]) s1 s'); [exact Nb| |exact S1|exact H2].
      apply Forall_forall. intros x Hx. rewrite L1. apply Hr. auto. }
    match type of H with
    | (if ?c then _ else _) = _ => destruct c
    end; apply Hsub in H; try done.
    + rewrite elem_find. by apply NoDup_ListNoDup, List.NoDup_filter, NoDup_ListNoDup.
    + rewrite elem_find. by apply NoDup_ListNoDup, List.NoDup_filter, NoDup_ListNoDup.
    + intros x. apply elem_find_subseteq.
    + intros x. apply elem_find_subseteq.
    + by apply subvec_NoDup.
    + by apply subvec_NoDup.
    + intros x. apply subvec_subseteq.
    + intros x. apply subvec_subseteq.
Qed.

Lemma regspace_NoDup N : NoDup (regspace N).
Proof.
  unfold regspace. destruct N.
  - apply NoDup_cons. split; [|apply NoDup_singleton].
    intros Hin%list_elem_of_singleton. done.
  - apply NoDup_fmap_2; [apply _|apply NoDup_seq].
Qed.

Lemma normalize_symmetric h h' :
  symmetric_pools h → normalize h = Ok h' → symmetric_pools h'.
Proof.
  intros Hsym H i j li' lj' Hi Hj Hin.
  apply normalize_Ok in H as [-> _].
  change (((λ l, unique (sort_int l)) <$> h) !! i = Some li') in Hi.
  change (((λ l, unique (sort_int l)) <$> h) !! j = Some lj') in Hj.
  rewrite list_lookup_fmap in Hi, Hj.
  destruct (h !! i) as [li|] eqn:Ei; [|done].
  destruct (h !! j) as [lj|] eqn:Ej; [|done].
  inversion Hi; inversion Hj; subst.
  rewrite elem_of_unique, elem_of_sort_int in Hin.
  rewrite elem_of_unique, elem_of_sort_int. by eapply Hsym.
Qed.

Lemma grow_tree_symmetric interrupt project mid threshold depth N t s s' :
  pools_ok N (heap s) → symmetric_pools (heap s) →
  grow_tree interrupt project mid threshold depth N t s = Ok s' →
  symmetric_pools (heap s').
Proof.
  intros HP Hsym H. unfold grow_tree in H.
  destruct (check_abort interrupt (progress s)) as [[] p] eqn:Hc.
  { by inversion H; subst. }
  apply bind_Ok in H as (s1 & H1 & H2).
  assert (S1 : symmetric_pools (heap s1)).
  { destruct N as [|N'].
    - apply searchTree_grows in H1 as [[L _] _]. simpl in L.
      destruct HP as [HL _]. rewrite HL in L.
      destruct (heap s1); [|done]. intros i j li lj Hi. done.
    - apply (searchTree_symmetric interrupt project mid threshold depth
               (regspace (S N')) t [] (mkState (heap s) p) s1);
        [apply regspace_NoDup| |exact Hsym|exact H1].
      apply Forall_forall. intros x Hx. simpl. destruct HP as [-> _].
      by apply regspace_in_range. }
  destruct (0 <? t); [|by inversion H2; subst].
  destruct (check_abort interrupt (progress s1)) as [[] p1].
  { by inversion H2; subst. }
  apply bind_Ok in H2 as (h & H2 & H3). inversion H3; subst. simpl.
  by eapply normalize_symmetric.
Qed.

(** X11: the candidate pools the forest leaves are mutual: if [j] is among
    the candidates of [i] then [i] is among the candidates of [j], for any
    number of trees and whether or not the flag was raised on the way. *)
Theorem forest_pools_symmetric interrupt project mid threshold n_trees depth N s
    i j li lj :
  forest interrupt project mid threshold n_trees depth N = Ok s →
  heap s !! i = Some li → heap s !! j = Some lj →
  Z.of_nat j ∈ li → Z.of_nat i ∈ lj.
Proof.
  intros H. unfold forest in H.
  apply (for_each_inv (λ s, pools_ok N (heap s) ∧ symmetric_pools (heap s)))
    in H.
  - destruct H as [_ Hsym]. apply Hsym.
  - intros t a b _ [HP Hsym] Hb. split.
    + by eapply grow_tree_pools_ok.
    + by eapply grow_tree_symmetric.
  - split; [apply seeds_pools_ok|]. simpl.
    intros a b la lb Ha Hb Hin.
    change (((λ i, [Z.of_nat i]) <$> seq 0 N) !! a = Some la) in Ha.
    change (((λ i, [Z.of_nat i]) <$> seq 0 N) !! b = Some lb) in Hb.
    rewrite list_lookup_fmap in Ha, Hb.
    destruct (seq 0 N !! a) as [a'|] eqn:Ea; [|done].
    destruct (seq 0 N !! b) as [b'|] eqn:Eb; [|done].
    apply lookup_seq in Ea as [-> _]. apply lookup_seq in Eb as [-> _].
    inversion Ha; inversion Hb; subst.
    apply list_elem_of_singleton in Hin.
    apply list_elem_of_singleton. simpl in *. lia.
Qed.

Lemma forest_pools_symmetric_witness : Z.of_nat 1 ∈ [1; 3; 4; 5]%Z.
Proof.
  apply (forest_pools_symmetric no_interrupt six_split mean 3 2 1 6
           (mkState [[0; 1; 2; 4]; [0; 1; 2; 3; 5]; [0; 1; 2; 4];
                     [1; 3; 4; 5]; [0; 2; 3; 4; 5]; [1; 3; 4; 5]]%Z
              (mkProgress 12 false 13))
           1 3 [0; 1; 2; 3; 5]%Z [1; 3; 4; 5]%Z).
  - vm_compute. reflexivity.
  - reflexivity.
  - reflexivity.
  - apply list_elem_of_In. simpl. auto.
Defined.

(** ** A point that coincides with all others *)

Lemma explore_neighborhood_duplicates dist stale old_knns i K neighborhood
    hp pv :
  (∀ b, (dist i b == 0)%Q) →
  explore_neighborhood dist stale old_knns i K neighborhood hp pv
  = Ok (hp, pv).
Proof.
  intros Hd. induction neighborhood as [|j rest IH]; [done|].
  cbn [explore_neighborhood].
  destruct (j =? -1)%Z; [done|]. destruct (j =? i)%Z; [done|].
  assert (E : Qeq_bool (dist i j) 0 = true) by apply Qeq_bool_iff, Hd.
  by rewrite E.
Qed.

Lemma refine_column_aborted interrupt dist stale h old_knns K i knns p :
  aborted p = true →
  refine_column interrupt dist stale h old_knns K i (knns, p) = Ok (knns, p).
Proof. intros Ha. unfold refine_column, increment. by rewrite Ha. Qed.

Lemma refine_column_duplicate interrupt dist stale h old_knns K i knns p kp' :
  (∀ b, (dist (Z.of_nat i) b == 0)%Q) →
  refine_column interrupt dist stale h old_knns K i (knns, p) = Ok kp' →
  aborted kp'.2 = true.
Proof.
  intros Hd H. unfold refine_column in H.
  destruct (increment interrupt 1 p) as [[] p'] eqn:Hi.
  - apply bind_Ok in H as (neighborhood & _ & H).
    destruct (h !! i) as [pv|]; [|done].
    rewrite explore_neighborhood_duplicates in H by done.
    cbn [mbind result_bind] in H.
    apply bind_Ok in H as (column & _ & H). by destruct K.
  - inversion H; subst. simpl. by eapply increment_false.
Qed.

Lemma refine_duplicate interrupt dist stale h K N i old_knns p knns p' :
  i < N → (∀ b, (dist (Z.of_nat i) b == 0)%Q) →
  refine interrupt dist stale h K N (old_knns, p) = Ok (knns, p') →
  aborted p' = true.
Proof.
  intros Hi Hd H. unfold refine in H.
  refine (for_each_seq_inv (λ m kp, i < m → aborted kp.2 = true) N _ _
            (knns, p') _ _ H Hi); [|simpl; lia].
  intros m [a pa] b Hm IH Hb Him.
  destruct (decide (i = m)) as [->|Hne].
  - by eapply refine_column_duplicate.
  - rewrite refine_column_aborted in Hb by (apply IH; lia).
    by inversion Hb; subst; apply IH; lia.
Qed.

Lemma refine_aborted interrupt dist stale h K N old_knns p knns p' :
  aborted p = true →
  refine interrupt dist stale h K N (old_knns, p) = Ok (knns, p') →
  aborted p' = true.
Proof.
  intros Ha H. unfold refine in H.
  apply (for_each_inv (λ kp, aborted kp.2 = true)) in H; [done| |done].
  intros m [a pa] b _ IH Hb. simpl in IH.
  rewrite refine_column_aborted in Hb by done. by inversion Hb; subst.
Qed.

(** X12: a point at distance zero from every point blocks the exploration.
    With at least one pass asked for, the only runs that return are those
    that saw the abort flag: a live pass over the column of such a point
    finds its queue empty and stops with "Failure in neighborhood exploration
    - this should never happen.". *)
Theorem duplicate_point_blocks_exploration interrupt project mid dist stale
    threshold n_trees K depth maxIter N i m p :
  i < N → 1 ≤ maxIter → (∀ b, (dist (Z.of_nat i) b == 0)%Q) →
  searchTrees interrupt project mid dist stale threshold n_trees K depth maxIter N
    = Ok (m, p) →
  aborted p = true.
Proof.
  intros Hi HT Hd H.
  apply searchTrees_Ok in H as [[_ Ha]|(s & knns & p3 & _ & _ & _ & _ & H)];
    [done|].
  destruct maxIter as [|T]; [lia|].
  change (seq 0 (S T)) with ([0] ++ seq 1 T) in H.
  rewrite for_each_app in H. apply bind_Ok in H as ([m1 p1] & H1 & H2).
  cbn [for_each] in H1. apply bind_Ok in H1 as ([m0 p0] & H0 & H1).
  inversion H1; subst.
  apply (refine_duplicate _ _ _ _ _ _ i) in H0; [|done|done].
  apply (for_each_inv (λ kp, aborted kp.2 = true)) in H2; [done| |done].
  intros x [a pa] [b pb] _ IH Hb. by eapply refine_aborted.
Qed.

Lemma duplicate_point_blocks_exploration_witness :
  aborted (mkProgress 9 true 13) = true.
Proof.
  apply (duplicate_point_blocks_exploration (interrupt_from 12) flat mean coincident
           (stale_const 0) 4 2 2 1 1 3 0
           (mkMat 2 [[-1; -1]; [-1; -1]; [-1; -1]]%Z)).
  - lia.
  - lia.
  - intros b. reflexivity.
  - vm_compute. reflexivity.
Defined.

(** ** Sentinels only at the bottom of a column *)

Lemma write_sentinel j v c :
  j < length c → v ≠ (-1)%Z → sentinel_terminated c → starts_real j c →
  sentinel_terminated (<[j:=v]> c) ∧ starts_real (S j) (<[j:=v]> c).
Proof.
  intros Hj Hv Hs Hp. split.
  - intros a b Hab Hb Ha. rewrite length_insert in Hb.
    destruct (decide (a = j)) as [->|Hne].
    + rewrite list_lookup_insert_eq in Ha by done. congruence.
    + rewrite list_lookup_insert_ne in Ha by done.
      destruct (decide (a < j)) as [Hlt|Hge].
      * destruct (Hp a Hlt) as (x & Hx & Hx'). congruence.
      * rewrite list_lookup_insert_ne by lia. by apply (Hs a b).
  - intros a Ha. destruct (decide (a = j)) as [->|Hne].
    + exists v. by rewrite list_lookup_insert_eq.
    + rewrite list_lookup_insert_ne by done. apply Hp. lia.
Qed.

Lemma starts_real_le j j' c : j ≤ j' → starts_real j' c → starts_real j c.
Proof. intros Hj Hp a Ha. apply Hp. lia. Qed.

Lemma sentinel_terminated_replicate k :
  sentinel_terminated (replicate k (-1)%Z).
Proof.
  intros a b _ Hb _. rewrite length_replicate in Hb.
  by apply lookup_replicate_2.
Qed.

Lemma drain_do_sentinel bound q :
  ∀ j column j' column',
    drain_do bound q j column = Ok (j', column') →
    Forall (λ x, n x ≠ (-1)%Z) q →
    sentinel_terminated column → starts_real j column →
    sentinel_terminated column' ∧ starts_real j' column' ∧ j < j'.
Proof.
  induction q as [|top q IH]; intros j column j' column' H Hq Hs Hp;
    simpl in H; [done|].
  apply bind_Ok in H as (c1 & H1 & H2). apply write_Ok in H1 as [Hj ->].
  apply Forall_cons in Hq as [Ht Hq].
  destruct (write_sentinel j (n top) column Hj Ht Hs Hp) as [Hs' Hp'].
  destruct ((S j <? bound) && negb (pq_empty q)).
  - apply IH in H2 as (? & ? & ?); [|done|done|done].
    split; [done|]. split; [done|lia].
  - inversion H2; subst. split; [done|]. split; [done|lia].
Qed.

Lemma drain_while_sentinel bound q :
  ∀ j column j' column',
    drain_while bound q j column = Ok (j', column') →
    Forall (λ x, n x ≠ (-1)%Z) q →
    sentinel_terminated column → starts_real j column →
    sentinel_terminated column' ∧ starts_real j' column'.
Proof.
  induction q as [|top q IH]; intros j column j' column' H Hq Hs Hp;
    simpl in H.
  - by inversion H; subst.
  - destruct (j <? bound); [|by inversion H; subst].
    apply bind_Ok in H as (c1 & H1 & H2). apply write_Ok in H1 as [Hj ->].
    apply Forall_cons in Hq as [Ht Hq].
    destruct (write_sentinel j (n top) column Hj Ht Hs Hp) as [Hs' Hp'].
    by apply IH in H2.
Qed.

Lemma reduce_column_done interrupt dist threshold N h i kp kp' :
  (∀ l, h !! i = Some l → Forall (in_range N) l) →
  reduce_column interrupt dist threshold h i kp = Ok kp' →
  column_done i kp kp'.
Proof.
  intros Hh H. destruct kp as [knns p]. unfold reduce_column in H.
  destruct (increment interrupt 1 p) as [live p'] eqn:Hi.
  destruct live.
  2:{ inversion H; subst. split; [done|]. intros Hs. split; [done|].
      simpl. intros Ha. apply increment_false in Hi. congruence. }
  destruct (h !! i) as [stack|] eqn:Hst; [|done].
  apply bind_Ok in H as (column & H1 & H2). apply col_of_nat in H1.
  apply bind_Ok in H2 as ([j column'] & H2 & H3).
  destruct ((j =? 1) && (at_ column' 0 =? -1)%Z); [done|].
  inversion H3; subst. unfold column_done, n_cols. simpl.
  split; [by rewrite length_insert|]. intros Hs.
  apply drain_do_sentinel in H2 as (S1 & S2 & Hj).
  - split; [by apply Forall_insert|].
    intros _. apply increment_true in Hi as [Ha _]. split; [done|].
    exists column'. split; [done|]. eapply starts_real_le; [|exact S2]. lia.
  - apply (nearest_Forall dist (λ e, e ≠ (-1)%Z)).
    eapply Forall_impl; [by apply Hh|]. intros x [? ?]. lia.
  - by eapply Forall_lookup_1.
  - intros a Ha. lia.
Qed.

Lemma refine_column_done interrupt dist stale N h old_knns K i kp kp' :
  entries (index_or_none N) old_knns →
  refine_column interrupt dist stale h old_knns K i kp = Ok kp' →
  column_done i kp kp'.
Proof.
  intros Hold H. destruct kp as [knns p]. unfold refine_column in H.
  destruct (increment interrupt 1 p) as [live p'] eqn:Hi.
  destruct live.
  2:{ inversion H; subst. split; [done|]. intros Hs. split; [done|].
      simpl. intros Ha. apply increment_false in Hi. congruence. }
  apply bind_Ok in H as (neighborhood & H1 & H2). apply col_of_nat in H1.
  destruct (h !! i) as [pastVisitors|]; [|done].
  apply bind_Ok in H2 as ([hp pv] & H2 & H3).
  eapply explore_neighborhood_inv in H2;
    [|exact Hold|by apply (Hold i)|constructor].
  apply bind_Ok in H3 as (column & H3 & H4). apply col_of_nat in H3.
  apply bind_Ok in H4 as ([j column'] & H4 & H5).
  destruct (j =? 0) eqn:Ej; [done|]. apply Nat.eqb_neq in Ej.
  inversion H5; subst. unfold column_done, n_cols. simpl.
  split; [by rewrite length_insert|]. intros Hs.
  apply drain_while_sentinel in H4 as (S1 & S2).
  - split; [by apply Forall_insert|].
    intros _. apply increment_true in Hi as [Ha _]. split; [done|].
    exists column'. split; [done|]. eapply starts_real_le; [|exact S2]. lia.
  - eapply Forall_impl; [exact H2|]. intros x [[? ?] _]. lia.
  - by eapply Forall_lookup_1.
  - intros a Ha. lia.
Qed.

Lemma columns_loop (body : nat → mat * Progress → result (mat * Progress))
    rows N p knns p' :
  (∀ i kp kp', body i kp = Ok kp' → column_done i kp kp') →
  for_each (seq 0 N) body (filled rows N (-1)%Z, p) = Ok (knns, p') →
  n_cols knns = N ∧
  Forall sentinel_terminated (cols knns) ∧
  (aborted p' = false → Forall (starts_real 1) (cols knns)).
Proof.
  intros Hbody H.
  pose (P := λ (m : nat) (kp : mat * Progress),
    n_cols kp.1 = N ∧ Forall sentinel_terminated (cols kp.1) ∧
    (aborted kp.2 = false →
     ∀ i c, i < m → cols kp.1 !! i = Some c → starts_real 1 c)).
  assert (G : P N (knns, p')).
  { refine (for_each_seq_inv P N _ _ (knns, p') _ _ H).
    - intros m kp kp' Hm (L & S & R) Hb.
      destruct (Hbody m kp kp' Hb) as (L' & D). destruct (D S) as (S' & R').
      split; [congruence|]. split; [done|].
      intros Ha i c Hi Hc. destruct (R' Ha) as (Ha0 & c' & E & Hc').
      rewrite E in Hc. simpl in Hc. destruct (decide (i = m)) as [->|Hne].
      + rewrite list_lookup_insert_eq in Hc by (unfold n_cols in L; lia).
        by inversion Hc; subst.
      + rewrite list_lookup_insert_ne in Hc by done.
        apply (R Ha0 i c); [lia|done].
    - unfold P, n_cols. simpl. split; [by rewrite length_replicate|].
      split; [|intros; lia].
      apply Forall_replicate, sentinel_terminated_replicate. }
  destruct G as (L & S & R). split; [done|]. split; [done|].
  intros Ha. apply Forall_lookup. intros i c Hc. apply (R Ha i c); [|done].
  apply lookup_lt_Some in Hc. unfold n_cols in L. simpl in *. lia.
Qed.

Lemma check_abort_false interrupt p p' :
  check_abort interrupt p = (false, p') → aborted p = false.
Proof. unfold check_abort. destruct (aborted p); [by inversion 1|done]. Qed.

Lemma searchTrees_columns interrupt project mid dist stale threshold n_trees K
    depth maxIter N m p :
  searchTrees interrupt project mid dist stale threshold n_trees K depth maxIter N
    = Ok (m, p) →
  Forall sentinel_terminated (cols m) ∧
  (aborted p = false →
   n_cols m = N ∧ entries (index_or_none N) m ∧
   Forall (starts_real 1) (cols m)).
Proof.
  unfold searchTrees. intros H. apply bind_Ok in H as (s & Hs & H).
  destruct (check_abort interrupt (progress s)) as [ab p1] eqn:Hc1.
  apply check_abort_flag in Hc1. destruct ab.
  { inversion H; subst. split; [constructor|]. intros; congruence. }
  apply bind_Ok in H as ([knns p2] & Hr & H).
  pose proof (forest_pools_ok _ _ _ _ _ _ _ _ Hs) as HP.
  pose proof Hr as Hr'. apply reduce_inv in Hr' as (Hshape & Hent); [|done].
  unfold reduce in Hr. apply columns_loop in Hr as (L & S & R).
  2:{ intros i kp kp' Hb. eapply reduce_column_done; [|exact Hb].
      intros l Hl. by destruct (proj2 HP i l Hl). }
  destruct (check_abort interrupt p2) as [ab2 p3] eqn:Hc2.
  destruct ab2.
  { apply check_abort_flag in Hc2. inversion H; subst.
    split; [constructor|]. intros; congruence. }
  apply check_abort_false in Hc2.
  apply (for_each_inv (λ kp : mat * Progress,
           Forall sentinel_terminated (cols kp.1) ∧
           ((aborted kp.2 = false → Forall (starts_real 1) (cols kp.1)) ∨
            aborted p2 = false ∧ kp.1 = knns) ∧
           n_cols kp.1 = N ∧ entries (index_or_none N) kp.1)) in H.
  - destruct H as (S' & R' & L' & E'). split; [done|]. intros Ha.
    split; [done|]. split; [done|].
    destruct R' as [R'|[_ R']]; [by apply R'|]. simpl in R'. subst. auto.
  - intros T [a pa] [b pb] _ (Sa & _ & La & Ea) Hb. simpl in *.
    pose proof Hb as Hb'. apply refine_inv in Hb' as (Hsb & Heb); [|done].
    unfold refine in Hb. apply columns_loop in Hb as (Lb & Sb & Rb).
    2:{ intros i kp kp' Hc. by eapply refine_column_done. }
    split; [done|]. split; [by left|]. split; [done|].
    eapply entries_mono; [|exact Heb]. apply explored_index_or_none.
  - simpl. split; [done|]. split; [by right|]. done.
Qed.

(** X13: in every column of a matrix [searchTrees] returns, the sentinels
    are at the bottom: below a row holding [-1] every row holds [-1].  The
    [break] on the first sentinel in the exploration loops therefore skips no
    neighbour. *)
Theorem columns_sentinel_terminated interrupt project mid dist stale threshold
    n_trees K depth maxIter N m p i c a b :
  searchTrees interrupt project mid dist stale threshold n_trees K depth maxIter N
    = Ok (m, p) →
  cols m !! i = Some c → a ≤ b → b < length c →
  c !! a = Some (-1)%Z → c !! b = Some (-1)%Z.
Proof.
  intros H Hc. apply searchTrees_columns in H as [H _].
  by apply (Forall_lookup_1 _ _ _ _ H Hc).
Qed.

Lemma columns_sentinel_terminated_witness :
  [2; 1; 0; -1; -1]%Z !! 4 = Some (-1)%Z.
Proof.
  apply (columns_sentinel_terminated no_interrupt flat mean three_points
           (stale_const 0) 5 2 2 1 0 3
           (mkMat 5 [[2; 1; 0; -1; -1]; [2; 0; 1; -1; -1]; [0; 1; 2; -1; -1]]%Z)
           (mkProgress 9 false 12) 0 [2; 1; 0; -1; -1]%Z 3 4).
  - vm_compute. reflexivity.
  - reflexivity.
  - lia.
  - simpl. lia.
  - reflexivity.
Defined.


(** X14: a run that returns without having seen the abort flag gives every
    point a neighbour: the matrix has a column for each of the [N] points and
    its first row holds the index of a point, not the sentinel. *)
Theorem every_point_gets_a_neighbour interrupt project mid dist stale threshold
    n_trees K depth maxIter N m p i :
  searchTrees interrupt project mid dist stale threshold n_trees K depth maxIter N
    = Ok (m, p) →
  aborted p = false → i < N →
  ∃ c x, cols m !! i = Some c ∧ c !! 0 = Some x ∧ (0 ≤ x < Z.of_nat N)%Z.
Proof.
  intros H Ha Hi. apply searchTrees_columns in H as [_ H].
  destruct (H Ha) as (L & E & R). unfold n_cols in L.
  destruct (lookup_lt_is_Some_2 (cols m) i) as [c Hc]; [lia|].
  destruct (Forall_lookup_1 _ _ _ _ R Hc 0) as (x & Hx & Hne); [lia|].
  exists c, x. split; [done|]. split; [done|].
  destruct (Forall_lookup_1 _ _ _ _ (E i c Hc) Hx) as [?|?]; done.
Qed.

Lemma every_point_gets_a_neighbour_witness :
  ∃ c x, [[2; 1]; [2; 0]; [0; 1]]%Z !! 1 = Some c ∧ c !! 0 = Some x ∧
         (0 ≤ x < Z.of_nat 3)%Z.
Proof.
  apply (every_point_gets_a_neighbour no_interrupt flat mean three_points
           (stale_const 0) 4 2 2 1 1 3
           (mkMat 2 [[2; 1]; [2; 0]; [0; 1]]%Z) (mkProgress 12 false 15) 1).
  - vm_compute. reflexivity.
  - reflexivity.
  - lia.
Defined.

(** ** The squared Euclidean distance *)

Lemma square_nonneg (x : Q) : (0 <= x * x)%Q.
Proof.
  unfold Qle, Qmult. simpl. rewrite Z.mul_1_r. apply Z.square_nonneg.
Qed.

(** X15: [relDist] meets what the exploration expects of a distance: on
    vectors of one length it is never negative, does not depend on the order
    of its arguments, and is zero from a vector to itself. *)
Theorem relDist_contract (i j : list Q) :
  length i = length j →
  (0 <= relDist i j)%Q ∧ (relDist i j == relDist j i)%Q ∧
  (relDist i i == 0)%Q.
Proof.
  unfold relDist, square, minus. revert j.
  induction i as [|x i IH]; intros [|y j] Hl; try done.
  destruct (IH j) as (IH1 & IH2 & IH3); [by inversion Hl|].
  simpl. split; [|split].
  - apply Qle_trans with (0 + 0)%Q; [done|].
    apply Qplus_le_compat; [apply square_nonneg|exact IH1].
  - rewrite IH2. ring.
  - rewrite IH3. ring.
Qed.

Lemma relDist_contract_witness :
  (0 <= relDist [1; 2] [3; 5])%Q ∧
  (relDist [1; 2] [3; 5] == relDist [3; 5] [1; 2])%Q ∧
  (relDist [1; 2] [1; 2] == 0)%Q.
Proof. apply (relDist_contract [1; 2]%Q [3; 5]%Q). reflexivity. Defined.

(** ** Neighbours are listed from the farthest to the nearest *)

Lemma heap_ok_push dist i k q :
  heap_ok dist i q → heap_ok dist i (pq_push (mkHeapObject (dist i k) k) q).
Proof.
  intros [Hs Hd]. split; [by apply pq_push_sorted|].
  by apply pq_push_Forall.
Qed.

Lemma heap_ok_pop dist i q : heap_ok dist i q → heap_ok dist i (pq_pop q).
Proof.
  intros [Hs Hd]. split; [|by apply pq_pop_Forall].
  destruct q as [|top q]; [done|]. simpl.
  by apply StronglySorted_inv in Hs as [Hs _].
Qed.

Lemma heap_ok_bounded dist i (bound : nat) k q :
  heap_ok dist i q →
  heap_ok dist i
    (if bound <? pq_size (pq_push (mkHeapObject (dist i k) k) q)
     then pq_pop (pq_push (mkHeapObject (dist i k) k) q)
     else pq_push (mkHeapObject (dist i k) k) q).
Proof.
  intros Hq. destruct (bound <? _); [apply heap_ok_pop|];
    by apply heap_ok_push.
Qed.

Lemma nearest_heap_ok dist threshold i stack :
  heap_ok dist i (nearest dist threshold i stack).
Proof.
  unfold nearest.
  assert (G : ∀ q : priority_queue, heap_ok dist i q →
    heap_ok dist i
      (fold_left (λ maxHeap it,
         let maxHeap' := pq_push (mkHeapObject (dist i it) it) maxHeap in
         if threshold <? pq_size maxHeap' then pq_pop maxHeap' else maxHeap')
         stack q)).
  { induction stack as [|x stack IH]; intros q Hq; simpl; [done|].
    apply IH. by apply heap_ok_bounded. }
  apply G. split; constructor.
Qed.

Lemma nearest_kept dist threshold i stack :
  ∀ c, c ∈ stack →
    mkHeapObject (dist i c) c ∈ nearest dist threshold i stack ∨
    Forall (λ x, (d x <= dist i c)%Q) (nearest dist threshold i stack).
Proof.
  unfold nearest.
  assert (G : ∀ st (q : priority_queue) done,
    farthest_first q → length q ≤ threshold →
    (∀ y, y ∈ q → n y ∈ done ∧ d y = dist i (n y)) →
    (∀ c, c ∈ done → kept dist threshold i q c) →
    let q' := fold_left (λ maxHeap it,
       let maxHeap' := pq_push (mkHeapObject (dist i it) it) maxHeap in
       if threshold <? pq_size maxHeap' then pq_pop maxHeap' else maxHeap')
       st q in
    ∀ c, c ∈ done ++ st → kept dist threshold i q' c).
  { induction st as [|x st IH]; intros q done Hs Hl Ho Hk.
    - simpl. by rewrite app_nil_r.
    - destruct (nearest_step dist threshold i q done x Hs Hl Ho Hk)
        as (Hs' & Hl' & Ho' & Hk').
      specialize (IH _ (done ++ [x]) Hs' Hl' Ho' Hk').
      rewrite <- app_assoc in IH. exact IH. }
  intros c Hc.
  destruct (G stack [] [] ltac:(constructor) ltac:(simpl; lia)
              ltac:(by intros y ?%elem_of_nil)
              ltac:(by intros c' ?%elem_of_nil) c Hc) as [?|[_ ?]]; auto.
Qed.

(** X5: when the reduction ends with the abort flag down, column [i] of the
    first matrix holds the [min threshold |pool|] members of pool [i]
    nearest to [i], from the farthest to the nearest, followed by [-1] in
    the rows the pool was too small to fill: every member of the pool is in
    the column or at least as far from [i] as all that are.  Which of
    several members at one distance is kept, and in which order they
    stand, is not said. *)
Theorem reduce_layout interrupt dist threshold N h p knns p' i stack :
  1 ≤ threshold → pools_ok N h →
  reduce interrupt dist threshold N h p = Ok (knns, p') →
  aborted p' = false →
  h !! i = Some stack →
  ∃ q : list heapObject,
    cols knns !! i
    = Some (map n q ++ replicate (threshold - length stack) (-1)%Z) ∧
    length q = min threshold (length stack) ∧
    farthest_first q ∧
    (∀ x, x ∈ q → n x ∈ stack ∧ d x = dist (Z.of_nat i) (n x)) ∧
    (∀ c, c ∈ stack →
       mkHeapObject (dist (Z.of_nat i) c) c ∈ q ∨
       Forall (λ x, (d x <= dist (Z.of_nat i) c)%Q) q).
Proof.
  intros Ht HP H Hf Hst.
  exists (nearest dist threshold (Z.of_nat i) stack).
  split; [by eapply reduce_columns|]. split; [apply nearest_length|].
  destruct (nearest_heap_ok dist threshold (Z.of_nat i) stack) as [Hs Hd].
  split; [done|]. split; [|apply nearest_kept].
  intros x Hx. split.
  - assert (HF : Forall (λ x, n x ∈ stack)
                   (nearest dist threshold (Z.of_nat i) stack))
      by (apply (nearest_Forall dist (λ e, e ∈ stack)); by apply Forall_forall).
    rewrite Forall_forall in HF. by apply HF.
  - rewrite Forall_forall in Hd. by apply Hd.
Qed.

Lemma reduce_layout_witness :
  ∃ q : list heapObject,
    cols (mkMat 4 [[2; 1; 0; -1]; [2; 0; 1; -1]; [0; 1; 2; -1]]%Z) !! 1
    = Some (map n q ++ replicate (4 - length [0; 1; 2]%Z) (-1)%Z) ∧
    length q = min 4 (length [0; 1; 2]%Z) ∧
    farthest_first q ∧
    (∀ x, x ∈ q → n x ∈ [0; 1; 2]%Z ∧ d x = three_points (Z.of_nat 1) (n x)) ∧
    (∀ c, c ∈ [0; 1; 2]%Z →
       mkHeapObject (three_points (Z.of_nat 1) c) c ∈ q ∨
       Forall (λ x, (d x <= three_points (Z.of_nat 1) c)%Q) q).
Proof.
  apply (reduce_layout no_interrupt three_points 4 3
           [[0; 1; 2]; [0; 1; 2]; [0; 1; 2]]%Z (mkProgress 0 false 0)
           (mkMat 4 [[2; 1; 0; -1]; [2; 0; 1; -1]; [0; 1; 2; -1]]%Z)
           (mkProgress 3 false 3) 1 [0; 1; 2]%Z).
  - lia.
  - split; [reflexivity|]. intros i l Hl.
    destruct i as [|[|[|i]]]; simpl in Hl; inversion Hl; subst;
      (split; [apply list_elem_of_In; simpl; auto
              |repeat constructor; unfold in_range; simpl; lia]).
  - vm_compute. reflexivity.
  - reflexivity.
  - reflexivity.
Defined.

Lemma explore_locality_heap dist stale i K locality :
  ∀ hp pv hp' pv',
    explore_locality dist stale i K locality hp pv = Ok (hp', pv') →
    heap_ok dist i hp → heap_ok dist i hp'.
Proof.
  induction locality as [|k rest IH]; intros hp pv hp' pv' H Hhp; simpl in H.
  { by inversion H; subst. }
  destruct (k =? -1)%Z; [by inversion H; subst|].
  destruct (k =? i)%Z; [by eapply IH|].
  destruct (equal_range pv k) as [first second].
  destruct (deref stale pv first =? k)%Z; [by eapply IH|].
  destruct (Qeq_bool (dist i k) 0); [by eapply IH|].
  destruct (pq_size hp <? K).
  { eapply IH; [exact H|]. by apply heap_ok_push. }
  destruct (pq_top hp) as [top|]; [|done].
  destruct (Qltb (dist i k) (d top)); [|by eapply IH].
  eapply IH; [exact H|]. by apply heap_ok_bounded.
Qed.

Lemma explore_neighborhood_heap dist stale old_knns i K neighborhood :
  ∀ hp pv hp' pv',
    explore_neighborhood dist stale old_knns i K neighborhood hp pv
      = Ok (hp', pv') →
    heap_ok dist i hp → heap_ok dist i hp'.
Proof.
  induction neighborhood as [|j rest IH]; intros hp pv hp' pv' H Hhp;
    simpl in H.
  { by inversion H; subst. }
  destruct (j =? -1)%Z; [by inversion H; subst|].
  destruct (j =? i)%Z; [by eapply IH|].
  destruct (Qeq_bool (dist i j) 0); [by eapply IH|].
  apply bind_Ok in H as (locality & H1 & H2).
  apply bind_Ok in H2 as ([hp3 pv3] & H2 & H3).
  eapply IH; [exact H3|].
  eapply explore_locality_heap; [exact H2|].
  by apply heap_ok_bounded.
Qed.

Lemma drained_start dist i q rows :
  drained dist i q 0 (replicate rows (-1)%Z).
Proof.
  split; [|split].
  - intros a _ Ha. rewrite length_replicate in Ha.
    by apply lookup_replicate_2.
  - intros a b x y _ Hb. lia.
  - intros a x e Ha. lia.
Qed.

Lemma drained_write dist i top q j column :
  heap_ok dist i (top :: q) → drained dist i (top :: q) j column →
  j < length column →
  heap_ok dist i q ∧ drained dist i q (S j) (<[j:=n top]> column).
Proof.
  intros [Hs Hd] (Hrest & Hpref & Hlink) Hj.
  apply StronglySorted_inv in Hs as [Hs Htop].
  apply Forall_cons in Hd as [Hdt Hd]. split; [done|].
  split; [|split].
  - intros a Ha Hl. rewrite length_insert in Hl.
    rewrite list_lookup_insert_ne by lia. apply Hrest; lia.
  - intros a b x y Hab Hb Hx Hy.
    destruct (decide (b = j)) as [->|Hbj].
    + rewrite list_lookup_insert_eq in Hy by done. inversion Hy; subst y.
      rewrite <- Hdt. destruct (decide (a = j)) as [->|Haj].
      * rewrite list_lookup_insert_eq in Hx by done. inversion Hx; subst x.
        rewrite <- Hdt. apply Qle_refl.
      * rewrite list_lookup_insert_ne in Hx by done.
        apply (Hlink a x top); [lia|done|apply list_elem_of_here].
    + rewrite list_lookup_insert_ne in Hy by done.
      rewrite list_lookup_insert_ne in Hx by lia.
      apply (Hpref a b x y); [done|lia|done|done].
  - intros a x e Ha Hx He.
    destruct (decide (a = j)) as [->|Haj].
    + rewrite list_lookup_insert_eq in Hx by done. inversion Hx; subst x.
      rewrite <- Hdt. rewrite Forall_forall in Htop. by apply Htop.
    + rewrite list_lookup_insert_ne in Hx by done.
      apply (Hlink a x e); [lia|done|by apply list_elem_of_further].
Qed.

Lemma drained_sorted dist i q j column :
  drained dist i q j column → farthest_first_column dist i column.
Proof.
  intros (Hrest & Hpref & _) a b x y Hab Hx Hy Hxr Hyr.
  destruct (decide (b < j)) as [Hb|Hb]; [by apply (Hpref a b x y)|].
  rewrite Hrest in Hy; [congruence|lia|by eapply lookup_lt_Some].
Qed.

Lemma drain_do_sorted dist i bound q :
  ∀ j column j' column',
    drain_do bound q j column = Ok (j', column') →
    heap_ok dist i q → drained dist i q j column →
    farthest_first_column dist i column'.
Proof.
  induction q as [|top q IH]; intros j column j' column' H Hq Hc;
    simpl in H; [done|].
  apply bind_Ok in H as (c1 & H1 & H2). apply write_Ok in H1 as [Hj ->].
  destruct (drained_write dist i top q j column Hq Hc Hj) as [Hq' Hc'].
  destruct ((S j <? bound) && negb (pq_empty q)).
  - by eapply IH.
  - inversion H2; subst. by eapply drained_sorted.
Qed.

Lemma drain_while_sorted dist i bound q :
  ∀ j column j' column',
    drain_while bound q j column = Ok (j', column') →
    heap_ok dist i q → drained dist i q j column →
    farthest_first_column dist i column'.
Proof.
  induction q as [|top q IH]; intros j column j' column' H Hq Hc;
    simpl in H.
  { inversion H; subst. by eapply drained_sorted. }
  destruct (j <? bound); [|inversion H; subst; by eapply drained_sorted].
  apply bind_Ok in H as (c1 & H1 & H2). apply write_Ok in H1 as [Hj ->].
  destruct (drained_write dist i top q j column Hq Hc Hj) as [Hq' Hc'].
  by eapply IH.
Qed.

Lemma reduce_column_sorted interrupt dist threshold h i kp kp' :
  reduce_column interrupt dist threshold h i kp = Ok kp' →
  column_sorted_step dist threshold i kp kp'.
Proof.
  intros H. destruct kp as [knns p]. unfold reduce_column in H.
  destruct (increment interrupt 1 p) as [live p'] eqn:Hi.
  destruct live; [|by inversion H; subst; left].
  destruct (h !! i) as [stack|]; [|done].
  apply bind_Ok in H as (column & H1 & H2). apply col_of_nat in H1.
  apply bind_Ok in H2 as ([j column'] & H2 & H3).
  destruct ((j =? 1) && (at_ column' 0 =? -1)%Z); [done|].
  inversion H3; subst. right. exists column'. split; [done|].
  simpl. intros Hfresh. rewrite H1 in Hfresh. inversion Hfresh; subst.
  eapply drain_do_sorted; [exact H2|apply nearest_heap_ok|apply drained_start].
Qed.

Lemma refine_column_sorted interrupt dist stale h old_knns K i kp kp' :
  refine_column interrupt dist stale h old_knns K i kp = Ok kp' →
  column_sorted_step dist K i kp kp'.
Proof.
  intros H. destruct kp as [knns p]. unfold refine_column in H.
  destruct (increment interrupt 1 p) as [live p'] eqn:Hi.
  destruct live; [|by inversion H; subst; left].
  apply bind_Ok in H as (neighborhood & H1 & H2).
  destruct (h !! i) as [pastVisitors|]; [|done].
  apply bind_Ok in H2 as ([hp pv] & H2 & H3).
  apply explore_neighborhood_heap in H2; [|split; constructor].
  apply bind_Ok in H3 as (column & H3 & H4). apply col_of_nat in H3.
  apply bind_Ok in H4 as ([j column'] & H4 & H5).
  destruct (j =? 0); [done|].
  inversion H5; subst. right. exists column'. split; [done|].
  simpl. intros Hfresh. rewrite H3 in Hfresh. inversion Hfresh; subst.
  eapply drain_while_sorted; [exact H4|exact H2|apply drained_start].
Qed.

Lemma sorted_loop dist
    (body : nat → mat * Progress → result (mat * Progress))
    rows N p knns p' :
  (∀ i kp kp', body i kp = Ok kp' → column_sorted_step dist rows i kp kp') →
  for_each (seq 0 N) body (filled rows N (-1)%Z, p) = Ok (knns, p') →
  ∀ i c, cols knns !! i = Some c → farthest_first_column dist (Z.of_nat i) c.
Proof.
  intros Hbody H.
  pose (P := λ (m : nat) (kp : mat * Progress),
    (∀ j, m ≤ j → j < N → cols kp.1 !! j = Some (replicate rows (-1)%Z)) ∧
    (∀ j c, cols kp.1 !! j = Some c →
       farthest_first_column dist (Z.of_nat j) c)).
  assert (G : P N (knns, p')); [|by destruct G].
  refine (for_each_seq_inv P N _ _ (knns, p') _ _ H).
  - intros m [ka pa] [kb pb] Hm (F & S) Hb. unfold P. cbn [fst snd] in *.
    destruct (Hbody m _ _ Hb) as [E|(c' & E & Hc')]; cbn [fst snd] in *;
      subst kb.
    + split; [|done]. intros j Hj Hj'. apply F; lia.
    + simpl. split.
      * intros j Hj Hj'. rewrite list_lookup_insert_ne by lia. apply F; lia.
      * intros j c Hc. destruct (decide (j = m)) as [->|Hne].
        -- apply list_lookup_insert_Some in Hc as [(_ & <- & _)|[? _]];
             [|done]. apply Hc', F; lia.
        -- rewrite list_lookup_insert_ne in Hc by done. by apply S.
  - unfold P. simpl. split.
    + intros j _ Hj. by apply lookup_replicate_2.
    + intros j c [-> _]%lookup_replicate a b x y _ [-> _]%lookup_replicate.
      done.
Qed.

(** X16: every column of a matrix [searchTrees] returns lists the neighbours
    of its point from the farthest to the nearest: of two rows that hold the
    index of a point, the lower one holds a point that is no farther. *)
Theorem neighbours_farthest_first interrupt project mid dist stale threshold
    n_trees K depth maxIter N m p i c a b x y :
  searchTrees interrupt project mid dist stale threshold n_trees K depth maxIter N
    = Ok (m, p) →
  cols m !! i = Some c → a ≤ b → c !! a = Some x → c !! b = Some y →
  x ≠ (-1)%Z → y ≠ (-1)%Z →
  (dist (Z.of_nat i) y <= dist (Z.of_nat i) x)%Q.
Proof.
  unfold searchTrees. intros H. apply bind_Ok in H as (s & Hs & H).
  destruct (check_abort interrupt (progress s)) as [[] p1].
  { by inversion H; subst. }
  apply bind_Ok in H as ([knns p2] & Hr & H).
  unfold reduce in Hr.
  pose proof (sorted_loop dist _ _ _ _ _ _
                (reduce_column_sorted interrupt dist threshold (heap s)) Hr)
    as Hk.
  destruct (check_abort interrupt p2) as [[] p3].
  { by inversion H; subst. }
  assert (G : ∀ i c, cols m !! i = Some c →
            farthest_first_column dist (Z.of_nat i) c).
  { refine (for_each_inv (λ kp : mat * Progress,
              ∀ i c, cols kp.1 !! i = Some c →
                farthest_first_column dist (Z.of_nat i) c)
              _ _ _ (m, p) _ Hk H).
    intros T [ma pa] [mb pb] _ _ Hb. unfold refine in Hb.
    exact (sorted_loop dist _ _ _ _ _ _
             (refine_column_sorted interrupt dist stale (heap s) ma K) Hb). }
  intros Hc Hab Hx Hy. by apply (G i c Hc a b x y).
Qed.

Lemma neighbours_farthest_first_witness :
  (three_points (Z.of_nat 0) 1 <= three_points (Z.of_nat 0) 2)%Q.
Proof.
  apply (neighbours_farthest_first no_interrupt flat mean three_points
           (stale_const 0) 4 2 2 1 1 3
           (mkMat 2 [[2; 1]; [2; 0]; [0; 1]]%Z) (mkProgress 12 false 15)
           0 [2; 1]%Z 0 1 2%Z 1%Z).
  - vm_compute. reflexivity.
  - reflexivity.
  - lia.
  - reflexivity.
  - reflexivity.
  - done.
  - done.
Defined.

(** ** Every tree pairs every point with another *)

Lemma co_leaf_paired indices h h' x :
  Forall (in_range (length h)) indices → NoDup indices →
  2 ≤ length indices → co_leaf indices h = Ok h' → x ∈ indices →
  paired (λ y, y ∈ indices) h h' x.
Proof.
  intros Hr Hnd Hl H Hx.
  destruct (co_leaf_spec indices h Hr Hnd) as (h'' & H' & _ & Hk & _).
  rewrite H in H'. inversion H'; subst h''.
  apply list_elem_of_lookup in Hx as [k Hk'].
  pose proof (lookup_lt_Some _ _ _ Hk') as Hlt.
  assert (Ek : at_ indices k = x)
    by (pose proof (at_lookup indices k Hlt); congruence).
  specialize (Hk k Hlt). rewrite Ek in Hk.
  rewrite Forall_forall in Hr.
  assert (Hin : x ∈ indices) by (apply list_elem_of_lookup; eauto).
  destruct (lookup_lt_is_Some_2 h (Z.to_nat x)) as [l El];
    [destruct (Hr x Hin); lia|].
  rewrite El in Hk. simpl in Hk.
  set (q := if decide (k = 0) then 1 else 0).
  assert (Hq : q ≠ k ∧ q < length indices)
    by (unfold q; destruct (decide (k = 0)); lia).
  destruct Hq as [Hqk Hql].
  pose proof (at_lookup indices q Hql) as Eq.
  exists l, (delete k indices), (at_ indices q).
  split; [done|]. split; [done|]. split.
  { apply elem_of_delete_at. by exists q. }
  split; [by apply at_elem_of|].
  intros Heq. rewrite Heq in Eq.
  by pose proof (NoDup_lookup _ _ _ _ Hnd Eq Hk').
Qed.

Lemma paired_mono (R R' : Z → Prop) h h' x :
  (∀ y, R y → R' y) → paired R h h' x → paired R' h h' x.
Proof.
  intros HR (l & l' & y & ? & ? & ? & ? & ?). exists l, l', y. auto 6.
Qed.

Lemma paired_grows_r (R R' : Z → Prop) h h1 h2 x :
  paired R h h1 x → grows R' h1 h2 → paired R h h2 x.
Proof.
  intros (l & l' & y & H0 & H1 & Hy & HR & Hne) [_ G].
  destruct (G _ _ H1) as (l2 & H2 & _).
  exists l, (l' ++ l2), y. rewrite app_assoc.
  split; [done|]. split; [done|]. split; [|done].
  apply elem_of_app. by left.
Qed.

Lemma paired_grows_l (R R' : Z → Prop) h h1 h2 x :
  grows R' h h1 → paired R h1 h2 x → paired R h h2 x.
Proof.
  intros [L G] (l1 & l' & y & H1 & H2 & Hy & HR & Hne).
  destruct (lookup_lt_is_Some_2 h (Z.to_nat x)) as [l El];
    [rewrite <- L; by eapply lookup_lt_Some|].
  destruct (G _ _ El) as (l0 & E1 & _).
  assert (l1 = l ++ l0) by congruence. subst l1.
  exists l, (l0 ++ l'), y. rewrite app_assoc.
  split; [done|]. split; [done|]. split; [|done].
  apply elem_of_app. by right.
Qed.

Lemma find_cover (f : Z → Q) (τ : Q) indices x :
  x ∈ indices →
  x ∈ List.filter (λ x, Qltb τ (f x)) indices ∨
  x ∈ List.filter (λ x, Qle_bool (f x) τ) indices.
Proof.
  intros Hx. rewrite !elem_of_filter_bool. unfold Qltb.
  destruct (Qle_bool (f x) τ); [by right|by left].
Qed.

Lemma searchTree_paired interrupt project mid threshold iterations :
  ∀ indices t path s s' x,
    NoDup indices → Forall (in_range (length (heap s))) indices →
    searchTree interrupt project mid threshold indices iterations t path s = Ok s' →
    aborted (progress s') = false → x ∈ indices →
    paired (λ y, y ∈ indices) (heap s) (heap s') x.
Proof.
  induction iterations as [|it IH];
    intros indices t path s s' x Hnd Hr H Hlive Hx;
    cbn [searchTree] in H;
    destruct (check_abort interrupt (progress s)) as [[] p] eqn:Hc;
    try (inversion H; subst; simpl in Hlive;
         apply check_abort_flag in Hc; congruence);
    (destruct (length indices <? 2) eqn:E2; [done|]);
    apply Nat.ltb_ge in E2;
    (destruct (length indices =? 2) eqn:E3;
     [apply Nat.eqb_eq in E3; rewrite pair_leaf_co_leaf in H by done;
      apply bind_Ok in H as (h' & H1 & H2); inversion H2; subst; simpl;
      by eapply co_leaf_paired|]).
  - apply leaf_node_Ok in H as [H1 _]. by eapply co_leaf_paired.
  - destruct (length indices <? threshold).
    { apply leaf_node_Ok in H as [H1 _]. by eapply co_leaf_paired. }
    assert (Hsub : ∀ A B : list Z,
      NoDup A → NoDup B →
      (∀ y, y ∈ A → y ∈ indices) → (∀ y, y ∈ B → y ∈ indices) →
      x ∈ A ∨ x ∈ B →
      (searchTree interrupt project mid threshold A it t (path ++ [false])
         (mkState (heap s) p)
       ≫= searchTree interrupt project mid threshold B it t (path ++ [true]))
      = Ok s' → paired (λ y, y ∈ indices) (heap s) (heap s') x).
    { intros A B NA NB HA HB Hcover H0. rewrite Forall_forall in Hr.
      apply bind_Ok in H0 as (s1 & H1 & H2).
      destruct (searchTree_grows _ _ _ _ _ _ _ _ _ _ H1) as [G1 _].
      destruct (searchTree_grows _ _ _ _ _ _ _ _ _ _ H2) as [G2 St2].
      simpl in G1.
      assert (Hl1 : aborted (progress s1) = false)
        by (destruct (aborted (progress s1)); [|done];
            rewrite St2 in Hlive; done).
      destruct Hcover as [HxA|HxB].
      - eapply paired_grows_r; [|exact G2].
        eapply paired_mono; [exact HA|].
        apply (IH A t (path ++ [false]) (mkState (heap s) p) s1 x);
          [done| |done|done|done].
        apply Forall_forall. intros y Hy. simpl. apply Hr. auto.
      - eapply paired_grows_l; [exact G1|].
        eapply paired_mono; [exact HB|].
        apply (IH B t (path ++ [true]) s1 s' x); [done| |done|done|done].
        apply Forall_forall. intros y Hy. destruct G1 as [-> _].
        apply Hr. auto. }
    match type of H with
    | (if ?c then _ else _) = _ => destruct c
    end; apply Hsub in H; try done.
    + rewrite elem_find.
      by apply NoDup_ListNoDup, List.NoDup_filter, NoDup_ListNoDup.
    + rewrite elem_find.
      by apply NoDup_ListNoDup, List.NoDup_filter, NoDup_ListNoDup.
    + intros y. apply elem_find_subseteq.
    + intros y. apply elem_find_subseteq.
    + rewrite !elem_find. by apply find_cover.
    + by apply subvec_NoDup.
    + by apply subvec_NoDup.
    + intros y. apply subvec_subseteq.
    + intros y. apply subvec_subseteq.
    + by apply subvec_cover.
Qed.

Lemma grow_tree_members interrupt project mid threshold depth N t s s' :
  grow_tree interrupt project mid threshold depth N t s = Ok s' →
  ∀ i l x, heap s !! i = Some l → x ∈ l →
    ∃ l', heap s' !! i = Some l' ∧ x ∈ l'.
Proof.
  intros H i l x Hl Hx. unfold grow_tree in H.
  destruct (check_abort interrupt (progress s)) as [[] p].
  { inversion H; subst. simpl. eauto. }
  apply bind_Ok in H as (s1 & H1 & H2).
  apply searchTree_grows in H1 as [[_ G] _]. simpl in G.
  destruct (G i l Hl) as (l1 & E1 & _).
  assert (Hx1 : x ∈ l ++ l1) by (apply elem_of_app; by left).
  destruct (0 <? t); [|inversion H2; subst; eauto].
  destruct (check_abort interrupt (progress s1)) as [[] p1].
  { inversion H2; subst. simpl. eauto. }
  apply bind_Ok in H2 as (h & H2 & H3). inversion H3; subst. simpl.
  apply normalize_Ok in H2 as [-> _].
  exists (unique (sort_int (l ++ l1))). split.
  - change (((λ l, unique (sort_int l)) <$> heap s1) !! i
            = Some (unique (sort_int (l ++ l1)))).
    by rewrite list_lookup_fmap, E1.
  - by rewrite elem_of_unique, elem_of_sort_int.
Qed.

(** X17: a forest that is built without the abort flag being seen gives
    every point a candidate other than itself: with at least one tree, the
    pool of every point [i] holds the index of another point. *)
Theorem forest_pairs_every_point interrupt project mid threshold n_trees depth N
    s i :
  1 ≤ n_trees → i < N →
  forest interrupt project mid threshold n_trees depth N = Ok s →
  aborted (progress s) = false →
  ∃ l j, heap s !! i = Some l ∧ j ∈ l ∧ j ≠ Z.of_nat i ∧
         (0 ≤ j < Z.of_nat N)%Z.
Proof.
  intros Ht Hi H Hlive. unfold forest in H.
  destruct n_trees as [|n]; [lia|].
  change (seq 0 (S n)) with ([0] ++ seq 1 n) in H.
  rewrite for_each_app in H. apply bind_Ok in H as (s0 & H0 & H1).
  cbn [for_each] in H0. apply bind_Ok in H0 as (s0' & H0 & E0).
  inversion E0; subst s0'. clear E0.
  pose (other := λ h : list (list Z),
    ∃ l j, h !! i = Some l ∧ j ∈ l ∧ j ≠ Z.of_nat i ∧ in_range N j).
  assert (G : pools_ok N (heap s) ∧
              (aborted (progress s) = false → other (heap s)));
    [|by apply G].
  refine (for_each_inv (λ s, pools_ok N (heap s) ∧
            (aborted (progress s) = false → other (heap s)))
            _ _ s0 s _ _ H1).
  - intros t a b _ [HP Ho] Hb. split; [by eapply grow_tree_pools_ok|].
    intros Hbl.
    assert (Hal : aborted (progress a) = false).
    { destruct (aborted (progress a)) eqn:Ea; [|done].
      rewrite grow_tree_aborted in Hb by done. inversion Hb; subst.
      congruence. }
    destruct (Ho Hal) as (l & j & El & Hj & Hne & Hrng).
    destruct (grow_tree_members _ _ _ _ _ _ _ _ _ Hb i l j El Hj)
      as (l' & El' & Hj').
    by exists l', j.
  - pose proof (seeds_pools_ok N) as HP0. split.
    { eapply grow_tree_pools_ok; [|exact H0]. exact HP0. }
    intros Hl0. unfold grow_tree in H0.
    destruct (check_abort interrupt _) as [[] p] eqn:Hc in H0.
    { inversion H0; subst. simpl in Hl0. apply check_abort_flag in Hc.
      congruence. }
    apply bind_Ok in H0 as (s1 & H0 & E1). cbn [Nat.ltb Nat.leb] in E1.
    inversion E1; subst s1. clear E1.
    destruct N as [|N']; [lia|].
    apply (searchTree_paired _ _ _ _ _ _ _ _ _ _ (Z.of_nat i)) in H0.
    + destruct H0 as (l & l' & y & _ & E & Hy & Hy' & Hne).
      rewrite Nat2Z.id in E. exists (l ++ l'), y.
      split; [done|]. split; [apply elem_of_app; by right|].
      split; [done|]. by apply regspace_in_range.
    + apply regspace_NoDup.
    + apply Forall_forall. intros y Hy. cbn [heap].
      rewrite (proj1 HP0). by apply regspace_in_range.
    + done.
    + unfold regspace. apply list_elem_of_fmap. exists i. split; [done|].
      apply elem_of_seq. lia.
Qed.

Lemma forest_pairs_every_point_witness :
  ∃ l j, [[0; 1; 2; 4]; [0; 1; 2; 3; 5]; [0; 1; 2; 4];
          [1; 3; 4; 5]; [0; 2; 3; 4; 5]; [1; 3; 4; 5]]%Z !! 1 = Some l ∧
         j ∈ l ∧ j ≠ Z.of_nat 1 ∧ (0 ≤ j < Z.of_nat 6)%Z.
Proof.
  apply (forest_pairs_every_point no_interrupt six_split mean 3 2 1 6
           (mkState [[0; 1; 2; 4]; [0; 1; 2; 3; 5]; [0; 1; 2; 4];
                     [1; 3; 4; 5]; [0; 2; 3; 4; 5]; [1; 3; 4; 5]]%Z
              (mkProgress 12 false 13)) 1).
  - lia.
  - lia.
  - vm_compute. reflexivity.
  - reflexivity.
Defined.

(** ** No point is recorded as visited twice *)

Lemma equal_range_miss stale v k :
  StronglySorted Z.le v →
  (deref stale v (equal_range v k).1 =? k)%Z = false → k ∉ v.
Proof.
  intros Hs Hd (p & Hp)%list_elem_of_lookup.
  destruct (equal_range_spec v k Hs) as (H1 & H2 & Hlo & Heq & Hhi).
  pose proof (lookup_lt_Some _ _ _ Hp) as Hlt.
  rewrite at_lookup in Hp by done.
  assert (Hp' : at_ v p = k) by congruence. clear Hp.
  assert (Hin : (equal_range v k).1 < (equal_range v k).2).
  { destruct (decide (p < (equal_range v k).1)) as [Hc|Hc].
    { specialize (Hlo p Hc). lia. }
    destruct (decide ((equal_range v k).2 ≤ p)) as [Hc'|Hc'].
    { pose proof (Hhi p (conj Hc' Hlt)). lia. }
    lia. }
  apply Z.eqb_neq in Hd. apply Hd. unfold deref.
  rewrite at_lookup by lia. apply Heq. lia.
Qed.

Lemma visit_strict v k :
  StronglySorted Z.lt v → k ∉ v →
  StronglySorted Z.lt (visit v (equal_range v k).2 k).
Proof.
  intros Hs Hk. pose proof (strictly_sorted_le v Hs) as Hs0.
  destruct (equal_range_spec v k Hs0) as (H1 & H2 & Hlo & Heq & Hhi).
  set (b := (equal_range v k).2) in *.
  rewrite visit_insert_at by done. unfold insert_at.
  assert (Hle : Forall (λ x, (x < k)%Z) (take b v)).
  { apply Forall_take_at. intros p Hp Hl.
    destruct (decide (p < (equal_range v k).1)) as [Hc|Hc].
    - by apply Hlo.
    - exfalso. apply Hk. rewrite <- (Heq p) by lia. by apply at_elem_of. }
  assert (Hgt : Forall (λ x, (k < x)%Z) (drop b v))
    by (apply Forall_drop_at; intros p Hp; by apply Hhi).
  pose proof Hs as Hs'. rewrite <- (take_drop b v) in Hs'.
  apply StronglySorted_app in Hs' as (_ & Hst & Hsd).
  apply StronglySorted_app_2; [|done|].
  - intros x1 x2 Hx1 Hx2. rewrite Forall_forall in Hle, Hgt.
    specialize (Hle x1 Hx1). apply elem_of_cons in Hx2 as [->|Hx2]; [done|].
    specialize (Hgt x2 Hx2). lia.
  - by constructor.
Qed.

Lemma explore_locality_strict dist stale i K locality :
  ∀ hp pv hp' pv',
    StronglySorted Z.lt pv →
    explore_locality dist stale i K locality hp pv = Ok (hp', pv') →
    StronglySorted Z.lt pv'.
Proof.
  induction locality as [|k rest IH]; intros hp pv hp' pv' Hs H; simpl in H.
  { by inversion H; subst. }
  destruct (k =? -1)%Z; [by inversion H; subst|].
  destruct (k =? i)%Z; [by eapply IH|].
  destruct (equal_range pv k) as [first second] eqn:Er.
  destruct (deref stale pv first =? k)%Z eqn:Ed; [by eapply IH|].
  fold (visit pv second k) in H.
  assert (Sv : StronglySorted Z.lt (visit pv second k)).
  { pose proof (visit_strict pv k Hs) as Hv. rewrite Er in Hv. apply Hv.
    apply (equal_range_miss stale); [by apply strictly_sorted_le|].
    by rewrite Er. }
  destruct (Qeq_bool (dist i k) 0); [by eapply IH|].
  destruct (pq_size hp <? K); [by eapply IH|].
  destruct (pq_top hp) as [top|]; [|done].
  destruct (Qltb (dist i k) (d top)); by eapply IH.
Qed.

(** X18: the visited vector of a point never holds an index twice.  If it
    starts strictly ascending, as a normalized pool is, it is strictly
    ascending after the exploration, whatever value the read past its end
    yields. *)
Theorem visited_never_twice dist stale old_knns i K neighborhood :
  ∀ hp pv hp' pv',
    StronglySorted Z.lt pv →
    explore_neighborhood dist stale old_knns i K neighborhood hp pv
      = Ok (hp', pv') →
    StronglySorted Z.lt pv'.
Proof.
  induction neighborhood as [|j rest IH]; intros hp pv hp' pv' Hs H;
    simpl in H.
  { by inversion H; subst. }
  destruct (j =? -1)%Z; [by inversion H; subst|].
  destruct (j =? i)%Z; [by eapply IH|].
  destruct (Qeq_bool (dist i j) 0); [by eapply IH|].
  apply bind_Ok in H as (locality & Hc & H).
  apply bind_Ok in H as ([hp3 pv3] & Hl & H).
  apply explore_locality_strict in Hl; [|done]. by eapply IH.
Qed.

Lemma visited_never_twice_witness :
  StronglySorted Z.lt [0; 1; 2; 4; 5]%Z.
Proof.
  apply (visited_never_twice six_folded (stale_const (-7))
           (mkMat 3 [[2; 1; 0]; [0; 5; 1]; [0; 1; 2]; [1; 5; 3]; [2; 3; 4];
                     [3; 1; 5]]%Z) 0 2 [2; 1; 0]%Z [] [0; 1; 2; 4]%Z
           [mkHeapObject (25 # 1) 5; mkHeapObject (16 # 1) 1]
           [0; 1; 2; 4; 5]%Z).
  - repeat constructor; lia.
  - vm_compute. reflexivity.
Defined.
